(** * listen: the transcription pipeline, the job queue and the store

    A shallow embedding of the Go packages [internal/pipeline],
    [internal/store] and [internal/jobs] of the listen server, and the
    properties of the chunk / transcribe / merge / persist pipeline and of
    the job state machine that are proved about them.

    Conventions of the embedding:
    - a Go [int] is a [Z] in the 64-bit two's-complement range; arithmetic
      that could leave that range is wrapped with [Go.wrap64];
    - a Go [float64] is a primitive binary64 [float]; the Go operators
      [+], [*], [/], [>] are [PrimFloat.add], [mul], [div], [ltb];
    - a Go [string] is the list of its Unicode code points ([Go.gostring]).
      Every string the pipeline handles comes out of [encoding/json], which
      produces valid UTF-8, so the code points determine the bytes;
    - a nil-able pointer [*T] is an [option T];
    - sub-processes, the file system and statement-level database failures
      are outcomes supplied by the environment (records of oracles). *)

From Stdlib Require Import ZArith NArith List String Ascii Floats Lia Bool Sorted
  Permutation.
From stdpp Require Import base option list gmap.

Open Scope Z_scope.

(* ===================================================================== *)
(** ** Go primitives used by the three packages                          *)
(* ===================================================================== *)

Module Go.

(** [int] on a 64-bit platform. *)
Definition min_int : Z := - 2 ^ 63.
Definition max_int : Z := 2 ^ 63 - 1.

Definition in_int (z : Z) : Prop := min_int <= z <= max_int.

(** Two's-complement wrap-around of an [int] result. *)
Definition wrap64 (z : Z) : Z := (z + 2 ^ 63) mod 2 ^ 64 - 2 ^ 63.

(** [float64(n)] for an [int] n: the nearest binary64, ties to even. *)
Definition float_of_int (z : Z) : float :=
  if z =? min_int then
    PrimFloat.opp (PrimFloat.mul (PrimFloat.of_uint63 (Uint63.of_Z (2 ^ 62))) 2%float)
  else if z <? 0 then PrimFloat.opp (PrimFloat.of_uint63 (Uint63.of_Z (- z)))
  else PrimFloat.of_uint63 (Uint63.of_Z z).

(** Strings as code points. *)
Definition rune : Type := N.
Definition gostring : Type := list rune.

(** A string literal (ASCII) as a Go string. *)
Definition str (s : string) : gostring :=
  List.map N_of_ascii (list_ascii_of_string s).
Arguments str : simpl never.

Definition rune_eqb (a b : rune) : bool := N.eqb a b.

Fixpoint string_eqb (a b : gostring) : bool :=
  match a, b with
  | [], [] => true
  | x :: a', y :: b' => rune_eqb x y && string_eqb a' b'
  | _, _ => false
  end.

Definition is_empty (s : gostring) : bool :=
  match s with [] => true | _ :: _ => false end.

(** [unicode.IsSpace]: the Latin-1 spaces, then the White_Space table. *)
Definition IsSpace (r : rune) : bool :=
  let r := Z.of_N r in
  if r <=? 255 then
    (r =? 9) || (r =? 10) || (r =? 11) || (r =? 12) || (r =? 13)
    || (r =? 32) || (r =? 133) || (r =? 160)
  else
    (r =? 5760) || ((8192 <=? r) && (r <=? 8202)) || (r =? 8232)
    || (r =? 8233) || (r =? 8239) || (r =? 8287) || (r =? 12288).

(** [strings.TrimLeftFunc(s, f)]. *)
Fixpoint TrimLeftFunc (f : rune -> bool) (s : gostring) : gostring :=
  match s with
  | [] => []
  | r :: s' => if f r then TrimLeftFunc f s' else s
  end.

(** [strings.TrimRightFunc(s, f)]. *)
Definition TrimRightFunc (f : rune -> bool) (s : gostring) : gostring :=
  rev (TrimLeftFunc f (rev s)).

(** [strings.TrimSpace(s)]: leading and trailing white space removed. *)
Definition TrimSpace (s : gostring) : gostring :=
  TrimRightFunc IsSpace (TrimLeftFunc IsSpace s).

(** [strings.TrimRight(s, cutset)]. *)
Definition TrimRight (s cutset : gostring) : gostring :=
  TrimRightFunc (fun r => existsb (rune_eqb r) cutset) s.

(** [strings.Join(elems, sep)]. *)
Fixpoint Join (elems : list gostring) (sep : gostring) : gostring :=
  match elems with
  | [] => []
  | [e] => e
  | e :: rest => e ++ sep ++ Join rest sep
  end.

(** [strings.Split(s, sep)] for a one-rune separator: the pieces between
    the occurrences of [sep]; always at least one piece. *)
Fixpoint Split (s : gostring) (sep : rune) : list gostring :=
  match s with
  | [] => [[]]
  | r :: s' =>
      if rune_eqb r sep then [] :: Split s' sep
      else match Split s' sep with
           | [] => [[r]]
           | p :: ps => (r :: p) :: ps
           end
  end.

(** [strings.Contains(s, sep)] for a one-rune [sep]. *)
Definition Contains (s : gostring) (sep : rune) : bool :=
  existsb (rune_eqb sep) s.

(** [strings.SplitN(s, sep, 2)] for a one-rune separator: the text before
    the first [sep] and the text after it, or [s] alone. *)
Fixpoint SplitN2 (s : gostring) (sep : rune) : list gostring :=
  match s with
  | [] => [[]]
  | r :: s' =>
      if rune_eqb r sep then [[]; s']
      else match SplitN2 s' sep with
           | p :: ps => (r :: p) :: ps
           | [] => [[r]]
           end
  end.

(** The decimal value of a run of digits; [None] at the first rune that
    is not a digit. *)
Fixpoint digits_value (acc : Z) (s : gostring) : option Z :=
  match s with
  | [] => Some acc
  | r :: s' =>
      let d := Z.of_N r - 48 in
      if (0 <=? d) && (d <=? 9) then digits_value (acc * 10 + d) s' else None
  end.

(** [strconv.Atoi(s)]: the value and whether the conversion succeeded.
    A syntax error returns 0; a value out of range returns the nearest
    bound, both with an error. *)
Definition Atoi (s : gostring) : Z * bool :=
  let '(neg, body) :=
    match s with
    | 45%N :: s' => (true, s')
    | 43%N :: s' => (false, s')
    | _ => (false, s)
    end in
  match body with
  | [] => (0, false)
  | _ :: _ =>
      match digits_value 0 body with
      | None => (0, false)
      | Some n =>
          let v := if neg then - n else n in
          if v <? min_int then (min_int, false)
          else if max_int <? v then (max_int, false)
          else (v, true)
      end
  end.

(** Decimal digits of a non-negative number, most significant first. *)
Fixpoint digits_fuel (fuel : nat) (n : Z) (acc : gostring) : gostring :=
  match fuel with
  | O => acc
  | S fuel' =>
      let acc' := N.of_nat (Z.to_nat (48 + n mod 10)) :: acc in
      if n / 10 =? 0 then acc' else digits_fuel fuel' (n / 10) acc'
  end.

Definition Itoa (n : Z) : gostring :=
  if n <? 0 then 45%N :: digits_fuel 20 (- n) [] else digits_fuel 20 n [].

(** [fmt.Sprintf("%03d", n)]: zero-padded to a width of three, the sign
    counted in the width. *)
Definition Sprintf_03d (n : Z) : gostring :=
  let ds := digits_fuel 20 (Z.abs n) [] in
  let width := if n <? 0 then 2%nat else 3%nat in
  let pad := repeat 48%N (width - length ds) in
  (if n <? 0 then [45%N] else []) ++ pad ++ ds.

(** Byte-wise order of strings, which for UTF-8 is the order of the code
    point sequences. *)
Fixpoint string_ltb (a b : gostring) : bool :=
  match a, b with
  | _, [] => false
  | [], _ :: _ => true
  | x :: a', y :: b' => N.ltb x y || (N.eqb x y && string_ltb a' b')
  end.

Fixpoint insert_sorted (x : gostring) (l : list gostring) : list gostring :=
  match l with
  | [] => [x]
  | y :: l' => if string_ltb y x then y :: insert_sorted x l' else x :: l
  end.

(** [sort.Strings(a)]: increasing order. *)
Definition sort_Strings (l : list gostring) : list gostring :=
  fold_right insert_sorted [] l.

(** A fallible result: the value, or the error's message. *)
Inductive result (A : Type) : Type :=
| Ok (a : A)
| Err (msg : gostring).
Arguments Ok {A} a.
Arguments Err {A} msg.

(** [strings.HasPrefix(s, prefix)]. *)
Fixpoint HasPrefix (s prefix : gostring) : bool :=
  match prefix, s with
  | [], _ => true
  | p :: prefix', r :: s' => rune_eqb r p && HasPrefix s' prefix'
  | _ :: _, [] => false
  end.

(** [strings.TrimPrefix(s, prefix)]: [s] without the leading [prefix],
    or [s] itself when it does not start with it. *)
Definition TrimPrefix (s prefix : gostring) : gostring :=
  if HasPrefix s prefix then skipn (length prefix) s else s.

End Go.

Import Go.

(* ===================================================================== *)
(** ** internal/pipeline                                                  *)
(* ===================================================================== *)

Module pipeline.

Record Runner : Type := {
  FFmpegPath : gostring;
  WhisperPath : gostring;
  WhisperModelPath : gostring;
  ChunkSeconds : Z
}.

Record Chunk : Type := {
  chunk_Path : gostring;
  chunk_Offset : float;   (* seconds *)
  chunk_Index : Z         (* 1-based *)
}.

Record Segment : Type := {
  seg_Start : float;
  seg_End : float;
  seg_Text : gostring
}.

Record Result : Type := {
  res_Language : option gostring;
  res_Text : gostring;
  res_Segments : list Segment;
  res_Duration : option float
}.

(** *** The decoded engine output *)

Record whisperOffsets : Type := {
  off_From : option Z;
  off_To : option Z
}.

Record whisperTimestamps : Type := {
  ts_From : gostring;
  ts_To : gostring
}.

Record whisperSeg : Type := {
  ws_Text : gostring;
  ws_Start : option float;
  ws_End : option float;
  ws_T0 : option Z;
  ws_T1 : option Z;
  ws_Offsets : option whisperOffsets;
  ws_Timestamps : option whisperTimestamps;
  ws_TimeStanps : option whisperTimestamps   (* "timestanps": some builds have the typo *)
}.

Record whisperResult : Type := {
  wr_Language : gostring
}.

Record whisperJSON : Type := {
  wj_Text : gostring;
  wj_Language : gostring;
  wj_Result : option whisperResult;
  wj_Segments : list whisperSeg;
  wj_Transcription : list whisperSeg
}.

(** *** Parsing helpers *)

(** [parseTimestamp(v)]: "HH:MM:SS.mmm" or "HH:MM:SS" to seconds; [None]
    stands for the returned error, whose text the only caller drops.
    [ms[:3]] cuts bytes in the source; a rune outside ASCII among the
    first three makes [Atoi] fail on either reading, so cutting code
    points gives the same [msInt]. *)
Definition parseTimestamp (v : gostring) : option float :=
  let v := TrimSpace v in
  match Split v 58%N with
  | [p0; p1; secPart] =>
      let '(h, okh) := Atoi p0 in
      if negb okh then None else
      let '(m, okm) := Atoi p1 in
      if negb okm then None else
      let '(s, ms) :=
        if Contains secPart 46%N then
          match SplitN2 secPart 46%N with
          | [a; b] => (a, b)
          | _ => (secPart, str "0")
          end
        else (secPart, str "0") in
      let '(sec, oks) := Atoi s in
      if negb oks then None else
      let ms := TrimRight ms (str "Z") in
      let msInt :=
        if is_empty ms then 0
        else
          let ms := if (3 <? length ms)%nat then firstn 3 ms else ms in
          let ms := ms ++ repeat 48%N (3 - length ms) in
          fst (Atoi ms) in
      Some (PrimFloat.add
              (float_of_int (wrap64 (h * 3600 + m * 60 + sec)))
              (PrimFloat.div (float_of_int msInt) 1000%float))
  | _ => None
  end.

(** [segTimesSeconds(s)]: [(start, end, ok)]. *)
Definition segTimesSeconds (s : whisperSeg) : float * float * bool :=
  match ws_Offsets s with
  | Some {| off_From := Some from; off_To := Some to |} =>
      (PrimFloat.div (float_of_int from) 1000%float,
       PrimFloat.div (float_of_int to) 1000%float, true)
  | _ =>
      match ws_Start s, ws_End s with
      | Some a, Some b => (a, b, true)
      | _, _ =>
          match ws_T0 s, ws_T1 s with
          | Some t0, Some t1 =>
              (* whisper.cpp uses 10ms units for t0/t1. *)
              (PrimFloat.mul (float_of_int t0) 0x1.47ae147ae147bp-7%float,
               PrimFloat.mul (float_of_int t1) 0x1.47ae147ae147bp-7%float, true)
          | _, _ =>
              let ts := match ws_Timestamps s with
                        | None => ws_TimeStanps s
                        | Some t => Some t
                        end in
              match ts with
              | Some t =>
                  if negb (is_empty (ts_From t)) && negb (is_empty (ts_To t)) then
                    match parseTimestamp (ts_From t), parseTimestamp (ts_To t) with
                    | Some a, Some b => (a, b, true)
                    | _, _ => (0%float, 0%float, false)
                    end
                  else (0%float, 0%float, false)
              | None => (0%float, 0%float, false)
              end
          end
      end
  end.

(** One iteration of the loop of [parseWhisperJSON] over the raw records:
    the accumulators are [out] and [parts]. *)
Definition parse_step (acc : list Segment * list gostring) (s : whisperSeg)
  : list Segment * list gostring :=
  let '(out, parts) := acc in
  let '(start, end_, ok) := segTimesSeconds s in
  if negb ok then acc
  else
    let txt := TrimSpace (ws_Text s) in
    if is_empty txt then acc
    else (out ++ [{| seg_Start := start; seg_End := end_; seg_Text := txt |}],
          parts ++ [txt]).

(** [parseWhisperJSON(b)]. The argument is what [json.Unmarshal(b, &w)]
    gives for the bytes: the decoded value or the decoding error. The
    result is [(segments, text, language)] or the error. *)
Definition parseWhisperJSON (b : result whisperJSON)
  : result (list Segment * gostring * option gostring) :=
  match b with
  | Err e => Err (str "parse whisper json: " ++ e)
  | Ok w =>
      let lang := TrimSpace (wj_Language w) in
      let lang :=
        match wj_Result w with
        | Some r => if is_empty lang then TrimSpace (wr_Language r) else lang
        | None => lang
        end in
      let langPtr := if negb (is_empty lang) then Some lang else None in
      let segs := wj_Segments w in
      let segs := if (length segs =? 0)%nat then wj_Transcription w else segs in
      let '(out, parts) := fold_left parse_step segs ([], []) in
      let text := TrimSpace (wj_Text w) in
      let text := if is_empty text then Join parts (str " ") else text in
      Ok (out, text, langPtr)
  end.

(** *** The environment of a run: sub-processes and files *)

(** What running the engine on one chunk file leaves behind. *)
Inductive EngineOutcome : Type :=
| EngineFailed (e : gostring)            (* runCmd(WhisperPath, ...) failed *)
| OutputUnreadable (e : gostring)        (* os.ReadFile(outBase + ".json") failed *)
| OutputRead (b : result whisperJSON).   (* the bytes read, as json.Unmarshal sees them *)

Record Env : Type := {
  mkdir_temp : result gostring;                 (* os.MkdirTemp *)
  run_ffmpeg : option gostring;                 (* runCmd(FFmpegPath, ...): nil or the error *)
  glob_chunks : result (list gostring);         (* filepath.Glob(workDir/chunk-*.wav) *)
  run_whisper : gostring -> EngineOutcome       (* by the chunk's wav path *)
}.

(** [for i, p := range matches]: the chunks from position [i] on. *)
Fixpoint chunks_from (r : Runner) (i : Z) (matches : list gostring) : list Chunk :=
  match matches with
  | [] => []
  | p :: rest =>
      {| chunk_Path := p;
         chunk_Offset := float_of_int (wrap64 (i * ChunkSeconds r));
         chunk_Index := i + 1 |} :: chunks_from r (i + 1) rest
  end.

(** [(r *Runner) chunkAudio]. *)
Definition chunkAudio (r : Runner) (env : Env) : result (list Chunk) :=
  match run_ffmpeg env with
  | Some e => Err (str "ffmpeg chunking failed: " ++ e)
  | None =>
      match glob_chunks env with
      | Err e => Err e
      | Ok matches => Ok (chunks_from r 0 (sort_Strings matches))
      end
  end.

Definition ChunkAudio := chunkAudio.

(** [(r *Runner) transcribeChunk]. The output base name only tells the
    engine where to write the JSON that is read back. *)
Definition transcribeChunk (r : Runner) (env : Env) (wavPath : gostring)
  : result (list Segment * gostring * option gostring) :=
  match run_whisper env wavPath with
  | EngineFailed e => Err (str "whisper failed: " ++ e)
  | OutputUnreadable e => Err (str "read whisper json: " ++ e)
  | OutputRead b => parseWhisperJSON b
  end.

Definition TranscribeChunk := transcribeChunk.

(** The merge of one chunk's segments into the global list. *)
Definition shift_segment (ch : Chunk) (s : Segment) : Segment :=
  {| seg_Start := PrimFloat.add (seg_Start s) (chunk_Offset ch);
     seg_End := PrimFloat.add (seg_End s) (chunk_Offset ch);
     seg_Text := seg_Text s |}.

Definition first_language (lang chunkLang : option gostring) : option gostring :=
  match lang, chunkLang with
  | None, Some l => if negb (is_empty (TrimSpace l)) then chunkLang else lang
  | _, _ => lang
  end.

(** The chunk loop of [Run]: [all], [parts] and [lang] after the chunks,
    or the first transcription error. *)
Fixpoint run_chunks (r : Runner) (env : Env) (chunks : list Chunk)
    (all : list Segment) (parts : list gostring) (lang : option gostring)
  : result (list Segment * list gostring * option gostring) :=
  match chunks with
  | [] => Ok (all, parts, lang)
  | ch :: rest =>
      match transcribeChunk r env (chunk_Path ch) with
      | Err e => Err e
      | Ok (seg, text, chunkLang) =>
          let lang := first_language lang chunkLang in
          let all := all ++ List.map (shift_segment ch) seg in
          let parts :=
            if negb (is_empty (TrimSpace text)) then parts ++ [TrimSpace text]
            else parts in
          run_chunks r env rest all parts lang
      end
  end.

(** The duration loop of [Run]: the running maximum of [End]. *)
Definition max_end_loop (all : list Segment) (maxEnd : float) : float :=
  fold_left (fun maxEnd s =>
               if PrimFloat.ltb maxEnd (seg_End s) then seg_End s else maxEnd)
            all maxEnd.

Definition derive_duration (all : list Segment) : option float :=
  match all with
  | [] => None
  | s0 :: _ => Some (max_end_loop all (seg_End s0))
  end.

(** [(r *Runner) Run]: the chunks and either the result or the error. *)
Definition Run (r : Runner) (env : Env) : list Chunk * result Result :=
  if ChunkSeconds r <=? 0 then ([], Err (str "invalid chunk seconds"))
  else if is_empty (TrimSpace (FFmpegPath r)) then ([], Err (str "FFmpegPath is required"))
  else if is_empty (TrimSpace (WhisperPath r)) then ([], Err (str "WhisperPath is required"))
  else if is_empty (TrimSpace (WhisperModelPath r)) then
    ([], Err (str "WhisperModelPath is required"))
  else
    match mkdir_temp env with
    | Err e => ([], Err e)
    | Ok workDir =>
        match chunkAudio r env with
        | Err e => ([], Err e)
        | Ok chunks =>
            if (length chunks =? 0)%nat then ([], Err (str "no chunks produced"))
            else
              match run_chunks r env chunks [] [] None with
              | Err e => (chunks, Err e)
              | Ok (all, parts, lang) =>
                  (chunks,
                   Ok {| res_Language := lang;
                         res_Text := Join parts (str " ");
                         res_Segments := all;
                         res_Duration := derive_duration all |})
              end
        end
    end.

End pipeline.

(* ===================================================================== *)
(** ** internal/store                                                     *)
(* ===================================================================== *)

Module store.

(** A row of [processing_jobs]; [id] is the key of the table and
    [created_at] is left out. *)
Record JobRow : Type := {
  job_conversation_id : option Z;
  job_transcript_id : option Z;
  job_type : gostring;
  job_status : gostring;
  job_progress : Z;
  job_total_chunks : option Z;
  job_current_chunk : option Z;
  job_result : option gostring
}.

(** A row of [transcripts], the columns [CreateTranscriptWithSegments]
    writes. *)
Record TranscriptRow : Type := {
  tr_conversation_id : Z;
  tr_file_name : gostring;
  tr_transcript_text : gostring;
  tr_duration : option float;
  tr_language : option gostring;
  tr_transcription_model : option gostring;
  tr_audio_file_url : gostring
}.

(** A row of [transcript_segments]. *)
Record SegmentRow : Type := {
  sg_transcript_id : Z;
  sg_start_time : float;
  sg_end_time : float;
  sg_text : gostring
}.

(** The tables of the schema the pipeline touches. [conversations] holds
    the ids only; the [_seq] fields are the AUTOINCREMENT counters. *)
Record DB : Type := {
  conversations : gset Z;
  transcripts : gmap Z TranscriptRow;
  transcripts_seq : Z;
  transcript_segments : list SegmentRow;
  processing_jobs : gmap Z JobRow;
  processing_jobs_seq : Z
}.

Definition with_jobs (db : DB) (jobs : gmap Z JobRow) : DB :=
  {| conversations := conversations db;
     transcripts := transcripts db;
     transcripts_seq := transcripts_seq db;
     transcript_segments := transcript_segments db;
     processing_jobs := jobs;
     processing_jobs_seq := processing_jobs_seq db |}.

Record ProcessingJob : Type := {
  pj_ID : Z;
  pj_Status : gostring;
  pj_Progress : Z;
  pj_TotalChunks : option Z;
  pj_CurrentChunk : option Z;
  pj_ConversationID : option Z;
  pj_TranscriptID : option Z;
  pj_Error : option gostring;
  pj_Message : option gostring
}.

Record TranscriptSegmentInput : Type := {
  StartTime : float;
  EndTime : float;
  Text : gostring
}.

(** [stringsTrim(s)]: space, newline, tab and carriage return removed at
    both ends. *)
Definition is_trim_byte (r : rune) : bool :=
  rune_eqb r 32%N || rune_eqb r 10%N || rune_eqb r 9%N || rune_eqb r 13%N.

Definition stringsTrim (s : gostring) : gostring :=
  TrimRightFunc is_trim_byte (TrimLeftFunc is_trim_byte s).

(** SQL [COALESCE(?, column)]. *)
Definition COALESCE {A} (arg column : option A) : option A :=
  match arg with
  | Some v => Some v
  | None => column
  end.

(** [CreateJob]: INSERT INTO processing_jobs(conversation_id, job_type,
    status, progress) VALUES (?, ?, 'pending', ?). The foreign key on
    [conversation_id] is enforced. *)
Definition CreateJob (db : DB) (conversationID : Z) (jobType : gostring)
    (initialProgress : Z) : DB * result Z :=
  if bool_decide (conversationID ∈ conversations db) then
    let id := Z.max (processing_jobs_seq db) 0 + 1 in
    let row := {| job_conversation_id := Some conversationID;
                  job_transcript_id := None;
                  job_type := jobType;
                  job_status := str "pending";
                  job_progress := initialProgress;
                  job_total_chunks := None;
                  job_current_chunk := None;
                  job_result := None |} in
    ({| conversations := conversations db;
        transcripts := transcripts db;
        transcripts_seq := transcripts_seq db;
        transcript_segments := transcript_segments db;
        processing_jobs := <[id := row]> (processing_jobs db);
        processing_jobs_seq := id |}, Ok id)
  else (db, Err (str "FOREIGN KEY constraint failed")).

(** [GetJobByID]: the row as the status endpoint reports it. *)
Definition GetJobByID (db : DB) (jobID : Z) : result ProcessingJob :=
  match processing_jobs db !! jobID with
  | None => Err (str "sql: no rows in result set")
  | Some row =>
      Ok {| pj_ID := jobID;
            pj_Status := job_status row;
            pj_Progress := job_progress row;
            pj_TotalChunks := job_total_chunks row;
            pj_CurrentChunk := job_current_chunk row;
            pj_ConversationID := job_conversation_id row;
            pj_TranscriptID := job_transcript_id row;
            pj_Error :=
              match job_result row with
              | Some r => if string_eqb (job_status row) (str "failed") then Some r else None
              | None => None
              end;
            pj_Message := Some (str "Job status: " ++ job_status row) |}
  end.

(** The row an UPDATE of [UpdateJobProgress] leaves. *)
Definition updated_row (row : JobRow) (status : gostring) (progress : Z)
    (totalChunks currentChunk : option Z) (result : option gostring)
    (transcriptID : option Z) : JobRow :=
  {| job_conversation_id := job_conversation_id row;
     job_transcript_id := COALESCE transcriptID (job_transcript_id row);
     job_type := job_type row;
     job_status := status;
     job_progress := progress;
     job_total_chunks := COALESCE totalChunks (job_total_chunks row);
     job_current_chunk := COALESCE currentChunk (job_current_chunk row);
     job_result := COALESCE result (job_result row) |}.

(** [UpdateJobProgress]: the UPDATE ... WHERE id = ?. No row with that id:
    nothing changes. A new [transcript_id] that names no transcript
    violates the foreign key (foreign keys are on for every connection)
    and the statement changes nothing. A stored reference is taken to
    name a transcript, as it does in every store the program writes with
    foreign keys on: SQLite checks the assigned column again and would
    refuse the UPDATE of a row whose stored reference names none, which
    this definition lets through ([reference_stored] below says that a
    row is not such a row). A statement that is not executed at all is
    [jobs.update_if]. The returned error is what the callers drop. *)
Definition UpdateJobProgress (db : DB) (jobID : Z) (status : gostring)
    (progress : Z) (totalChunks currentChunk : option Z)
    (result : option gostring) (transcriptID : option Z) : DB * option gostring :=
  match processing_jobs db !! jobID with
  | None => (db, None)
  | Some row =>
      let row' := updated_row row status progress totalChunks currentChunk
                              result transcriptID in
      match job_transcript_id row' with
      | Some t =>
          if bool_decide (is_Some (transcripts db !! t)) then
            (with_jobs db (<[jobID := row']> (processing_jobs db)), None)
          else if bool_decide (job_transcript_id row' = job_transcript_id row) then
            (with_jobs db (<[jobID := row']> (processing_jobs db)), None)
          else (db, Some (str "FOREIGN KEY constraint failed"))
      | None => (with_jobs db (<[jobID := row']> (processing_jobs db)), None)
      end
  end.

(** *** The transaction of [CreateTranscriptWithSegments] *)

Section Transaction.

(** The environment's say on each statement of the transaction, by its
    position: [None] lets it run, [Some e] makes it fail with [e] (a full
    disk, a lock that is not released, a cancelled context). *)
Variable fault : nat -> option gostring.

(** The working copy of the transaction and the statements run so far. *)
Record TxState : Type := {
  tx_db : DB;
  tx_count : nat
}.

Definition Tx (A : Type) : Type := TxState -> result (A * TxState).

Definition tx_ret {A} (a : A) : Tx A := fun st => Ok (a, st).

Definition tx_bind {A B} (m : Tx A) (k : A -> Tx B) : Tx B :=
  fun st =>
    match m st with
    | Err e => Err e
    | Ok (a, st') => k a st'
    end.

(** One statement: the fault of its position first, then its effect on
    the working copy. *)
Definition tx_stmt {A} (f : DB -> result (A * DB)) : Tx A :=
  fun st =>
    match fault (tx_count st) with
    | Some e => Err e
    | None =>
        match f (tx_db st) with
        | Err e => Err e
        | Ok (a, db') => Ok (a, {| tx_db := db'; tx_count := S (tx_count st) |})
        end
    end.

Definition conversation_has_transcript (db : DB) (conversationID : Z) : bool :=
  existsb (fun kv => tr_conversation_id (snd kv) =? conversationID)
          (map_to_list (transcripts db)).

(** INSERT INTO transcripts(...): the conversation must exist (foreign
    key) and must have no transcript yet (conversation_id is UNIQUE). *)
Definition insert_transcript (row : TranscriptRow) (db : DB) : result (Z * DB) :=
  if negb (bool_decide (tr_conversation_id row ∈ conversations db)) then
    Err (str "FOREIGN KEY constraint failed")
  else if conversation_has_transcript db (tr_conversation_id row) then
    Err (str "UNIQUE constraint failed: transcripts.conversation_id")
  else
    let id := Z.max (transcripts_seq db) 0 + 1 in
    Ok (id, {| conversations := conversations db;
               transcripts := <[id := row]> (transcripts db);
               transcripts_seq := id;
               transcript_segments := transcript_segments db;
               processing_jobs := processing_jobs db;
               processing_jobs_seq := processing_jobs_seq db |}).

(** INSERT INTO transcript_segments(transcript_id, start_time, end_time,
    text), for times that are numbers. A NaN is bound as NULL, which the
    NOT NULL columns refuse: such a refusal is a failure of the
    statement, which the transaction takes from [fault]. Decoded JSON
    numbers are finite, so a job hands in no NaN; the theorems that
    commit arbitrary segment lists exclude it by hypothesis. *)
Definition insert_segment (transcriptID : Z) (seg : TranscriptSegmentInput)
    (db : DB) : result (unit * DB) :=
  let row := {| sg_transcript_id := transcriptID;
                sg_start_time := StartTime seg;
                sg_end_time := EndTime seg;
                sg_text := Text seg |} in
  Ok (tt, {| conversations := conversations db;
             transcripts := transcripts db;
             transcripts_seq := transcripts_seq db;
             transcript_segments := transcript_segments db ++ [row];
             processing_jobs := processing_jobs db;
             processing_jobs_seq := processing_jobs_seq db |}).

(** [for _, seg := range segments]: blank texts skipped, the others
    inserted, the first failure returned. *)
Fixpoint insert_segments (transcriptID : Z) (segments : list TranscriptSegmentInput)
  : Tx unit :=
  match segments with
  | [] => tx_ret tt
  | seg :: rest =>
      if is_empty (stringsTrim (Text seg)) then insert_segments transcriptID rest
      else tx_bind (tx_stmt (insert_segment transcriptID seg))
                   (fun _ => insert_segments transcriptID rest)
  end.

(** The statements between [BeginTx] and [Commit]. *)
Definition transcript_tx (row : TranscriptRow)
    (segments : list TranscriptSegmentInput) : Tx Z :=
  tx_bind (tx_stmt (insert_transcript row)) (fun transcriptID =>
  (* res.LastInsertId() *)
  tx_bind (tx_stmt (fun db => Ok (tt, db))) (fun _ =>
  if (0 <? length segments)%nat then
    (* tx.PrepareContext *)
    tx_bind (tx_stmt (fun db => Ok (tt, db))) (fun _ =>
    tx_bind (insert_segments transcriptID segments) (fun _ =>
    tx_ret transcriptID))
  else tx_ret transcriptID)).

(** [CreateTranscriptWithSegments]: BeginTx, the statements, Commit; the
    deferred Rollback drops the working copy on every error return. *)
Definition CreateTranscriptWithSegments (db : DB) (conversationID : Z)
    (fileName transcriptText : gostring) (duration : option float)
    (language model : option gostring) (audioURL : gostring)
    (segments : list TranscriptSegmentInput) : DB * result Z :=
  let row := {| tr_conversation_id := conversationID;
                tr_file_name := fileName;
                tr_transcript_text := transcriptText;
                tr_duration := duration;
                tr_language := language;
                tr_transcription_model := model;
                tr_audio_file_url := audioURL |} in
  (* s.DB.BeginTx *)
  match fault 0%nat with
  | Some e => (db, Err e)
  | None =>
      match transcript_tx row segments {| tx_db := db; tx_count := 1 |} with
      | Err e => (db, Err e)
      | Ok (transcriptID, st) =>
          (* tx.Commit() *)
          match fault (tx_count st) with
          | Some e => (db, Err e)
          | None => (tx_db st, Ok transcriptID)
          end
      end
  end.

End Transaction.

End store.

(* ===================================================================== *)
(** ** internal/jobs                                                      *)
(* ===================================================================== *)

Module jobs.

Import pipeline store.

Record Queue : Type := {
  p : option Runner      (* nil for a queue made by [New] *)
}.

Record Job : Type := {
  JobID : Z;
  ConversationID : Z;
  ProfileID : Z;
  AudioPath : gostring;
  FileName : gostring;
  GenerateSummary : bool;
  GenerateActionItems : bool
}.

(** One call of [UpdateJobProgress], as the worker issues it. *)
Record Write : Type := {
  w_jobID : Z;
  w_status : gostring;
  w_progress : Z;
  w_totalChunks : option Z;
  w_currentChunk : option Z;
  w_result : option gostring;
  w_transcriptID : option Z
}.

(** The store as the worker sees it, and the calls of [UpdateJobProgress]
    issued so far, oldest first (a ghost trace: the source keeps none). *)
Record State : Type := {
  st_db : DB;
  st_writes : list Write
}.

(** [_ = q.store.UpdateJobProgress(ctx, ...)] when the statement is
    executed; the error it may still return (a foreign key) is dropped.
    A call whose statement is not executed -- [ExecContext] fails on an
    expired or cancelled context or a locked database -- is [update_if]
    below. *)
Definition update (st : State) (jobID : Z) (status : gostring) (progress : Z)
    (totalChunks currentChunk : option Z) (result : option gostring)
    (transcriptID : option Z) : State :=
  {| st_db := fst (UpdateJobProgress (st_db st) jobID status progress
                                     totalChunks currentChunk result transcriptID);
     st_writes := st_writes st ++
                  [{| w_jobID := jobID; w_status := status; w_progress := progress;
                      w_totalChunks := totalChunks; w_currentChunk := currentChunk;
                      w_result := result; w_transcriptID := transcriptID |}] |}.

Definition max (a b : Z) : Z := if b <? a then a else b.

(** [int(15 + (65*current)/max(1, total))]. *)
Definition chunk_progress (current total : Z) : Z :=
  wrap64 (15 + Z.quot (wrap64 (65 * current)) (max 1 total)).

Section Process.

Variable q : Queue.
Variable env : Env.                        (* sub-processes and files *)
Variable fault : nat -> option gostring.   (* statement failures of the final transaction *)

(** The chunk loop of [process], from position [i]: either the job has
    failed and the state is final ([inl]), or the loop ends with
    [combined], [textParts] and [lang] ([inr]). *)
Fixpoint process_chunks (r : Runner) (j : Job) (total : Z) (i : Z)
    (chunks : list Chunk) (st : State)
    (combined : list Segment) (textParts : list gostring) (lang : option gostring)
  : State + (State * list Segment * list gostring * option gostring) :=
  match chunks with
  | [] => inr (st, combined, textParts, lang)
  | ch :: rest =>
      let current := i + 1 in
      let progress := chunk_progress current total in
      let st := update st (JobID j) (str "processing") progress
                       None (Some current) None None in
      match TranscribeChunk r env (chunk_Path ch) with
      | Err msg =>
          inl (update st (JobID j) (str "failed") 100 None (Some current) (Some msg) None)
      | Ok (segs, txt, chunkLang) =>
          let lang := first_language lang chunkLang in
          let combined := combined ++ List.map (shift_segment ch) segs in
          let textParts :=
            if negb (is_empty (TrimSpace txt)) then textParts ++ [TrimSpace txt]
            else textParts in
          process_chunks r j total (i + 1) rest st combined textParts lang
      end
  end.

(** The segments handed to the store: blank texts left out. *)
Fixpoint input_segments (combined : list Segment) : list TranscriptSegmentInput :=
  match combined with
  | [] => []
  | s :: rest =>
      if is_empty (TrimSpace (seg_Text s)) then input_segments rest
      else {| StartTime := seg_Start s; EndTime := seg_End s; Text := seg_Text s |}
           :: input_segments rest
  end.

(** [(q *Queue) process]. *)
Definition process (j : Job) (st : State) : State :=
  (* Move to processing. *)
  let st := update st (JobID j) (str "processing") 10 None None None None in
  match p q with
  | None =>
      update st (JobID j) (str "failed") 100 None None
             (Some (str "pipeline not configured")) None
  | Some r =>
      match mkdir_temp env with
      | Err msg => update st (JobID j) (str "failed") 100 None None (Some msg) None
      | Ok workDir =>
          match ChunkAudio r env with
          | Err msg => update st (JobID j) (str "failed") 100 None None (Some msg) None
          | Ok chunks =>
              let total := Z.of_nat (length chunks) in
              let st := update st (JobID j) (str "processing") 15
                               (Some total) (Some 0) None None in
              match process_chunks r j total 0 chunks st [] [] None with
              | inl st => st
              | inr (st, combined, textParts, lang) =>
                  let st := update st (JobID j) (str "processing") 85
                                   None (Some total) None None in
                  let audioURL := str "/api/audio/" ++ Itoa (ConversationID j) in
                  let model := str "whisper.cpp" in
                  let transcriptText := Join textParts (str " ") in
                  let inputSegments := input_segments combined in
                  match CreateTranscriptWithSegments fault (st_db st)
                          (ConversationID j) (FileName j) transcriptText None lang
                          (Some model) audioURL inputSegments with
                  | (db, Err msg) =>
                      update {| st_db := db; st_writes := st_writes st |}
                             (JobID j) (str "failed") 100 None None (Some msg) None
                  | (db, Ok transcriptID) =>
                      update {| st_db := db; st_writes := st_writes st |}
                             (JobID j) (str "completed") 100 None (Some total)
                             (Some (str "success")) (Some transcriptID)
                  end
              end
          end
      end
  end.

End Process.

(** [New]: a queue without a pipeline; [NewWithPipeline]: a queue with
    one. The goroutines they start each run [worker]. *)
Definition New : Queue := {| p := None |}.

Definition NewWithPipeline (r : Runner) : Queue := {| p := Some r |}.

(** [(q *Queue) worker]: [for j := range q.ch { q.process(workerID, j) }],
    on the jobs the worker receives, in the order it receives them. Each
    job meets its own environment. *)
Definition worker (q : Queue) (env : Job -> Env)
    (fault : Job -> nat -> option gostring) (received : list Job) (st : State)
  : State :=
  fold_left (fun st j => process q (env j) (fault j) j st) received st.

(** *** Progress writes that may not be executed *)

(** [_ = q.store.UpdateJobProgress(ctx, ...)] in full: [UpdateJobProgress]
    returns the error of [ExecContext], and the worker drops it. When the
    job's context has expired or was cancelled, or the database is
    locked, the statement is not executed and the store stays as it is.
    [executes n] tells whether the call issued after [n] calls of the
    trace is executed; the call is recorded in the trace either way. *)
Definition update_if (executes : nat -> bool) (st : State) (jobID : Z)
    (status : gostring) (progress : Z) (totalChunks currentChunk : option Z)
    (result : option gostring) (transcriptID : option Z) : State :=
  if executes (length (st_writes st)) then
    update st jobID status progress totalChunks currentChunk result transcriptID
  else
    {| st_db := st_db st;
       st_writes := st_writes (update st jobID status progress totalChunks
                                      currentChunk result transcriptID) |}.

(** The chunk loop of [process] with such writes. *)
Fixpoint process_chunks_under (executes : nat -> bool) (env : Env) (r : Runner)
    (j : Job) (total : Z) (i : Z) (chunks : list Chunk) (st : State)
    (combined : list Segment) (textParts : list gostring) (lang : option gostring)
  : State + (State * list Segment * list gostring * option gostring) :=
  match chunks with
  | [] => inr (st, combined, textParts, lang)
  | ch :: rest =>
      let current := i + 1 in
      let progress := chunk_progress current total in
      let st := update_if executes st (JobID j) (str "processing") progress
                          None (Some current) None None in
      match TranscribeChunk r env (chunk_Path ch) with
      | Err msg =>
          inl (update_if executes st (JobID j) (str "failed") 100 None (Some current)
                         (Some msg) None)
      | Ok (segs, txt, chunkLang) =>
          let lang := first_language lang chunkLang in
          let combined := combined ++ List.map (shift_segment ch) segs in
          let textParts :=
            if negb (is_empty (TrimSpace txt)) then textParts ++ [TrimSpace txt]
            else textParts in
          process_chunks_under executes env r j total (i + 1) rest st
                               combined textParts lang
      end
  end.

(** [(q *Queue) process] with such writes: the same calls in the same
    order, each executed or not as [executes] says. [process] above is
    the run in which every one is executed. *)
Definition process_under (executes : nat -> bool) (q : Queue) (env : Env)
    (fault : nat -> option gostring) (j : Job) (st : State) : State :=
  let st := update_if executes st (JobID j) (str "processing") 10 None None None None in
  match p q with
  | None =>
      update_if executes st (JobID j) (str "failed") 100 None None
                (Some (str "pipeline not configured")) None
  | Some r =>
      match mkdir_temp env with
      | Err msg =>
          update_if executes st (JobID j) (str "failed") 100 None None (Some msg) None
      | Ok workDir =>
          match ChunkAudio r env with
          | Err msg =>
              update_if executes st (JobID j) (str "failed") 100 None None (Some msg) None
          | Ok chunks =>
              let total := Z.of_nat (length chunks) in
              let st := update_if executes st (JobID j) (str "processing") 15
                                  (Some total) (Some 0) None None in
              match process_chunks_under executes env r j total 0 chunks st [] [] None with
              | inl st => st
              | inr (st, combined, textParts, lang) =>
                  let st := update_if executes st (JobID j) (str "processing") 85
                                      None (Some total) None None in
                  let audioURL := str "/api/audio/" ++ Itoa (ConversationID j) in
                  let model := str "whisper.cpp" in
                  let transcriptText := Join textParts (str " ") in
                  let inputSegments := input_segments combined in
                  match CreateTranscriptWithSegments fault (st_db st)
                          (ConversationID j) (FileName j) transcriptText None lang
                          (Some model) audioURL inputSegments with
                  | (db, Err msg) =>
                      update_if executes {| st_db := db; st_writes := st_writes st |}
                                (JobID j) (str "failed") 100 None None (Some msg) None
                  | (db, Ok transcriptID) =>
                      update_if executes {| st_db := db; st_writes := st_writes st |}
                                (JobID j) (str "completed") 100 None (Some total)
                                (Some (str "success")) (Some transcriptID)
                  end
              end
          end
      end
  end.

(** [(q *Queue) worker] with such writes. *)
Definition worker_under (executes : nat -> bool) (q : Queue) (env : Job -> Env)
    (fault : Job -> nat -> option gostring) (received : list Job) (st : State)
  : State :=
  fold_left (fun st j => process_under executes q (env j) (fault j) j st) received st.

End jobs.

(* ===================================================================== *)
(** ** The specification's vocabulary                                     *)
(* ===================================================================== *)

Module Spec.

Import pipeline store jobs.

(** *** Timestamp strategies (4.2) *)

(** 1. Millisecond offset pair: seconds = ms / 1000. *)
Definition strategy_offsets_ms (s : whisperSeg) : option (float * float) :=
  match ws_Offsets s with
  | Some o =>
      match off_From o, off_To o with
      | Some from, Some to =>
          Some (PrimFloat.div (float_of_int from) 1000%float,
                PrimFloat.div (float_of_int to) 1000%float)
      | _, _ => None
      end
  | None => None
  end.

(** 2. [start]/[end] already in seconds: used as they are. *)
Definition strategy_start_end (s : whisperSeg) : option (float * float) :=
  match ws_Start s, ws_End s with
  | Some a, Some b => Some (a, b)
  | _, _ => None
  end.

(** 3. Frame indices in 10 ms units: seconds = value x 0.01, the 0.01
    being the binary64 nearest to it. *)
Definition strategy_frames (s : whisperSeg) : option (float * float) :=
  match ws_T0 s, ws_T1 s with
  | Some t0, Some t1 =>
      Some (PrimFloat.mul (float_of_int t0) 0x1.47ae147ae147bp-7%float,
            PrimFloat.mul (float_of_int t1) 0x1.47ae147ae147bp-7%float)
  | _, _ => None
  end.

(** 4. String timestamps "HH:MM:SS[.mmm]", under [timestamps] or, when
    that key is absent, under [timestanps]. *)
Definition strategy_timestamps (s : whisperSeg) : option (float * float) :=
  match (match ws_Timestamps s with
         | Some t => Some t
         | None => ws_TimeStanps s
         end) with
  | Some t =>
      match ts_From t, ts_To t with
      | _ :: _, _ :: _ =>
          match parseTimestamp (ts_From t), parseTimestamp (ts_To t) with
          | Some a, Some b => Some (a, b)
          | _, _ => None
          end
      | _, _ => None
      end
  | None => None
  end.

(** The first strategy of a chain that succeeds. *)
Fixpoint first_success {A} (chain : list (option A)) : option A :=
  match chain with
  | [] => None
  | Some a :: _ => Some a
  | None :: rest => first_success rest
  end.

Definition timestamp_chain (s : whisperSeg) : option (float * float) :=
  first_success [strategy_offsets_ms s; strategy_start_end s;
                 strategy_frames s; strategy_timestamps s].

(** A raw record carrying only the fields named. *)
Definition raw_offsets (text : gostring) (from to : Z) : whisperSeg :=
  {| ws_Text := text; ws_Start := None; ws_End := None; ws_T0 := None; ws_T1 := None;
     ws_Offsets := Some {| off_From := Some from; off_To := Some to |};
     ws_Timestamps := None; ws_TimeStanps := None |}.

Definition raw_frames (text : gostring) (t0 t1 : Z) : whisperSeg :=
  {| ws_Text := text; ws_Start := None; ws_End := None;
     ws_T0 := Some t0; ws_T1 := Some t1;
     ws_Offsets := None; ws_Timestamps := None; ws_TimeStanps := None |}.

Definition raw_seconds (text : gostring) (a b : float) : whisperSeg :=
  {| ws_Text := text; ws_Start := Some a; ws_End := Some b;
     ws_T0 := None; ws_T1 := None;
     ws_Offsets := None; ws_Timestamps := None; ws_TimeStanps := None |}.

Definition raw_stamps (text from to : gostring) : whisperSeg :=
  {| ws_Text := text; ws_Start := None; ws_End := None; ws_T0 := None; ws_T1 := None;
     ws_Offsets := None;
     ws_Timestamps := Some {| ts_From := from; ts_To := to |};
     ws_TimeStanps := None |}.

Definition raw_untimed (text : gostring) : whisperSeg :=
  {| ws_Text := text; ws_Start := None; ws_End := None; ws_T0 := None; ws_T1 := None;
     ws_Offsets := None; ws_Timestamps := None; ws_TimeStanps := None |}.

(** *** Surviving records (4.2) *)

(** The raw records of a chunk: those under [segments], or those under
    [transcription] when there are none. *)
Definition chunk_records (w : whisperJSON) : list whisperSeg :=
  match wj_Segments w with
  | [] => wj_Transcription w
  | _ :: _ => wj_Segments w
  end.

(** What a raw record contributes: a segment when a strategy yields its
    times and its trimmed text is not empty, nothing otherwise. *)
Definition contribution (s : whisperSeg) : option Segment :=
  match timestamp_chain s with
  | Some (a, b) =>
      match TrimSpace (ws_Text s) with
      | [] => None
      | txt => Some {| seg_Start := a; seg_End := b; seg_Text := txt |}
      end
  | None => None
  end.

Definition surviving (w : whisperJSON) : list Segment :=
  omap contribution (chunk_records w).

(** *** Transcript text (4.3) *)

Definition non_empty (l : list gostring) : list gostring :=
  List.filter (fun t => negb (is_empty t)) l.

(** The text of a chunk in the words of the specification: the engine's
    chunk-level text field when it is not empty, else the texts of the
    surviving segments joined by a space. *)
Definition stated_chunk_text (w : whisperJSON) : gostring :=
  match wj_Text w with
  | [] => Join (List.map seg_Text (surviving w)) (str " ")
  | _ :: _ => wj_Text w
  end.

Definition stated_transcript_text (ws : list whisperJSON) : gostring :=
  Join (non_empty (List.map stated_chunk_text ws)) (str " ").

(** The same with the field trimmed before it is tested and used. *)
Definition chunk_text (w : whisperJSON) : gostring :=
  match TrimSpace (wj_Text w) with
  | [] => Join (List.map seg_Text (surviving w)) (str " ")
  | _ :: _ => TrimSpace (wj_Text w)
  end.

Definition transcript_text (ws : list whisperJSON) : gostring :=
  Join (non_empty (List.map chunk_text ws)) (str " ").

(** The segments of all chunks, each moved by its chunk's offset. *)
Fixpoint merged_segments (chunks : list Chunk) (ws : list whisperJSON) : list Segment :=
  match chunks, ws with
  | ch :: chunks', w :: ws' =>
      List.map (shift_segment ch) (surviving w) ++ merged_segments chunks' ws'
  | _, _ => []
  end.

(** The engine produced decodable output [w] for the chunk [ch]. *)
Definition decodes (env : Env) (ch : Chunk) (w : whisperJSON) : Prop :=
  run_whisper env (chunk_Path ch) = OutputRead (Ok w).

(** *** Duration (3, 4.3) *)

(** [d] is the maximum [End] of [segs]: the [End] of one of them, and no
    [End] is greater. *)
Definition is_max_end (segs : list Segment) (d : float) : Prop :=
  (exists s, In s segs /\ seg_End s = d) /\
  (forall s, In s segs -> PrimFloat.ltb d (seg_End s) = false).

Definition stated_duration (segs : list Segment) (duration : option float) : Prop :=
  match segs with
  | [] => duration = None
  | _ :: _ => exists d, duration = Some d /\ is_max_end segs d
  end.

(** The language a chunk reports: the top-level field, else the one
    under [result], trimmed; none when blank. *)
Definition chunk_language (w : whisperJSON) : option gostring :=
  let lang :=
    match TrimSpace (wj_Language w), wj_Result w with
    | [], Some r => TrimSpace (wr_Language r)
    | l, _ => l
    end in
  match lang with
  | [] => None
  | _ :: _ => Some lang
  end.

(** The first non-blank language reported, chunk by chunk. *)
Definition merged_language (lang : option gostring) (ws : list whisperJSON)
  : option gostring :=
  fold_left first_language (List.map chunk_language ws) lang.

(** *** Persistence (4.6) *)

(** The rows [CreateTranscriptWithSegments] writes for its segments: one
    per segment whose text is not blank. *)
Definition segment_rows (transcriptID : Z) (segments : list TranscriptSegmentInput)
  : list SegmentRow :=
  List.map (fun seg => {| sg_transcript_id := transcriptID;
                          sg_start_time := StartTime seg;
                          sg_end_time := EndTime seg;
                          sg_text := Text seg |})
           (List.filter (fun seg => negb (is_empty (stringsTrim (Text seg)))) segments).

Definition add_segment_rows (db : DB) (rows : list SegmentRow) : DB :=
  {| conversations := conversations db;
     transcripts := transcripts db;
     transcripts_seq := transcripts_seq db;
     transcript_segments := transcript_segments db ++ rows;
     processing_jobs := processing_jobs db;
     processing_jobs_seq := processing_jobs_seq db |}.

(** The store with the transcript [row] under [id] and all the rows of
    its segments. *)
Definition committed (db : DB) (id : Z) (row : TranscriptRow)
    (segments : list TranscriptSegmentInput) : DB :=
  {| conversations := conversations db;
     transcripts := <[id := row]> (transcripts db);
     transcripts_seq := id;
     transcript_segments := transcript_segments db ++ segment_rows id segments;
     processing_jobs := processing_jobs db;
     processing_jobs_seq := processing_jobs_seq db |}.

(** *** The job tracker (4.4) *)

Definition apply_write (st : State) (w : Write) : State :=
  update st (w_jobID w) (w_status w) (w_progress w) (w_totalChunks w)
         (w_currentChunk w) (w_result w) (w_transcriptID w).

(** The store and the trace after a list of writes. *)
Definition replay (st : State) (ws : list Write) : State :=
  fold_left apply_write ws st.

(** The row of a job after a list of writes that all run. *)
Definition row_after (row : JobRow) (ws : list Write) : JobRow :=
  fold_left (fun row w =>
               updated_row row (w_status w) (w_progress w) (w_totalChunks w)
                           (w_currentChunk w) (w_result w) (w_transcriptID w))
            ws row.

(** Worker claims job: processing, 10. *)
Definition claim_write (j : Job) : Write :=
  {| w_jobID := JobID j; w_status := str "processing"; w_progress := 10;
     w_totalChunks := None; w_currentChunk := None; w_result := None;
     w_transcriptID := None |}.

(** Segmentation complete, N chunks known: processing, 15, total_chunks = N. *)
Definition segmented_write (j : Job) (N : Z) : Write :=
  {| w_jobID := JobID j; w_status := str "processing"; w_progress := 15;
     w_totalChunks := Some N; w_currentChunk := Some 0; w_result := None;
     w_transcriptID := None |}.

(** Chunk i of N, with the progress the worker computes. *)
Definition chunk_write (j : Job) (N i : Z) : Write :=
  {| w_jobID := JobID j; w_status := str "processing";
     w_progress := chunk_progress i N;
     w_totalChunks := None; w_currentChunk := Some i; w_result := None;
     w_transcriptID := None |}.

(** Chunk i of N as the table of 4.4 has it: processing,
    15 + floor(65 i / N), current_chunk = i. *)
Definition stated_chunk_write (j : Job) (N i : Z) : Write :=
  {| w_jobID := JobID j; w_status := str "processing";
     w_progress := 15 + 65 * i / N;
     w_totalChunks := None; w_currentChunk := Some i; w_result := None;
     w_transcriptID := None |}.

(** Merge + persist begins: processing, 85. *)
Definition persist_write (j : Job) (N : Z) : Write :=
  {| w_jobID := JobID j; w_status := str "processing"; w_progress := 85;
     w_totalChunks := None; w_currentChunk := Some N; w_result := None;
     w_transcriptID := None |}.

(** Persist succeeds: completed, 100, the transcript reference set. *)
Definition completed_write (j : Job) (N transcriptID : Z) : Write :=
  {| w_jobID := JobID j; w_status := str "completed"; w_progress := 100;
     w_totalChunks := None; w_currentChunk := Some N;
     w_result := Some (str "success"); w_transcriptID := Some transcriptID |}.

(** What the worker writes when a stage fails. *)
Definition failed_write (j : Job) (current : option Z) (msg : gostring) : Write :=
  {| w_jobID := JobID j; w_status := str "failed"; w_progress := 100;
     w_totalChunks := None; w_currentChunk := current; w_result := Some msg;
     w_transcriptID := None |}.

(** The writes for the chunks [i+1 .. i+n] of [N]. *)
Definition chunk_writes (j : Job) (N i : Z) (n : nat) : list Write :=
  List.map (fun k => chunk_write j N (i + 1 + Z.of_nat k)) (List.seq 0 n).

(** The writes of a job with [N] chunks up to the start of the persist. *)
Definition writes_before_persist (j : Job) (N : nat) : list Write :=
  [claim_write j; segmented_write j (Z.of_nat N)]
  ++ chunk_writes j (Z.of_nat N) 0 N ++ [persist_write j (Z.of_nat N)].

(** The checkpoints of a job with [N] chunks that completes, as the table
    of 4.4 lists them. *)
Definition stated_checkpoints (j : Job) (N : nat) (transcriptID : Z) : list Write :=
  [claim_write j; segmented_write j (Z.of_nat N)]
  ++ List.map (fun k => stated_chunk_write j (Z.of_nat N) (1 + Z.of_nat k)) (List.seq 0 N)
  ++ [persist_write j (Z.of_nat N); completed_write j (Z.of_nat N) transcriptID].

(** The call of [CreateTranscriptWithSegments] a job makes once its
    chunks, with outputs [ws], are merged, on the store [db]. *)
Definition persist (fault : nat -> option gostring) (j : Job) (db : DB)
    (chunks : list Chunk) (ws : list whisperJSON) : DB * result Z :=
  CreateTranscriptWithSegments fault db (ConversationID j) (FileName j)
    (transcript_text ws) None (merged_language None ws) (Some (str "whisper.cpp"))
    (str "/api/audio/" ++ Itoa (ConversationID j))
    (input_segments (merged_segments chunks ws)).

(** The transcript row a job commits. *)
Definition job_transcript_row (j : Job) (ws : list whisperJSON) : TranscriptRow :=
  {| tr_conversation_id := ConversationID j;
     tr_file_name := FileName j;
     tr_transcript_text := transcript_text ws;
     tr_duration := None;
     tr_language := merged_language None ws;
     tr_transcription_model := Some (str "whisper.cpp");
     tr_audio_file_url := str "/api/audio/" ++ Itoa (ConversationID j) |}.

(** A stage of the job fails with the error [msg]: the temporary
    directory, the chunking, the transcription of a chunk (the chunks
    before it transcribed), or the persistence (all chunks transcribed). *)
Inductive stage_failure (r : Runner) (env : Env) (fault : nat -> option gostring)
    (j : Job) (st : State) : gostring -> Prop :=
| temp_dir_fails msg :
    mkdir_temp env = Err msg ->
    stage_failure r env fault j st msg
| chunking_fails workDir msg :
    mkdir_temp env = Ok workDir ->
    ChunkAudio r env = Err msg ->
    stage_failure r env fault j st msg
| transcription_fails workDir chunks pre ch post ws msg :
    mkdir_temp env = Ok workDir ->
    ChunkAudio r env = Ok chunks ->
    chunks = pre ++ ch :: post ->
    Forall2 (decodes env) pre ws ->
    TranscribeChunk r env (chunk_Path ch) = Err msg ->
    stage_failure r env fault j st msg
| persistence_fails workDir chunks ws db msg :
    mkdir_temp env = Ok workDir ->
    ChunkAudio r env = Ok chunks ->
    Forall2 (decodes env) chunks ws ->
    persist fault j (st_db (replay st (writes_before_persist j (length chunks))))
            chunks ws = (db, Err msg) ->
    stage_failure r env fault j st msg.

(** Every stage of the job succeeds: the chunks, their outputs, and the
    store and transcript id the persist returns. *)
Definition job_succeeds (r : Runner) (env : Env) (fault : nat -> option gostring)
    (j : Job) (st : State) (chunks : list Chunk) (ws : list whisperJSON)
    (db : DB) (transcriptID : Z) : Prop :=
  (exists workDir, mkdir_temp env = Ok workDir) /\
  ChunkAudio r env = Ok chunks /\
  Forall2 (decodes env) chunks ws /\
  persist fault j (st_db (replay st (writes_before_persist j (length chunks))))
          chunks ws = (db, Ok transcriptID).

(** The job's row as the status endpoint shows it. *)
Definition job_row (st : State) (j : Job) : option JobRow :=
  processing_jobs (st_db st) !! JobID j.

(** The chunk counts for which [65 * current] stays an [int]. *)
Definition chunk_count_fits (n : nat) : Prop := 65 * Z.of_nat n <= max_int.

(** The progress the upload handler gives a new job
    ([st.CreateJob(ctx, conv.ID, "transcription", 5)]). *)
Definition initial_progress : Z := 5.

(** The row of a failed job as the table of 4.4 states it: failed, the
    error set, the progress that of the row before the failure. *)
Definition stated_failure_outcome (before after : JobRow) : Prop :=
  job_status after = str "failed" /\
  is_Some (job_result after) /\
  job_progress after = job_progress before.

(** The row of [transcript_segments] for a merged segment. *)
Definition segment_row (transcriptID : Z) (s : Segment) : SegmentRow :=
  {| sg_transcript_id := transcriptID; sg_start_time := seg_Start s;
     sg_end_time := seg_End s; sg_text := seg_Text s |}.

(** The chunk-level text field of the engine output is blank. *)
Definition no_chunk_text (w : whisperJSON) : Prop := TrimSpace (wj_Text w) = [].

(** The invariant of section 3 on a persisted transcript and its segment
    rows, as stated: with segments, the duration is the maximum end;
    without, the text is empty and the duration null. *)
Definition stated_transcript_invariant (row : TranscriptRow) (rows : list SegmentRow)
  : Prop :=
  match rows with
  | [] => tr_transcript_text row = [] /\ tr_duration row = None
  | _ :: _ =>
      exists d, tr_duration row = Some d /\
                (exists s, In s rows /\ sg_end_time s = d) /\
                (forall s, In s rows -> PrimFloat.ltb d (sg_end_time s) = false)
  end.

(** Once set, [total_chunks], [result] and [transcript_id] stay set from
    row [before] to row [after]. *)
Definition stays_set (before after : JobRow) : Prop :=
  (is_Some (job_total_chunks before) -> is_Some (job_total_chunks after)) /\
  (is_Some (job_current_chunk before) -> is_Some (job_current_chunk after)) /\
  (is_Some (job_result before) -> is_Some (job_result after)) /\
  (is_Some (job_transcript_id before) -> is_Some (job_transcript_id after)).

(** *** Segmentation (4.1) *)

Definition sample_rate : Z := 16000.

(** ceil(a / b) for a positive [b]. *)
Definition ceil_div (a b : Z) : Z := - ((- a) / b).

(** The name of the [k]-th chunk file ([chunk-%03d.wav]), the directory
    left out. *)
Definition chunk_file (k : nat) : gostring :=
  str "chunk-" ++ Sprintf_03d (Z.of_nat k) ++ str ".wav".

(** Modelled from the spec: the external audio tool of sections 4.1 and 6
    (ffmpeg's segment muxer, which [chunkAudio] runs and which is not
    code of this repository). For an input of [L] samples at the 16 kHz
    the pipeline asks for and a chunk duration of [D] seconds it writes
    ceil(L / (16000 D)) files, chunk-000.wav onwards, each with its
    number of samples: [D] seconds, but for the last, which has the rest. *)
Definition chunk_count (L D : Z) : nat := Z.to_nat (ceil_div L (D * sample_rate)).

(** Modelled from the spec: the samples the external tool puts in its
    [k]-th file. *)
Definition chunk_samples (L D : Z) (k : nat) : Z :=
  Z.min (D * sample_rate) (L - Z.of_nat k * (D * sample_rate)).

(** Modelled from the spec: the files the external tool writes, with
    their samples. *)
Definition segment_tool (L D : Z) : list (gostring * Z) :=
  List.map (fun k => (chunk_file k, chunk_samples L D k)) (List.seq 0 (chunk_count L D)).

(** The chunking of [env] ran the tool on an input of [L] samples with
    chunk duration [D]: the command succeeded and the glob finds the
    tool's files, in some order. *)
Definition segmented_by_tool (env : Env) (L D : Z) : Prop :=
  run_ffmpeg env = None /\
  exists files, glob_chunks env = Ok files /\
                Permutation files (List.map fst (segment_tool L D)).

(** *** Trimmed texts *)

Section Trimming.

Variable f : rune -> bool.

(** The first rune, if any, is kept by [f]-trimming. *)
Definition starts_clean (s : gostring) : bool :=
  match s with
  | [] => true
  | r :: _ => negb (f r)
  end.

(** Trimming at both ends, as [TrimSpace] and [stringsTrim] do. *)
Definition trim (s : gostring) : gostring := TrimRightFunc f (TrimLeftFunc f s).

Definition trimmed (s : gostring) : bool :=
  starts_clean s && starts_clean (rev s).

(** A non-empty text that trimming leaves alone. *)
Definition clean_part (s : gostring) : bool := negb (is_empty s) && trimmed s.

End Trimming.

(** A write of job [j] that passes no transcript reference. *)
Definition plain_write (j : Job) (w : Write) : Prop :=
  w_jobID w = JobID j /\ w_transcriptID w = None.

End Spec.

(* ===================================================================== *)
(** ** Concrete runs                                                      *)
(* ===================================================================== *)

Module Scenario.

Import pipeline store jobs Spec.

Definition runner : Runner :=
  {| FFmpegPath := str "ffmpeg"; WhisperPath := str "whisper-cli";
     WhisperModelPath := str "ggml-base.bin"; ChunkSeconds := 15 |}.

Definition queue : Queue := {| p := Some runner |}.

Definition job : Job :=
  {| JobID := 1; ConversationID := 7; ProfileID := 1;
     AudioPath := str "data/1/7/audio.mp3"; FileName := str "talk.mp3";
     GenerateSummary := false; GenerateActionItems := false |}.

(** A store with conversation 7, and the state once the upload handler
    has created the job. *)
Definition fresh_db : DB :=
  {| conversations := {[ 7 ]}; transcripts := ∅; transcripts_seq := 0;
     transcript_segments := []; processing_jobs := ∅; processing_jobs_seq := 0 |}.

Definition uploaded : State :=
  {| st_db := fst (CreateJob fresh_db 7 (str "transcription") initial_progress);
     st_writes := [] |}.

Definition pending_row : JobRow :=
  {| job_conversation_id := Some 7; job_transcript_id := None;
     job_type := str "transcription"; job_status := str "pending";
     job_progress := 5; job_total_chunks := None; job_current_chunk := None;
     job_result := None |}.

Definition no_fault : nat -> option gostring := fun _ => None.

(** The statement at position [n] of the transaction fails (0 is BeginTx,
    1 the transcript insert, 2 LastInsertId, 3 the Prepare, then the
    segment inserts and the Commit). *)
Definition fault_at (n : nat) : nat -> option gostring :=
  fun k => if (k =? n)%nat then Some (str "database is locked") else None.

Definition output (text : gostring) (records : list whisperSeg) : whisperJSON :=
  {| wj_Text := text; wj_Language := str "en"; wj_Result := None;
     wj_Segments := []; wj_Transcription := records |}.

(** whisper.cpp output for a chunk: two spoken records, a blank one and
    one without timestamps. *)
Definition spoken : whisperJSON :=
  output [] [raw_offsets (str " Hello there.") 0 1500;
             raw_offsets (str "  ") 1500 1800;
             raw_untimed (str "lost");
             raw_frames (str " General remarks.") 200 450].

(** Output with a chunk-level text and no records. *)
Definition text_only : whisperJSON := output (str "hello") [].

(** Output whose chunk-level text starts with a space. *)
Definition padded_text : whisperJSON := output (str " hi") [].

(** Output with nothing usable. *)
Definition silent : whisperJSON := output [] [raw_offsets (str " ") 0 900].

Definition chunk_files (n : nat) : list gostring :=
  List.map chunk_file (List.seq 0 n).

(** An environment in which ffmpeg leaves [n] chunk files and the engine
    answers by [engine]. *)
Definition env_with (n : nat) (engine : gostring -> EngineOutcome) : Env :=
  {| mkdir_temp := Ok (str "/tmp/listen-job-1");
     run_ffmpeg := None;
     glob_chunks := Ok (chunk_files n);
     run_whisper := engine |}.

Definition all_spoken (n : nat) : Env := env_with n (fun _ => OutputRead (Ok spoken)).

(** The engine exits non-zero on the second chunk. *)
Definition second_fails : Env :=
  env_with 3 (fun path =>
                if string_eqb path (str "chunk-001.wav")
                then EngineFailed (str "exit status 1")
                else OutputRead (Ok spoken)).

Definition no_temp_dir : Env :=
  {| mkdir_temp := Err (str "mkdir /tmp/listen-job-1: no space left on device");
     run_ffmpeg := None; glob_chunks := Ok []; run_whisper := fun _ => OutputRead (Ok spoken) |}.

Definition chunk_at (k : nat) : Chunk :=
  {| chunk_Path := chunk_file k;
     chunk_Offset := float_of_int (15 * Z.of_nat k);
     chunk_Index := Z.of_nat k + 1 |}.

(** The store the persist of the uploaded job returns for these chunks
    and outputs, when no statement fails. *)
Definition store_after (chunks : list Chunk) (ws : list whisperJSON) : DB :=
  fst (persist no_fault job
         (st_db (replay uploaded (writes_before_persist job (length chunks))))
         chunks ws).

End Scenario.

(* ===================================================================== *)
(** ** internal/config and the runner the router builds                   *)
(* ===================================================================== *)

Module config.

Record Config : Type := {
  cfg_Addr : gostring;
  cfg_SQLitePath : gostring;
  cfg_UploadDir : gostring;
  cfg_StaticDir : gostring;
  cfg_Template : gostring;
  cfg_MigrationsDir : gostring;
  cfg_FFmpegPath : gostring;
  cfg_FFprobePath : gostring;
  cfg_WhisperPath : gostring;
  cfg_WhisperModelPath : gostring;
  cfg_AudioChunkDurationS : Z
}.

(** [getenvDefault(key, def)], on the value [os.Getenv(key)] gives (the
    empty string for an unset variable). *)
Definition getenvDefault (value def : gostring) : gostring :=
  let v := TrimSpace value in
  if negb (is_empty v) then v else def.

(** [getenvIntDefault(key, def)], on the value of the variable. *)
Definition getenvIntDefault (value : gostring) (def : Z) : Z :=
  let v := TrimSpace value in
  if is_empty v then def
  else
    let '(n, ok) := Atoi v in
    if negb ok || (n <=? 0) then def else n.

(** [normalizeSQLitePath(v)]. *)
Definition normalizeSQLitePath (v : gostring) : gostring :=
  let v := TrimSpace v in
  let v := TrimPrefix v (str "sqlite:///") in
  let v := TrimPrefix v (str "sqlite://") in
  if is_empty v then str "./listen.db" else v.

(** [FromEnv()], on the process environment [getenv]. *)
Definition FromEnv (getenv : gostring -> gostring) : Config :=
  let addr := getenvDefault (getenv (str "LISTEN_ADDR")) (str ":8000") in
  let sqlitePath := getenvDefault (getenv (str "DATABASE_URL"))
                                  (str "sqlite:///./listen.db") in
  let sqlitePath := normalizeSQLitePath sqlitePath in
  let uploadDir := getenvDefault (getenv (str "UPLOAD_DIR")) (str "./uploads") in
  let staticDir := getenvDefault (getenv (str "STATIC_DIR")) (str "./static") in
  let templatePath := getenvDefault (getenv (str "INDEX_TEMPLATE"))
                                    (str "./templates/index_svelte.html") in
  let migrationsDir := getenvDefault (getenv (str "MIGRATIONS_DIR")) (str "./migrations") in
  let ffmpegPath := getenvDefault (getenv (str "FFMPEG_PATH")) (str "ffmpeg") in
  let ffprobePath := getenvDefault (getenv (str "FFPROBE_PATH")) (str "ffprobe") in
  let whisperPath := getenvDefault (getenv (str "WHISPER_PATH")) [] in
  let whisperModelPath := getenvDefault (getenv (str "WHISPER_MODEL_PATH")) [] in
  let audioChunkDurationS := getenvIntDefault (getenv (str "AUDIO_CHUNK_DURATION")) 15 in
  {| cfg_Addr := addr;
     cfg_SQLitePath := sqlitePath;
     cfg_UploadDir := uploadDir;
     cfg_StaticDir := staticDir;
     cfg_Template := templatePath;
     cfg_MigrationsDir := migrationsDir;
     cfg_FFmpegPath := ffmpegPath;
     cfg_FFprobePath := ffprobePath;
     cfg_WhisperPath := whisperPath;
     cfg_WhisperModelPath := whisperModelPath;
     cfg_AudioChunkDurationS := audioChunkDurationS |}.

End config.

Module router.

Import config.

(** [firstOnPath(candidates...)]: the first candidate that
    [exec.LookPath] resolves to a non-blank path; [lookPath] gives the
    outcome of [exec.LookPath]. *)
Fixpoint firstOnPath (lookPath : gostring -> result gostring)
    (candidates : list gostring) : gostring :=
  match candidates with
  | [] => []
  | c :: rest =>
      if is_empty (TrimSpace c) then firstOnPath lookPath rest
      else
        match lookPath c with
        | Ok path =>
            if negb (is_empty (TrimSpace path)) then path
            else firstOnPath lookPath rest
        | Err _ => firstOnPath lookPath rest
        end
  end.

(** The runner [New] of the router hands to the queue. *)
Definition new_runner (cfg : Config) (lookPath : gostring -> result gostring)
  : pipeline.Runner :=
  let whisperPath := cfg_WhisperPath cfg in
  let whisperPath :=
    if is_empty (TrimSpace whisperPath) then
      firstOnPath lookPath [str "whisper-cli"; str "whisper.cpp";
                            str "whisper-cpp"; str "whisper"]
    else whisperPath in
  let whisperPath := if is_empty whisperPath then str "whisper" else whisperPath in
  {| pipeline.FFmpegPath := cfg_FFmpegPath cfg;
     pipeline.WhisperPath := whisperPath;
     pipeline.WhisperModelPath := cfg_WhisperModelPath cfg;
     pipeline.ChunkSeconds := cfg_AudioChunkDurationS cfg |}.

End router.

(* ===================================================================== *)
(** ** Vocabulary for the further properties                              *)
(* ===================================================================== *)

Module More.

Import pipeline store jobs Spec.

(** *** Timestamps as the engine writes them *)

(** The rune of a decimal digit. *)
Definition digit_rune (d : Z) : rune := Z.to_N (48 + d).

(** A number below 100 in two digits ([%02d]). *)
Definition two_digits (n : Z) : gostring := [digit_rune (n / 10); digit_rune (n mod 10)].

Definition is_digit (d : Z) : Prop := 0 <= d <= 9.

(** The milliseconds a run of fraction digits stands for: its first
    three digits, missing ones read as 0. *)
Definition millis (ds : list Z) : Z :=
  100 * nth 0 ds 0 + 10 * nth 1 ds 0 + nth 2 ds 0.

(** "HH:MM:SS" and "HH:MM:SS.f..." *)
Definition stamp (h m s : Z) : gostring :=
  two_digits h ++ [58%N] ++ two_digits m ++ [58%N] ++ two_digits s.

Definition stamp_frac (h m s : Z) (ds : list Z) : gostring :=
  stamp h m s ++ [46%N] ++ List.map digit_rune ds.

(** The seconds a well-formed timestamp stands for, as [parseTimestamp]
    computes them. *)
Definition stamp_seconds (h m s ms : Z) : float :=
  PrimFloat.add (float_of_int (h * 3600 + m * 60 + s))
                (PrimFloat.div (float_of_int ms) 1000%float).

(** The number of occurrences of a rune. *)
Definition count_rune (c : rune) (s : gostring) : nat :=
  length (List.filter (rune_eqb c) s).

(** The text before the first [c]. *)
Fixpoint before_rune (c : rune) (s : gostring) : gostring :=
  match s with
  | [] => []
  | r :: s' => if rune_eqb r c then [] else r :: before_rune c s'
  end.

(** The runner passes the checks [Run] starts with. *)
Definition Run_accepts (r : Runner) : Prop :=
  0 < ChunkSeconds r /\ TrimSpace (FFmpegPath r) <> [] /\
  TrimSpace (WhisperPath r) <> [] /\ TrimSpace (WhisperModelPath r) <> [].

(** The text of a timestamp with the fraction digits [ds], if any. *)
Definition timestamp_text (h m s : Z) (ds : list Z) : gostring :=
  match ds with
  | [] => stamp h m s
  | _ :: _ => stamp_frac h m s ds
  end.

(** *** Runs whose progress writes are not all executed *)

(** Two states of the worker with the same calls issued and the same
    store but for the rows of [processing_jobs]. *)
Definition agree (a b : State) : Prop :=
  st_writes a = st_writes b /\
  st_db a = with_jobs (st_db b) (processing_jobs (st_db a)).

(** The job rows of [a] are those of [st] but for the row of [j], which
    has kept its conversation and its transcript reference. *)
Definition jobs_kept (j : Job) (st a : State) : Prop :=
  exists f,
    processing_jobs (st_db a) = alter f (JobID j) (processing_jobs (st_db st)) /\
    forall row, job_transcript_id (f row) = job_transcript_id row /\
                job_conversation_id (f row) = job_conversation_id row.

(** The transcript tables of [a] are those of [st]. *)
Definition tables_kept (st a : State) : Prop :=
  conversations (st_db a) = conversations (st_db st) /\
  transcripts (st_db a) = transcripts (st_db st) /\
  transcript_segments (st_db a) = transcript_segments (st_db st).

(** A transaction state with other job rows, and a step of the
    transaction that neither reads nor writes [processing_jobs]. *)
Definition tx_with_jobs (J : gmap Z JobRow) (st : TxState) : TxState :=
  {| tx_db := with_jobs (tx_db st) J; tx_count := tx_count st |}.

Definition jobs_blind {A} (m : Tx A) : Prop :=
  forall J st,
    m (tx_with_jobs J st)
    = match m st with
      | Ok (a, st') => Ok (a, tx_with_jobs J st')
      | Err e => Err e
      end.

(** The job's context expires once [n] calls of the trace have been
    issued: the calls from then on are not executed. *)
Definition context_expires_after (n : nat) : nat -> bool := fun k => (k <? n)%nat.


(** The last progress write of every job the worker receives is
    executed. *)
Definition final_writes_execute (executes : nat -> bool) (q : Queue)
    (env : Job -> Env) (fault : Job -> nat -> option gostring)
    (received : list Job) (st : State) : Prop :=
  forall done j rest,
    received = done ++ j :: rest ->
    executes (Nat.pred (length (st_writes (worker_under executes q env fault
                                                        (done ++ [j]) st)))) = true.

(** The stored transcript reference of a job row names a transcript. *)
Definition reference_stored (db : DB) (row : JobRow) : Prop :=
  forall t, job_transcript_id row = Some t -> is_Some (transcripts db !! t).

(** A segment whose times are numbers. *)
Definition times_are_numbers (seg : TranscriptSegmentInput) : bool :=
  negb (PrimFloat.is_nan (StartTime seg)) && negb (PrimFloat.is_nan (EndTime seg)).

(** The chunks as section 4.1 states them for the files of the tool: the
    chunk that holds the tool's [k]-th file, which starts [k] x D seconds
    into the input, has the offset [k] x D. *)
Definition stated_offsets (D : Z) (n : nat) (chunks : list Chunk) : Prop :=
  forall k ch, (k < n)%nat -> In ch chunks -> chunk_Path ch = chunk_file k ->
               chunk_Offset ch = float_of_int (Z.of_nat k * D).

End More.


(* ===================================================================== *)
(** ** The constraints of the schema                                      *)
(* ===================================================================== *)

Module Schema.

Import store.

(** What the schema of the initial migration guarantees of the tables of
    [DB]: AUTOINCREMENT keys are positive and at most the counter of
    their table; [transcripts.conversation_id] references a conversation
    and is UNIQUE; [transcript_segments.transcript_id] references a
    transcript; the nullable [conversation_id] and [transcript_id] of a
    job reference a conversation and a transcript. *)
Record consistent (db : DB) : Prop := {
  transcript_keys :
    forall k row, transcripts db !! k = Some row -> 0 < k <= transcripts_seq db;
  job_keys :
    forall k row, processing_jobs db !! k = Some row -> 0 < k <= processing_jobs_seq db;
  transcript_conversation :
    forall k row, transcripts db !! k = Some row ->
                  tr_conversation_id row ∈ conversations db;
  transcript_unique :
    forall k1 k2 r1 r2,
      transcripts db !! k1 = Some r1 -> transcripts db !! k2 = Some r2 ->
      tr_conversation_id r1 = tr_conversation_id r2 -> k1 = k2;
  segment_transcript :
    Forall (fun s => is_Some (transcripts db !! sg_transcript_id s))
           (transcript_segments db);
  job_conversation :
    forall k row c, processing_jobs db !! k = Some row ->
                    job_conversation_id row = Some c -> c ∈ conversations db;
  job_transcript :
    forall k row t, processing_jobs db !! k = Some row ->
                    job_transcript_id row = Some t -> is_Some (transcripts db !! t)
}.

(** What the UPDATE of [UpdateJobProgress] does to the row it finds, the
    transcripts being [trs]: the new values, unless the new transcript
    reference violates the foreign key. *)
Definition update_step (trs : gmap Z TranscriptRow) (status : gostring)
    (progress : Z) (totalChunks currentChunk : option Z)
    (result : option gostring) (transcriptID : option Z) (row : JobRow) : JobRow :=
  let row' := updated_row row status progress totalChunks currentChunk
                          result transcriptID in
  match job_transcript_id row' with
  | Some t =>
      if bool_decide (is_Some (trs !! t)) then row'
      else if bool_decide (job_transcript_id row' = job_transcript_id row) then row'
      else row
  | None => row'
  end.

End Schema.

(* ===================================================================== *)
(** ** Properties of the timestamp parsers                                *)
(* ===================================================================== *)

Import pipeline store jobs Spec.

Example parseTimestamp_millis :
  parseTimestamp (str "00:01:02.500") = Some 62.5%float.
Proof. reflexivity. Qed.

Example parseTimestamp_no_fraction :
  parseTimestamp (str " 01:00:04 ") = Some 3604%float.
Proof. reflexivity. Qed.

Example parseTimestamp_short_fraction :
  parseTimestamp (str "00:00:03.5") = Some 3.5%float.
Proof. reflexivity. Qed.

Example parseTimestamp_long_fraction :
  parseTimestamp (str "00:00:03.2509") = Some 3.25%float.
Proof. reflexivity. Qed.

Example parseTimestamp_two_fields :
  parseTimestamp (str "01:02") = None.
Proof. reflexivity. Qed.

Example segTimesSeconds_stamps :
  segTimesSeconds (raw_stamps (str "hi") (str "00:00:01.000") (str "00:00:02.500"))
  = (1%float, 2.5%float, true).
Proof. reflexivity. Qed.

Example segTimesSeconds_seconds :
  segTimesSeconds (raw_seconds (str "hi") 0.5 1.25) = (0.5%float, 1.25%float, true).
Proof. reflexivity. Qed.

(** A record with every shape of timestamp: the millisecond pair wins. *)
Example segTimesSeconds_priority :
  segTimesSeconds
    {| ws_Text := str "hi"; ws_Start := Some 7%float; ws_End := Some 8%float;
       ws_T0 := Some 900; ws_T1 := Some 950;
       ws_Offsets := Some {| off_From := Some 1000; off_To := Some 2500 |};
       ws_Timestamps := Some {| ts_From := str "00:00:04.000"; ts_To := str "00:00:05.000" |};
       ws_TimeStanps := None |}
  = (1%float, 2.5%float, true).
Proof. reflexivity. Qed.

(** A millisecond pair with one end missing does not count: the next
    strategy that succeeds is used. *)
Example segTimesSeconds_half_pair :
  segTimesSeconds
    {| ws_Text := str "hi"; ws_Start := None; ws_End := Some 8%float;
       ws_T0 := Some 150; ws_T1 := Some 300;
       ws_Offsets := Some {| off_From := Some 1000; off_To := None |};
       ws_Timestamps := None; ws_TimeStanps := None |}
  = (1.5%float, 3%float, true).
Proof. reflexivity. Qed.

Example segTimesSeconds_none :
  segTimesSeconds (raw_untimed (str "hi")) = (0%float, 0%float, false).
Proof. reflexivity. Qed.

(** [segTimesSeconds] is the chain of the four strategies. *)
Lemma segTimesSeconds_chain (s : whisperSeg) :
  segTimesSeconds s =
    match timestamp_chain s with
    | Some (a, b) => (a, b, true)
    | None => (0%float, 0%float, false)
    end.
Proof.
  destruct s as [txt st en t0 t1 off ts ts'].
  unfold segTimesSeconds, timestamp_chain, strategy_offsets_ms, strategy_start_end,
    strategy_frames, strategy_timestamps; cbn [first_success ws_Offsets ws_Start ws_End
    ws_T0 ws_T1 ws_Timestamps ws_TimeStanps ws_Text].
  destruct off as [[[from|] [to|]]|]; cbn [off_From off_To first_success]; try reflexivity;
    (destruct st as [a|], en as [b|]; cbn [first_success]; try reflexivity;
     destruct t0 as [a0|], t1 as [b0|]; cbn [first_success]; try reflexivity;
     (destruct ts as [[f t]|]; [| destruct ts' as [[f t]|]]);
     cbn [ts_From ts_To first_success]; try reflexivity;
     destruct f, t; cbn [is_empty negb andb first_success]; try reflexivity;
     match goal with
     | |- context [parseTimestamp ?x] => destruct (parseTimestamp x)
     end;
     try match goal with
     | |- context [parseTimestamp ?x] => destruct (parseTimestamp x)
     end; reflexivity).
Qed.

(* ===================================================================== *)
(** ** Trimming and joining                                               *)
(* ===================================================================== *)

Section Trim.

Variable f : rune -> bool.

Local Abbreviation starts_clean := (Spec.starts_clean f).
Local Abbreviation trim := (Spec.trim f).
Local Abbreviation trimmed := (Spec.trimmed f).
Local Abbreviation clean_part := (Spec.clean_part f).

Lemma TrimLeftFunc_clean (s : gostring) :
  starts_clean s = true -> TrimLeftFunc f s = s.
Proof.
  destruct s as [|r s]; [reflexivity |]. cbn.
  destruct (f r); [discriminate | reflexivity].
Qed.

Lemma TrimLeftFunc_starts_clean (s : gostring) :
  starts_clean (TrimLeftFunc f s) = true.
Proof.
  induction s as [|r s IH]; [reflexivity |]. cbn.
  destruct (f r) eqn:E; [exact IH |]. cbn. now rewrite E.
Qed.

Lemma TrimLeftFunc_empty (s : gostring) :
  is_empty (TrimLeftFunc f s) = forallb f s.
Proof.
  induction s as [|r s IH]; [reflexivity |]. cbn.
  destruct (f r); [exact IH | reflexivity].
Qed.

Lemma TrimLeftFunc_snoc (s : gostring) (r : rune) :
  f r = false -> TrimLeftFunc f (s ++ [r]) = TrimLeftFunc f s ++ [r].
Proof.
  intros Hr. induction s as [|x s IH]; cbn.
  - now rewrite Hr.
  - destruct (f x); [exact IH | reflexivity].
Qed.

Lemma TrimRightFunc_cons (r : rune) (s : gostring) :
  f r = false -> TrimRightFunc f (r :: s) = r :: TrimRightFunc f s.
Proof.
  intros Hr. unfold TrimRightFunc. cbn [rev].
  rewrite TrimLeftFunc_snoc by exact Hr.
  rewrite rev_app_distr. reflexivity.
Qed.

Lemma TrimRightFunc_clean (s : gostring) :
  starts_clean (rev s) = true -> TrimRightFunc f s = s.
Proof.
  intros H. unfold TrimRightFunc. rewrite TrimLeftFunc_clean by exact H.
  apply rev_involutive.
Qed.

Lemma TrimRightFunc_ends_clean (s : gostring) :
  starts_clean (rev (TrimRightFunc f s)) = true.
Proof.
  unfold TrimRightFunc. rewrite rev_involutive. apply TrimLeftFunc_starts_clean.
Qed.

Lemma trim_of_trimmed (s : gostring) : trimmed s = true -> trim s = s.
Proof.
  unfold trimmed, trim. intros H. apply andb_prop in H as [H1 H2].
  rewrite TrimLeftFunc_clean by exact H1. now apply TrimRightFunc_clean.
Qed.

Lemma trim_is_trimmed (s : gostring) : trimmed (trim s) = true.
Proof.
  unfold trimmed, trim. apply andb_true_intro. split.
  - pose proof (TrimLeftFunc_starts_clean s) as H.
    destruct (TrimLeftFunc f s) as [|r t]; [reflexivity |].
    cbn in H. apply negb_true_iff in H.
    rewrite TrimRightFunc_cons by exact H. cbn. now rewrite H.
  - apply TrimRightFunc_ends_clean.
Qed.

Lemma trim_idempotent (s : gostring) : trim (trim s) = trim s.
Proof. apply trim_of_trimmed, trim_is_trimmed. Qed.

Lemma trim_empty (s : gostring) : is_empty (trim s) = forallb f s.
Proof.
  unfold trim. rewrite <- TrimLeftFunc_empty.
  pose proof (TrimLeftFunc_starts_clean s) as H.
  destruct (TrimLeftFunc f s) as [|r t]; [reflexivity |].
  cbn in H. apply negb_true_iff in H.
  rewrite TrimRightFunc_cons by exact H. reflexivity.
Qed.

(** Joining non-empty trimmed parts gives a trimmed text. *)
Lemma starts_clean_app (s t : gostring) :
  is_empty s = false -> starts_clean (s ++ t) = starts_clean s.
Proof. destruct s; [discriminate | reflexivity]. Qed.

Lemma Join_clean_parts (parts : list gostring) (sep : gostring) :
  forallb clean_part parts = true ->
  trimmed (Join parts sep) = true /\
  (parts <> [] -> is_empty (Join parts sep) = false).
Proof.
  induction parts as [|e rest IH]; intros H.
  - split; [reflexivity | congruence].
  - cbn [forallb] in H. apply andb_prop in H as [He Hrest].
    unfold clean_part in He. apply andb_prop in He as [Hne Htr].
    apply negb_true_iff in Hne.
    destruct rest as [|e' rest'].
    + cbn [Join]. split; [exact Htr | intros _; exact Hne].
    + specialize (IH Hrest) as [IHt IHn].
      assert (Hj : is_empty (Join (e' :: rest') sep) = false) by (apply IHn; congruence).
      change (Join (e :: e' :: rest') sep) with (e ++ sep ++ Join (e' :: rest') sep).
      split.
      * unfold trimmed in *. apply andb_prop in Htr as [H1 H2].
        apply andb_prop in IHt as [I1 I2].
        apply andb_true_intro. split.
        -- now rewrite starts_clean_app.
        -- rewrite !rev_app_distr, <- app_assoc. rewrite starts_clean_app; [exact I2 |].
           destruct (Join (e' :: rest') sep) as [|x y]; [discriminate |].
           cbn [rev]. now destruct (rev y).
      * intros _. destruct e; [discriminate | reflexivity].
Qed.

End Trim.

Lemma TrimSpace_trim (s : gostring) : TrimSpace s = trim IsSpace s.
Proof. reflexivity. Qed.

Lemma TrimSpace_idempotent (s : gostring) : TrimSpace (TrimSpace s) = TrimSpace s.
Proof. apply trim_idempotent. Qed.

Lemma TrimSpace_empty (s : gostring) : is_empty (TrimSpace s) = forallb IsSpace s.
Proof. apply trim_empty. Qed.

Lemma stringsTrim_empty (s : gostring) :
  is_empty (stringsTrim s) = forallb is_trim_byte s.
Proof. apply trim_empty. Qed.

Lemma is_trim_byte_IsSpace (r : rune) : is_trim_byte r = true -> IsSpace r = true.
Proof.
  unfold is_trim_byte, rune_eqb. intros H.
  repeat (apply orb_prop in H as [H | H]); apply N.eqb_eq in H; subst; reflexivity.
Qed.

(** A text that [TrimSpace] leaves non-empty is not blank for
    [stringsTrim] either. *)
Lemma stringsTrim_not_blank (s : gostring) :
  is_empty (TrimSpace s) = false -> is_empty (stringsTrim s) = false.
Proof.
  rewrite TrimSpace_empty, stringsTrim_empty. intros H.
  apply not_true_iff_false. intros Hall. apply not_true_iff_false in H. apply H.
  rewrite forallb_forall in *. intros r Hr. now apply is_trim_byte_IsSpace, Hall.
Qed.

(* ===================================================================== *)
(** ** The adapter: records to segments                                   *)
(* ===================================================================== *)

Lemma parse_step_contribution (s : whisperSeg) (out : list Segment)
    (parts : list gostring) :
  parse_step (out, parts) s =
    match contribution s with
    | Some g => (out ++ [g], parts ++ [seg_Text g])
    | None => (out, parts)
    end.
Proof.
  unfold parse_step, contribution. rewrite segTimesSeconds_chain.
  destruct (timestamp_chain s) as [[a b]|]; cbn [negb]; [| reflexivity].
  destruct (TrimSpace (ws_Text s)); reflexivity.
Qed.

Lemma parse_loop (segs : list whisperSeg) (out : list Segment)
    (parts : list gostring) :
  fold_left parse_step segs (out, parts) =
    (out ++ omap contribution segs,
     parts ++ List.map seg_Text (omap contribution segs)).
Proof.
  revert out parts. induction segs as [|s segs IH]; intros out parts.
  - cbn. now rewrite !app_nil_r.
  - cbn [fold_left]. rewrite parse_step_contribution. cbn [omap list_omap].
    destruct (contribution s) as [g|].
    + rewrite IH. cbn [List.map]. now rewrite <- !app_assoc.
    + apply IH.
Qed.

Lemma parseWhisperJSON_decoded (w : whisperJSON) :
  parseWhisperJSON (Ok w) = Ok (surviving w, chunk_text w, chunk_language w).
Proof.
  unfold parseWhisperJSON, surviving, chunk_text, chunk_language, chunk_records.
  replace (if (length (wj_Segments w) =? 0)%nat then wj_Transcription w else wj_Segments w)
    with (match wj_Segments w with [] => wj_Transcription w | _ :: _ => wj_Segments w end)
    by (destruct (wj_Segments w); reflexivity).
  rewrite parse_loop. cbn [app].
  f_equal. f_equal; [f_equal |].
  - destruct (TrimSpace (wj_Text w)); reflexivity.
  - destruct (wj_Result w) as [r|]; destruct (TrimSpace (wj_Language w)) eqn:E; cbn;
      try reflexivity; destruct (TrimSpace (wr_Language r)); reflexivity.
Qed.

Lemma contribution_clean (s : whisperSeg) (g : Segment) :
  contribution s = Some g -> clean_part IsSpace (seg_Text g) = true.
Proof.
  unfold contribution. destruct (timestamp_chain s) as [[a b]|]; [| discriminate].
  destruct (TrimSpace (ws_Text s)) as [|x t] eqn:E; [discriminate |].
  intros [= <-]. cbn [seg_Text]. unfold clean_part. cbn [is_empty negb andb].
  rewrite <- E. apply (trim_is_trimmed IsSpace).
Qed.

Lemma surviving_clean (segs : list whisperSeg) :
  forallb (clean_part IsSpace) (List.map seg_Text (omap contribution segs)) = true.
Proof.
  induction segs as [|s segs IH]; [reflexivity |]. cbn [omap list_omap].
  destruct (contribution s) as [g|] eqn:E; [| exact IH].
  cbn [List.map forallb]. now rewrite (contribution_clean _ _ E).
Qed.

(** The text of a chunk is already trimmed. *)
Lemma chunk_text_trimmed (w : whisperJSON) : TrimSpace (chunk_text w) = chunk_text w.
Proof.
  unfold chunk_text. destruct (TrimSpace (wj_Text w)) as [|x t] eqn:E.
  - apply (trim_of_trimmed IsSpace).
    apply (Join_clean_parts IsSpace), surviving_clean.
  - rewrite <- E. apply TrimSpace_idempotent.
Qed.

Lemma non_empty_snoc (l : list gostring) (t : gostring) :
  non_empty (l ++ [t]) = if negb (is_empty t) then non_empty l ++ [t] else non_empty l.
Proof.
  unfold non_empty. rewrite List.filter_app. cbn.
  destruct (negb (is_empty t)); [reflexivity | apply app_nil_r].
Qed.

(** [transcribeChunk] on a chunk whose output decodes. *)
Lemma transcribeChunk_decodes (r : Runner) (env : Env) (ch : Chunk) (w : whisperJSON) :
  decodes env ch w ->
  transcribeChunk r env (chunk_Path ch) = Ok (surviving w, chunk_text w, chunk_language w).
Proof.
  unfold decodes, transcribeChunk. intros ->. apply parseWhisperJSON_decoded.
Qed.

(** [transcribeChunk] succeeds only on output that decodes. *)
Lemma transcribeChunk_ok (r : Runner) (env : Env) (ch : Chunk) x :
  transcribeChunk r env (chunk_Path ch) = Ok x -> exists w, decodes env ch w.
Proof.
  unfold decodes, transcribeChunk.
  destruct (run_whisper env (chunk_Path ch)) as [e|e|[w|e]]; try discriminate.
  intros _. now exists w.
Qed.

(** What one chunk adds to the text parts, in both loops. *)
Lemma text_parts_step (parts : list gostring) (w : whisperJSON) :
  (if negb (is_empty (TrimSpace (chunk_text w)))
   then parts ++ [TrimSpace (chunk_text w)] else parts)
  = parts ++ non_empty [chunk_text w].
Proof.
  rewrite chunk_text_trimmed. cbn.
  destruct (negb (is_empty (chunk_text w))); [reflexivity | now rewrite app_nil_r].
Qed.

Lemma non_empty_app (a b : list gostring) :
  non_empty (a ++ b) = non_empty a ++ non_empty b.
Proof. apply List.filter_app. Qed.

(** The chunk loop of [Run] on chunks whose outputs all decode. *)
Lemma run_chunks_decodes (r : Runner) (env : Env) (chunks : list Chunk)
    (ws : list whisperJSON) :
  Forall2 (decodes env) chunks ws ->
  forall all parts lang,
    run_chunks r env chunks all parts lang =
      Ok (all ++ merged_segments chunks ws,
          parts ++ non_empty (List.map chunk_text ws),
          merged_language lang ws).
Proof.
  induction 1 as [|ch w chunks ws Hd _ IH]; intros all parts lang.
  - cbn. now rewrite !app_nil_r.
  - cbn [run_chunks]. rewrite (transcribeChunk_decodes r env ch w Hd).
    rewrite text_parts_step, IH. cbn [merged_segments List.map].
    change (chunk_text w :: List.map chunk_text ws)
      with ([chunk_text w] ++ List.map chunk_text ws).
    rewrite non_empty_app, <- !app_assoc. reflexivity.
Qed.

(** If the chunk loop of [Run] succeeds, every output decoded. *)
Lemma run_chunks_ok (r : Runner) (env : Env) (chunks : list Chunk) :
  forall all parts lang x,
    run_chunks r env chunks all parts lang = Ok x ->
    exists ws, Forall2 (decodes env) chunks ws.
Proof.
  induction chunks as [|ch chunks IH]; intros all parts lang x H.
  - exists []. constructor.
  - cbn [run_chunks] in H.
    destruct (transcribeChunk r env (chunk_Path ch)) as [[[seg text] cl]|e] eqn:E;
      [| discriminate].
    apply transcribeChunk_ok in E as [w Hw].
    apply IH in H as [ws Hws]. exists (w :: ws). now constructor.
Qed.

(** The successful results of [Run]. *)
Lemma Run_ok (r : Runner) (env : Env) (chunks : list Chunk) (res : Result) :
  Run r env = (chunks, Ok res) ->
  exists ws,
    chunkAudio r env = Ok chunks /\
    Forall2 (decodes env) chunks ws /\
    res = {| res_Language := merged_language None ws;
             res_Text := transcript_text ws;
             res_Segments := merged_segments chunks ws;
             res_Duration := derive_duration (merged_segments chunks ws) |}.
Proof.
  unfold Run.
  destruct (ChunkSeconds r <=? 0); [discriminate |].
  destruct (is_empty (TrimSpace (FFmpegPath r))); [discriminate |].
  destruct (is_empty (TrimSpace (WhisperPath r))); [discriminate |].
  destruct (is_empty (TrimSpace (WhisperModelPath r))); [discriminate |].
  destruct (mkdir_temp env) as [wd|e]; [| discriminate].
  destruct (chunkAudio r env) as [cs|e]; [| discriminate].
  destruct (length cs =? 0)%nat; [discriminate |].
  destruct (run_chunks r env cs [] [] None) as [[[all parts] lang]|e] eqn:E;
    [| discriminate].
  intros [= <- <-].
  destruct (run_chunks_ok _ _ _ _ _ _ _ E) as [ws Hws].
  rewrite (run_chunks_decodes r env cs ws Hws) in E. injection E as <- <- <-.
  exists ws. repeat split; assumption || reflexivity.
Qed.

(* ===================================================================== *)
(** ** The store                                                          *)
(* ===================================================================== *)

Lemma with_jobs_same (db : DB) : with_jobs db (processing_jobs db) = db.
Proof. now destruct db. Qed.

(** [UpdateJobProgress] writes [processing_jobs] only. *)
Lemma UpdateJobProgress_tables (db : DB) jobID status progress tc cc res tid :
  let db' := fst (UpdateJobProgress db jobID status progress tc cc res tid) in
  conversations db' = conversations db /\
  transcripts db' = transcripts db /\
  transcripts_seq db' = transcripts_seq db /\
  transcript_segments db' = transcript_segments db /\
  processing_jobs_seq db' = processing_jobs_seq db.
Proof.
  unfold UpdateJobProgress.
  destruct (processing_jobs db !! jobID) as [row|]; [| now cbn].
  destruct (job_transcript_id _) as [t|]; [| now cbn].
  repeat case_bool_decide; now cbn.
Qed.

(** [UpdateJobProgress] leaves the rows of the other jobs alone. *)
Lemma UpdateJobProgress_other (db : DB) jobID status progress tc cc res tid other :
  other <> jobID ->
  processing_jobs (fst (UpdateJobProgress db jobID status progress tc cc res tid)) !! other
  = processing_jobs db !! other.
Proof.
  intros Hne. unfold UpdateJobProgress.
  destruct (processing_jobs db !! jobID) as [row|]; [| reflexivity].
  destruct (job_transcript_id _) as [t|]; repeat case_bool_decide; cbn;
    try reflexivity; now rewrite lookup_insert_ne.
Qed.

(** An update that passes no transcript reference always runs. *)
Lemma UpdateJobProgress_row (db : DB) jobID status progress tc cc res row :
  processing_jobs db !! jobID = Some row ->
  UpdateJobProgress db jobID status progress tc cc res None
  = (with_jobs db (<[jobID := updated_row row status progress tc cc res None]>
                     (processing_jobs db)), None).
Proof.
  intros Hrow. unfold UpdateJobProgress. rewrite Hrow.
  destruct (job_transcript_id (updated_row _ _ _ _ _ _ _)) as [t|] eqn:E; [| reflexivity].
  case_bool_decide; [reflexivity |].
  case_bool_decide as Hn; [reflexivity |]. cbn in E. congruence.
Qed.

(** An update that passes the id of a stored transcript runs. *)
Lemma UpdateJobProgress_row_ref (db : DB) jobID status progress tc cc res t row :
  processing_jobs db !! jobID = Some row ->
  is_Some (transcripts db !! t) ->
  UpdateJobProgress db jobID status progress tc cc res (Some t)
  = (with_jobs db (<[jobID := updated_row row status progress tc cc res (Some t)]>
                     (processing_jobs db)), None).
Proof.
  intros Hrow Ht. unfold UpdateJobProgress. rewrite Hrow. cbn.
  case_bool_decide; [reflexivity | contradiction].
Qed.

(** No row for the job: the update changes nothing. *)
Lemma UpdateJobProgress_missing (db : DB) jobID status progress tc cc res tid :
  processing_jobs db !! jobID = None ->
  UpdateJobProgress db jobID status progress tc cc res tid = (db, None).
Proof. intros H. unfold UpdateJobProgress. now rewrite H. Qed.

(** The segment loop of the transaction, when it completes, has added
    the rows of the non-blank segments and used no other statement. *)
Lemma insert_segments_ok (fault : nat -> option gostring) (tid : Z)
    (segs : list TranscriptSegmentInput) :
  forall st u st',
    insert_segments fault tid segs st = Ok (u, st') ->
    tx_db st' = add_segment_rows (tx_db st) (segment_rows tid segs).
Proof.
  induction segs as [|seg segs IH]; intros st u st' H.
  - injection H as _ <-. unfold add_segment_rows, segment_rows. cbn.
    rewrite app_nil_r. now destruct (tx_db st).
  - cbn [insert_segments] in H. unfold segment_rows. cbn [List.filter].
    destruct (is_empty (stringsTrim (Text seg))) eqn:E; cbn [negb].
    + apply IH in H. exact H.
    + unfold tx_bind, tx_stmt in H.
      destruct (fault (tx_count st)); [discriminate |]. cbn in H.
      apply IH in H. rewrite H. cbn [tx_db List.map].
      unfold add_segment_rows, segment_rows. cbn. now rewrite <- app_assoc.
Qed.

(** [CreateTranscriptWithSegments] is all or nothing: on an error the
    store is the one it started from; on success it is that store with
    the transcript row and all the segment rows. *)
Lemma CreateTranscriptWithSegments_atomic (fault : nat -> option gostring) (db : DB)
    conv fileName text duration language model audioURL segments :
  let row := {| tr_conversation_id := conv; tr_file_name := fileName;
                tr_transcript_text := text; tr_duration := duration;
                tr_language := language; tr_transcription_model := model;
                tr_audio_file_url := audioURL |} in
  match CreateTranscriptWithSegments fault db conv fileName text duration language
          model audioURL segments with
  | (db', Err _) => db' = db
  | (db', Ok id) =>
      id = Z.max (transcripts_seq db) 0 + 1 /\ db' = committed db id row segments
  end.
Proof.
  intros row. unfold CreateTranscriptWithSegments. fold row.
  destruct (fault 0%nat); [reflexivity |].
  unfold transcript_tx, tx_bind, tx_stmt. cbn [tx_count tx_db].
  destruct (fault 1%nat); [reflexivity |].
  unfold insert_transcript.
  destruct (negb (bool_decide (tr_conversation_id row ∈ conversations db)));
    [reflexivity |].
  destruct (conversation_has_transcript db (tr_conversation_id row)); [reflexivity |].
  cbn [tx_count tx_db].
  destruct (fault 2%nat); [reflexivity |].
  destruct (0 <? length segments)%nat eqn:Elen.
  - cbn [tx_count tx_db]. destruct (fault 3%nat); [reflexivity |].
    destruct (insert_segments _ _ _ _) as [[u st']|e] eqn:E; [| reflexivity].
    unfold tx_ret. destruct (fault (tx_count st')); [reflexivity |].
    apply insert_segments_ok in E. rewrite E. split; reflexivity.
  - unfold tx_ret. cbn [tx_count tx_db]. destruct (fault 3%nat); [reflexivity |].
    split; [reflexivity |]. destruct segments; [| discriminate].
    unfold committed, segment_rows. cbn. now rewrite app_nil_r.
Qed.

(* ===================================================================== *)
(** ** The worker: writes, rows and outcomes                              *)
(* ===================================================================== *)

Lemma replay_app (st : State) (a b : list Write) :
  replay st (a ++ b) = replay (replay st a) b.
Proof. apply fold_left_app. Qed.

Lemma apply_write_trace (st : State) (w : Write) :
  st_writes (apply_write st w) = st_writes st ++ [w].
Proof. now destruct w. Qed.

Lemma replay_trace (st : State) (ws : list Write) :
  st_writes (replay st ws) = st_writes st ++ ws.
Proof.
  revert st. induction ws as [|w ws IH]; intros st.
  - cbn. now rewrite app_nil_r.
  - cbn [replay fold_left]. fold (replay (apply_write st w) ws).
    rewrite IH, apply_write_trace, <- app_assoc. reflexivity.
Qed.

(** The worker's writes touch [processing_jobs] only. *)
Lemma replay_tables (st : State) (ws : list Write) :
  conversations (st_db (replay st ws)) = conversations (st_db st) /\
  transcripts (st_db (replay st ws)) = transcripts (st_db st) /\
  transcripts_seq (st_db (replay st ws)) = transcripts_seq (st_db st) /\
  transcript_segments (st_db (replay st ws)) = transcript_segments (st_db st) /\
  processing_jobs_seq (st_db (replay st ws)) = processing_jobs_seq (st_db st).
Proof.
  revert st. induction ws as [|w ws IH]; intros st; [now cbn |].
  cbn [replay fold_left]. fold (replay (apply_write st w) ws).
  destruct (IH (apply_write st w)) as (-> & -> & -> & -> & ->).
  apply UpdateJobProgress_tables.
Qed.

Lemma apply_write_row (st : State) (j : Job) (w : Write) (row : JobRow) :
  job_row st j = Some row ->
  plain_write j w ->
  job_row (apply_write st w) j = Some (row_after row [w]).
Proof.
  unfold job_row, plain_write, apply_write, update, row_after. intros Hrow [Hid Ht].
  cbn [st_db fold_left]. rewrite Hid, Ht. rewrite (UpdateJobProgress_row _ _ _ _ _ _ _ row Hrow).
  cbn. now rewrite lookup_insert_eq.
Qed.

Lemma row_after_app (row : JobRow) (a b : list Write) :
  row_after row (a ++ b) = row_after (row_after row a) b.
Proof. apply fold_left_app. Qed.

Lemma replay_row (j : Job) (ws : list Write) :
  forall st row,
    job_row st j = Some row ->
    Forall (plain_write j) ws ->
    job_row (replay st ws) j = Some (row_after row ws).
Proof.
  induction ws as [|w ws IH]; intros st row Hrow Hall; [exact Hrow |].
  inversion Hall as [|? ? Hw Hws]; subst.
  cbn [replay fold_left]. fold (replay (apply_write st w) ws).
  rewrite (IH _ _ (apply_write_row st j w row Hrow Hw) Hws). reflexivity.
Qed.

(** The writes of the chunk loop. *)
Lemma chunk_writes_cons (j : Job) (N i : Z) (n : nat) :
  chunk_writes j N i (S n) = chunk_write j N (i + 1) :: chunk_writes j N (i + 1) n.
Proof.
  unfold chunk_writes. cbn [List.seq List.map]. f_equal.
  - f_equal. lia.
  - rewrite <- seq_shift, List.map_map. apply List.map_ext. intros k. f_equal. lia.
Qed.

Lemma chunk_writes_snoc (j : Job) (N i : Z) (n : nat) :
  chunk_writes j N i (S n) = chunk_writes j N i n ++ [chunk_write j N (i + 1 + Z.of_nat n)].
Proof. unfold chunk_writes. rewrite seq_S, List.map_app. reflexivity. Qed.

Lemma chunk_writes_plain (j : Job) (N i : Z) (n : nat) :
  Forall (plain_write j) (chunk_writes j N i n).
Proof.
  unfold chunk_writes. apply List.Forall_forall. intros w Hw.
  apply in_map_iff in Hw as (k & <- & _). now split.
Qed.

Section Worker.

Variable q : Queue.
Variable env : Env.
Variable fault : nat -> option gostring.
Variable r : Runner.
Variable j : Job.

(** The chunk loop when every output decodes. *)
Lemma process_chunks_decodes (total : Z) (chunks : list Chunk) (ws : list whisperJSON) :
  Forall2 (decodes env) chunks ws ->
  forall i st c t l,
    process_chunks env r j total i chunks st c t l =
      inr (replay st (chunk_writes j total i (length chunks)),
           c ++ merged_segments chunks ws,
           t ++ non_empty (List.map chunk_text ws),
           merged_language l ws).
Proof.
  induction 1 as [|ch w chunks ws Hd _ IH]; intros i st c t l.
  - cbn. now rewrite !app_nil_r.
  - cbn [process_chunks length]. unfold TranscribeChunk.
    rewrite (transcribeChunk_decodes r env ch w Hd).
    rewrite text_parts_step, IH, chunk_writes_cons. cbn [merged_segments List.map].
    change (chunk_text w :: List.map chunk_text ws)
      with ([chunk_text w] ++ List.map chunk_text ws).
    rewrite non_empty_app, <- !app_assoc. reflexivity.
Qed.

(** The chunk loop when a chunk fails after chunks that decode. *)
Lemma process_chunks_fails (total : Z) (pre : list Chunk) (ws : list whisperJSON)
    (ch : Chunk) (post : list Chunk) (msg : gostring) :
  Forall2 (decodes env) pre ws ->
  TranscribeChunk r env (chunk_Path ch) = Err msg ->
  forall i st c t l,
    process_chunks env r j total i (pre ++ ch :: post) st c t l =
      inl (replay st (chunk_writes j total i (S (length pre))
                      ++ [failed_write j (Some (i + 1 + Z.of_nat (length pre))) msg])).
Proof.
  intros Hpre Hch. induction Hpre as [|c0 w pre ws Hd _ IH]; intros i st c t l.
  - cbn [app process_chunks length]. rewrite Hch.
    rewrite chunk_writes_cons.
    cbn [chunk_writes List.seq List.map app replay fold_left length].
    replace (i + 1 + Z.of_nat 0) with (i + 1) by lia. reflexivity.
  - cbn [app process_chunks length]. unfold TranscribeChunk at 1.
    rewrite (transcribeChunk_decodes r env c0 w Hd).
    rewrite IH, (chunk_writes_cons j total i (S (length pre))).
    cbn [app replay fold_left length].
    replace (i + 1 + 1 + Z.of_nat (length pre)) with (i + 1 + Z.of_nat (S (length pre)))
      by lia.
    reflexivity.
Qed.

(** Either every chunk's output decodes, or there is a first chunk whose
    transcription fails. *)
Lemma chunks_decode_or_fail (chunks : list Chunk) :
  (exists ws, Forall2 (decodes env) chunks ws) \/
  (exists pre ch post ws msg,
      chunks = pre ++ ch :: post /\ Forall2 (decodes env) pre ws /\
      TranscribeChunk r env (chunk_Path ch) = Err msg).
Proof.
  induction chunks as [|ch chunks IH].
  - left. exists []. constructor.
  - destruct (TranscribeChunk r env (chunk_Path ch)) as [x|msg] eqn:E.
    + apply transcribeChunk_ok in E as [w Hw].
      destruct IH as [[ws Hws] | (pre & c & post & ws & msg & -> & Hpre & Hc)].
      * left. exists (w :: ws). now constructor.
      * right. exists (ch :: pre), c, post, (w :: ws), msg.
        repeat split; [now constructor | exact Hc].
    + right. exists [], ch, chunks, [], msg. repeat split; [constructor | exact E].
Qed.

Hypothesis configured : p q = Some r.

(** A run in which a stage fails. *)
Lemma process_stage_failure (st : State) (msg : gostring) :
  stage_failure r env fault j st msg ->
  exists ws current,
    process q env fault j st = replay st (ws ++ [failed_write j current msg]) /\
    Forall (plain_write j) ws /\
    (ws = [claim_write j] \/
     (exists chunks k, ChunkAudio r env = Ok chunks /\ (k < length chunks)%nat /\
        ws = [claim_write j; segmented_write j (Z.of_nat (length chunks))]
             ++ chunk_writes j (Z.of_nat (length chunks)) 0 (S k)) \/
     (exists chunks, ChunkAudio r env = Ok chunks /\
        ws = writes_before_persist j (length chunks))).
Proof.
  intros Hf. unfold process. rewrite configured.
  destruct Hf as [msg Hm | wd msg Hm Hc | wd chunks pre ch post ws msg Hm Hc -> Hpre Hch
                 | wd chunks ws db msg Hm Hc Hws Hp].
  - rewrite Hm. exists [claim_write j], None. split; [reflexivity |].
    split; [repeat constructor | now left].
  - rewrite Hm, Hc. exists [claim_write j], None. split; [reflexivity |].
    split; [repeat constructor | now left].
  - rewrite Hm, Hc. rewrite (process_chunks_fails _ pre ws ch post msg Hpre Hch).
    exists ([claim_write j; segmented_write j (Z.of_nat (length (pre ++ ch :: post)))]
            ++ chunk_writes j (Z.of_nat (length (pre ++ ch :: post))) 0 (S (length pre))),
           (Some (0 + 1 + Z.of_nat (length pre))).
    split; [| split].
    + rewrite <- app_assoc. reflexivity.
    + apply Forall_app. split; [repeat constructor | apply chunk_writes_plain].
    + right. left. exists (pre ++ ch :: post), (length pre).
      split; [reflexivity |]. split; [rewrite length_app; cbn; lia | reflexivity].
  - rewrite Hm, Hc. rewrite (process_chunks_decodes _ chunks ws Hws). cbn [app].
    change (update (replay (update (update st (JobID j) (str "processing") 10 None None None None)
                             (JobID j) (str "processing") 15
                             (Some (Z.of_nat (length chunks))) (Some 0) None None)
                      (chunk_writes j (Z.of_nat (length chunks)) 0 (length chunks)))
                   (JobID j) (str "processing") 85 None
                   (Some (Z.of_nat (length chunks))) None None)
      with (replay (replay (replay st [claim_write j;
                                       segmented_write j (Z.of_nat (length chunks))])
                      (chunk_writes j (Z.of_nat (length chunks)) 0 (length chunks)))
              [persist_write j (Z.of_nat (length chunks))]).
    rewrite <- !replay_app.
    change ([claim_write j; segmented_write j (Z.of_nat (length chunks))]
            ++ chunk_writes j (Z.of_nat (length chunks)) 0 (length chunks)
            ++ [persist_write j (Z.of_nat (length chunks))])
      with (writes_before_persist j (length chunks)).
    unfold persist, transcript_text in Hp. rewrite Hp.
    pose proof (CreateTranscriptWithSegments_atomic fault
      (st_db (replay st (writes_before_persist j (length chunks))))
      (ConversationID j) (FileName j)
      (Join (non_empty (List.map chunk_text ws)) (str " ")) None
      (merged_language None ws) (Some (str "whisper.cpp"))
      (str "/api/audio/" ++ Itoa (ConversationID j))
      (input_segments (merged_segments chunks ws))) as Hat.
    cbv zeta in Hat. rewrite Hp in Hat. subst db.
    exists (writes_before_persist j (length chunks)), None. split; [| split].
    + rewrite replay_app.
      now destruct (replay st (writes_before_persist j (length chunks))).
    + unfold writes_before_persist. apply Forall_app. split; [repeat constructor |].
      apply Forall_app. split; [apply chunk_writes_plain | repeat constructor].
    + right. right. now exists chunks.
Qed.

End Worker.

Section Outcomes.

Variable q : Queue.
Variable env : Env.
Variable fault : nat -> option gostring.
Variable j : Job.

(** A queue without a pipeline fails every job. *)
Lemma process_not_configured (st : State) :
  p q = None ->
  process q env fault j st =
    replay st [claim_write j; failed_write j None (str "pipeline not configured")].
Proof. intros H. unfold process. now rewrite H. Qed.

Variable r : Runner.
Hypothesis configured : p q = Some r.

(** A run in which every stage succeeds. *)
Lemma process_success (st : State) chunks ws db transcriptID :
  job_succeeds r env fault j st chunks ws db transcriptID ->
  let st1 := replay st (writes_before_persist j (length chunks)) in
  process q env fault j st =
    replay {| st_db := db; st_writes := st_writes st1 |}
           [completed_write j (Z.of_nat (length chunks)) transcriptID] /\
  transcriptID = Z.max (transcripts_seq (st_db st1)) 0 + 1 /\
  db = committed (st_db st1) transcriptID (job_transcript_row j ws)
                 (input_segments (merged_segments chunks ws)).
Proof.
  intros ([wd Hm] & Hc & Hws & Hp) st1.
  pose proof (CreateTranscriptWithSegments_atomic fault (st_db st1)
    (ConversationID j) (FileName j) (transcript_text ws) None
    (merged_language None ws) (Some (str "whisper.cpp"))
    (str "/api/audio/" ++ Itoa (ConversationID j))
    (input_segments (merged_segments chunks ws))) as Hat.
  cbv zeta in Hat. fold (persist fault j (st_db st1) chunks ws) in Hat.
  subst st1. rewrite Hp in Hat. destruct Hat as [Hid Hdb].
  split; [| split; [exact Hid | exact Hdb]].
  unfold process. rewrite configured, Hm, Hc.
  rewrite (process_chunks_decodes env r j _ chunks ws Hws). cbn [app].
  change (update (replay (update (update st (JobID j) (str "processing") 10 None None None None)
                           (JobID j) (str "processing") 15
                           (Some (Z.of_nat (length chunks))) (Some 0) None None)
                    (chunk_writes j (Z.of_nat (length chunks)) 0 (length chunks)))
                 (JobID j) (str "processing") 85 None
                 (Some (Z.of_nat (length chunks))) None None)
    with (replay (replay (replay st [claim_write j;
                                     segmented_write j (Z.of_nat (length chunks))])
                    (chunk_writes j (Z.of_nat (length chunks)) 0 (length chunks)))
            [persist_write j (Z.of_nat (length chunks))]).
  rewrite <- !replay_app.
  change ([claim_write j; segmented_write j (Z.of_nat (length chunks))]
          ++ chunk_writes j (Z.of_nat (length chunks)) 0 (length chunks)
          ++ [persist_write j (Z.of_nat (length chunks))])
    with (writes_before_persist j (length chunks)).
  unfold persist, transcript_text in Hp. rewrite Hp. reflexivity.
Qed.

(** Every run has a stage that fails or succeeds in all of them. *)
Lemma process_cases (st : State) :
  (exists msg, stage_failure r env fault j st msg) \/
  (exists chunks ws db transcriptID,
      job_succeeds r env fault j st chunks ws db transcriptID).
Proof.
  destruct (mkdir_temp env) as [wd|msg] eqn:Hm;
    [| left; exists msg; now apply temp_dir_fails].
  destruct (ChunkAudio r env) as [chunks|msg] eqn:Hc;
    [| left; exists msg; now apply (chunking_fails r env fault j st wd)].
  destruct (chunks_decode_or_fail env r chunks)
    as [[ws Hws] | (pre & ch & post & ws & msg & Hsplit & Hpre & Hch)].
  - destruct (persist fault j
                (st_db (replay st (writes_before_persist j (length chunks)))) chunks ws)
      as [db [tid|msg]] eqn:Hp.
    + right. exists chunks, ws, db, tid. repeat split; eauto.
    + left. exists msg.
      now apply (persistence_fails r env fault j st wd chunks ws db).
  - left. exists msg.
    now apply (transcription_fails r env fault j st wd chunks pre ch post ws).
Qed.

End Outcomes.

Example chunkAudio_three :
  chunkAudio Scenario.runner (Scenario.all_spoken 3)
  = Ok [Scenario.chunk_at 0; Scenario.chunk_at 1; Scenario.chunk_at 2].
Proof. reflexivity. Qed.

Example uploaded_row :
  job_row Scenario.uploaded Scenario.job = Some Scenario.pending_row.
Proof. reflexivity. Qed.

Example surviving_spoken :
  surviving Scenario.spoken
  = [ {| seg_Start := 0; seg_End := 1.5; seg_Text := str "Hello there." |};
      {| seg_Start := 2; seg_End := 4.5; seg_Text := str "General remarks." |} ].
Proof. reflexivity. Qed.

(* ===================================================================== *)
(** ** The job tracker                                                    *)
(* ===================================================================== *)

Lemma row_after_snoc (row : JobRow) (ws : list Write) (w : Write) :
  row_after row (ws ++ [w]) =
    updated_row (row_after row ws) (w_status w) (w_progress w) (w_totalChunks w)
                (w_currentChunk w) (w_result w) (w_transcriptID w).
Proof. now rewrite row_after_app. Qed.

(** C3 as stated fails: in the run whose second chunk fails, the row
    has progress 58 before the failure is recorded and 100 after. *)
Lemma failure_overwrites_progress :
  let before_writes := [claim_write Scenario.job; segmented_write Scenario.job 3;
                        chunk_write Scenario.job 3 1; chunk_write Scenario.job 3 2] in
  let final := process Scenario.queue Scenario.second_fails Scenario.no_fault
                       Scenario.job Scenario.uploaded in
  exists before after,
    st_writes final
      = before_writes
        ++ [failed_write Scenario.job (Some 2) (str "whisper failed: exit status 1")] /\
    job_row (replay Scenario.uploaded before_writes) Scenario.job = Some before /\
    job_row final Scenario.job = Some after /\
    job_progress before = 58 /\
    job_progress after = 100 /\
    ~ stated_failure_outcome before after.
Proof.
  cbv zeta. eexists. eexists.
  split; [vm_compute; reflexivity |].
  split; [vm_compute; reflexivity |].
  split; [vm_compute; reflexivity |].
  split; [reflexivity |]. split; [reflexivity |].
  intros (_ & _ & H). vm_compute in H. discriminate.
Qed.

(* ===================================================================== *)
(** ** Merged segments, texts and durations                               *)
(* ===================================================================== *)

Lemma clean_part_not_blank (s : gostring) :
  clean_part IsSpace s = true -> is_empty (TrimSpace s) = false.
Proof.
  unfold clean_part. intros H. apply andb_prop in H as [Hne Htr].
  rewrite TrimSpace_trim, (trim_of_trimmed IsSpace s Htr).
  now apply negb_true_iff.
Qed.

Lemma merged_segments_clean (chunks : list Chunk) (ws : list whisperJSON) :
  Forall (fun s => clean_part IsSpace (seg_Text s) = true) (merged_segments chunks ws).
Proof.
  revert ws. induction chunks as [|ch chunks IH]; intros [|w ws]; cbn; try constructor.
  apply Forall_app. split; [| apply IH].
  apply List.Forall_forall. intros s Hs.
  apply in_map_iff in Hs as (s0 & <- & Hs0). cbn [shift_segment seg_Text].
  pose proof (surviving_clean (chunk_records w)) as Hc.
  rewrite forallb_forall in Hc. apply Hc. now apply in_map.
Qed.

(** The job hands all its merged segments to the store, and the store
    writes a row for each. *)
Lemma input_segments_all (tid : Z) (all : list Segment) :
  Forall (fun s => clean_part IsSpace (seg_Text s) = true) all ->
  segment_rows tid (input_segments all) = List.map (segment_row tid) all.
Proof.
  induction 1 as [|s all Hs _ IH]; [reflexivity |].
  cbn [input_segments]. rewrite (clean_part_not_blank _ Hs).
  unfold segment_rows in *. cbn [List.filter Text].
  rewrite (stringsTrim_not_blank _ (clean_part_not_blank _ Hs)). cbn [negb List.map].
  now rewrite IH.
Qed.

Lemma merged_segments_empty (chunks : list Chunk) (ws : list whisperJSON) :
  length chunks = length ws ->
  merged_segments chunks ws = [] ->
  Forall (fun w => surviving w = []) ws.
Proof.
  revert ws. induction chunks as [|ch chunks IH]; intros [|w ws] Hlen H;
    try discriminate; [constructor |].
  cbn in H. apply app_eq_nil in H as [H1 H2]. constructor.
  - destruct (surviving w); [reflexivity | discriminate].
  - apply IH; [now injection Hlen | exact H2].
Qed.

(** No surviving segment and no chunk-level text anywhere: the
    transcript text is empty. *)
Lemma transcript_text_empty (ws : list whisperJSON) :
  Forall (fun w => surviving w = []) ws ->
  Forall no_chunk_text ws ->
  transcript_text ws = [].
Proof.
  intros Hs Hn. unfold transcript_text.
  replace (non_empty (List.map chunk_text ws)) with (@nil gostring); [reflexivity |].
  induction ws as [|w ws IH]; [reflexivity |].
  inversion Hs as [|? ? Hs1 Hs2]; inversion Hn as [|? ? Hn1 Hn2]; subst.
  cbn [List.map]. unfold non_empty in *. cbn [List.filter].
  unfold chunk_text at 1. unfold no_chunk_text in Hn1. rewrite Hn1, Hs1. cbn.
  now apply IH.
Qed.

(** The order of binary64 values. *)
Lemma SFltb_trans (a b c : spec_float) :
  SFltb a b = true -> SFltb b c = true -> SFltb a c = true.
Proof.
  unfold SFltb.
  destruct a as [sa|sa| |sa ma ea], b as [sb|sb| |sb mb eb], c as [sc|sc| |sc mc ec];
    cbn [SFcompare]; try discriminate; try reflexivity;
    try (destruct sa, sb, sc; cbn; intros; try discriminate; reflexivity);
    try (destruct sa, sb; cbn; intros; try discriminate; reflexivity);
    try (destruct sa, sc; cbn; intros; try discriminate; reflexivity);
    try (destruct sb, sc; cbn; intros; try discriminate; reflexivity).
  change (Pos.compare_cont Eq ma mb) with (Pos.compare ma mb).
  change (Pos.compare_cont Eq mb mc) with (Pos.compare mb mc).
  change (Pos.compare_cont Eq ma mc) with (Pos.compare ma mc).
  destruct sa, sb, sc; try discriminate; try reflexivity;
    destruct (Z.compare_spec ea eb), (Z.compare_spec eb ec), (Z.compare_spec ea ec);
    subst; try lia; try discriminate; try reflexivity;
    destruct (Pos.compare_spec ma mb), (Pos.compare_spec mb mc), (Pos.compare_spec ma mc);
    subst; cbn; try lia; try discriminate; try reflexivity.
Qed.

Lemma float_ltb_trans (a b c : float) :
  PrimFloat.ltb a b = true -> PrimFloat.ltb b c = true -> PrimFloat.ltb a c = true.
Proof. rewrite !FloatAxioms.ltb_spec. apply SFltb_trans. Qed.

Lemma float_ltb_irrefl (a : float) : PrimFloat.ltb a a = false.
Proof.
  rewrite FloatAxioms.ltb_spec. unfold SFltb.
  destruct (Prim2SF a) as [s|s| |s m e]; cbn; try reflexivity.
  - now destruct s.
  - destruct s; rewrite Z.compare_refl;
      change (Pos.compare_cont Eq m m) with (Pos.compare m m);
      rewrite Pos.compare_refl; reflexivity.
Qed.

Lemma float_ltb_asym (a b : float) :
  PrimFloat.ltb a b = true -> PrimFloat.ltb b a = false.
Proof.
  intros H. destruct (PrimFloat.ltb b a) eqn:E; [| reflexivity].
  pose proof (float_ltb_trans _ _ _ H E) as Hc.
  rewrite float_ltb_irrefl in Hc. discriminate.
Qed.

(** The duration loop ends on its start value or on a later [End] that
    exceeds it, and no [End] of the list exceeds the result. *)
Lemma max_end_loop_spec (all : list Segment) :
  forall m,
    let d := max_end_loop all m in
    (d = m \/ PrimFloat.ltb m d = true) /\
    (d = m \/ exists s, In s all /\ seg_End s = d) /\
    (forall s, In s all -> PrimFloat.ltb d (seg_End s) = false).
Proof.
  induction all as [|s all IH]; intros m.
  - cbn. repeat split; auto. intros s [].
  - cbn [max_end_loop fold_left]. fold (max_end_loop all).
    destruct (PrimFloat.ltb m (seg_End s)) eqn:E.
    + destruct (IH (seg_End s)) as (H1 & H2 & H3). cbv zeta in *.
      change (fold_left _ all (seg_End s)) with (max_end_loop all (seg_End s)).
      generalize dependent (max_end_loop all (seg_End s)). intros d H1 H2 H3.
      repeat split.
      * right. destruct H1 as [-> | H1]; [exact E | exact (float_ltb_trans _ _ _ E H1)].
      * right. destruct H2 as [-> | (s' & Hin & Hs')].
        -- exists s. split; [now left | reflexivity].
        -- exists s'. split; [now right | exact Hs'].
      * intros s' [<- | Hin]; [| now apply H3].
        destruct H1 as [-> | H1]; [apply float_ltb_irrefl | now apply float_ltb_asym].
    + destruct (IH m) as (H1 & H2 & H3). cbv zeta in *.
      change (fold_left _ all m) with (max_end_loop all m).
      generalize dependent (max_end_loop all m). intros d H1 H2 H3.
      repeat split.
      * exact H1.
      * destruct H2 as [-> | (s' & Hin & Hs')]; [now left |].
        right. exists s'. split; [now right | exact Hs'].
      * intros s' [<- | Hin]; [| now apply H3].
        destruct H1 as [-> | H1]; [exact E |].
        destruct (PrimFloat.ltb d (seg_End s)) eqn:E'; [| reflexivity].
        rewrite (float_ltb_trans _ _ _ H1 E') in E. discriminate.
Qed.

(** [derive_duration] gives the maximum [End], or nothing for no segment. *)
Lemma derive_duration_spec (all : list Segment) :
  stated_duration all (derive_duration all).
Proof.
  destruct all as [|s0 all]; [reflexivity |].
  unfold stated_duration, derive_duration.
  destruct (max_end_loop_spec (s0 :: all) (seg_End s0)) as (_ & H2 & H3).
  eexists. split; [reflexivity |]. split; [| exact H3].
  destruct H2 as [H2 | H2]; [| exact H2].
  exists s0. split; [now left | now rewrite H2].
Qed.

Lemma writes_before_persist_plain (j : Job) (N : nat) :
  Forall (plain_write j) (writes_before_persist j N).
Proof.
  unfold writes_before_persist. apply Forall_app. split; [repeat constructor |].
  apply Forall_app. split; [apply chunk_writes_plain | repeat constructor].
Qed.

(** The store, the trace and the job's row after a run in which every
    stage succeeds. *)
Lemma process_success_store (q : Queue) (env : Env) (fault : nat -> option gostring)
    (r : Runner) (j : Job) (st : State) chunks ws db transcriptID :
  p q = Some r ->
  job_succeeds r env fault j st chunks ws db transcriptID ->
  let final := process q env fault j st in
  let N := length chunks in
  transcripts (st_db final)
    = <[transcriptID := job_transcript_row j ws]> (transcripts (st_db st)) /\
  transcript_segments (st_db final)
    = transcript_segments (st_db st)
      ++ List.map (segment_row transcriptID) (merged_segments chunks ws) /\
  st_writes final
    = st_writes st ++ writes_before_persist j N
      ++ [completed_write j (Z.of_nat N) transcriptID] /\
  (forall row, job_row st j = Some row ->
     job_row final j
     = Some (row_after row (writes_before_persist j N
                            ++ [completed_write j (Z.of_nat N) transcriptID]))).
Proof.
  intros Hq Hs final N.
  destruct (process_success q env fault j r Hq st chunks ws db transcriptID Hs)
    as (Hp & Hid & Hdb).
  subst final. rewrite Hp. clear Hp. fold N in Hdb, Hid |- *.
  set (st1 := replay st (writes_before_persist j N)) in *.
  destruct (replay_tables st (writes_before_persist j N)) as (_ & Ht & _ & Hsg & _).
  fold st1 in Ht, Hsg.
  assert (Hlook : transcripts db !! transcriptID = Some (job_transcript_row j ws)).
  { rewrite Hdb. cbn [committed transcripts]. apply lookup_insert_eq. }
  destruct (replay_tables {| st_db := db; st_writes := st_writes st1 |}
              [completed_write j (Z.of_nat N) transcriptID]) as (_ & Ht' & _ & Hsg' & _).
  cbn [st_db] in Ht', Hsg'.
  split; [| split; [| split]].
  - rewrite Ht', Hdb. cbn [committed transcripts]. now rewrite Ht.
  - rewrite Hsg', Hdb. cbn [committed transcript_segments]. rewrite Hsg.
    now rewrite (input_segments_all _ _ (merged_segments_clean chunks ws)).
  - rewrite replay_trace. cbn [st_writes]. unfold st1. rewrite replay_trace.
    now rewrite <- app_assoc.
  - intros row Hrow.
    pose proof (replay_row j _ st row Hrow (writes_before_persist_plain j N)) as H1.
    fold st1 in H1. rewrite row_after_snoc.
    unfold job_row in *. cbn [replay fold_left apply_write update st_db completed_write
      w_jobID w_status w_progress w_totalChunks w_currentChunk w_result w_transcriptID].
    assert (Hjobs : processing_jobs db = processing_jobs (st_db st1))
      by (rewrite Hdb; reflexivity).
    rewrite (UpdateJobProgress_row_ref db _ _ _ _ _ _ transcriptID
               (row_after row (writes_before_persist j N))).
    + cbn. now rewrite lookup_insert_eq.
    + now rewrite Hjobs.
    + rewrite Hlook. eauto.
Qed.

(** C7. A raw record of a chunk's output contributes a segment exactly
    when some timestamp strategy yields its start and end and its trimmed
    text is not empty; the parser returns the contributions of the
    records in order, without an error, and the derived text joins the
    texts of the contributing records only. Chunks whose outputs decode,
    whatever they contribute, do not fail the chunk loops of the pipeline
    and of the worker. *)
Theorem raw_records_contribute (w : whisperJSON) (r : Runner) (env : Env)
    (j : Job) (st : State) (chunks : list Chunk) (ws : list whisperJSON) :
  Forall2 (decodes env) chunks ws ->
  parseWhisperJSON (Ok w)
    = Ok (omap contribution (chunk_records w), chunk_text w, chunk_language w)
  /\ (forall s, is_Some (contribution s) <->
                is_Some (timestamp_chain s) /\ TrimSpace (ws_Text s) <> [])
  /\ (forall s, is_Some (timestamp_chain s) <-> snd (segTimesSeconds s) = true)
  /\ (TrimSpace (wj_Text w) = [] ->
      chunk_text w
      = Join (List.map seg_Text (omap contribution (chunk_records w))) (str " "))
  /\ (exists all parts lang, run_chunks r env chunks [] [] None = Ok (all, parts, lang))
  /\ (exists st' all parts lang,
         process_chunks env r j (Z.of_nat (length chunks)) 0 chunks st [] [] None
         = inr (st', all, parts, lang)).
Proof.
  intros Hws. split; [apply parseWhisperJSON_decoded |].
  split; [| split; [| split; [| split]]].
  - intros s. unfold contribution.
    destruct (timestamp_chain s) as [[a b]|].
    + destruct (TrimSpace (ws_Text s)) eqn:E.
      * split; [intros [x Hx]; discriminate | intros [_ H]; congruence].
      * split; [intros _; split; [eauto | congruence] | eauto].
    + split; [intros [x Hx]; discriminate | intros [[x Hx] _]; discriminate].
  - intros s. rewrite segTimesSeconds_chain.
    destruct (timestamp_chain s) as [[a b]|]; cbn.
    + split; eauto.
    + split; [intros [x Hx]; discriminate | discriminate].
  - intros H. unfold chunk_text. now rewrite H.
  - rewrite (run_chunks_decodes r env chunks ws Hws). eauto.
  - rewrite (process_chunks_decodes env r j _ chunks ws Hws). eauto.
Qed.

Lemma raw_records_contribute_witness :
  surviving Scenario.silent = [] /\
  exists st' all parts lang,
    process_chunks (Scenario.env_with 2 (fun _ => OutputRead (Ok Scenario.silent)))
                   Scenario.runner Scenario.job 2 0
                   [Scenario.chunk_at 0; Scenario.chunk_at 1] Scenario.uploaded [] [] None
    = inr (st', all, parts, lang).
Proof.
  split; [reflexivity |].
  apply (raw_records_contribute Scenario.silent Scenario.runner
           (Scenario.env_with 2 (fun _ => OutputRead (Ok Scenario.silent)))
           Scenario.job Scenario.uploaded
           [Scenario.chunk_at 0; Scenario.chunk_at 1]
           [Scenario.silent; Scenario.silent]).
  repeat constructor.
Defined.

(** C8 (amended). The final transcript text is the concatenation, with a
    single space and in chunk order, of every chunk's non-empty text,
    where a chunk's text is the engine's chunk-level text field with its
    leading and trailing white space removed when that leaves something,
    and otherwise the space-joined texts of the chunk's surviving
    segments: for the result of [Run], and for the transcript row a
    completed job commits. *)
Theorem transcript_text_joins_chunk_texts (q : Queue) (env : Env)
    (fault : nat -> option gostring) (r : Runner) (j : Job) (st : State)
    (chunks : list Chunk) (ws : list whisperJSON) (db : DB) (transcriptID : Z)
    (chunks' : list Chunk) (res : Result) :
  (forall w, exists segs lang,
      parseWhisperJSON (Ok w) = Ok (segs, chunk_text w, lang)) /\
  (Run r env = (chunks', Ok res) ->
   exists ws', Forall2 (decodes env) chunks' ws' /\ res_Text res = transcript_text ws') /\
  (p q = Some r ->
   job_succeeds r env fault j st chunks ws db transcriptID ->
   exists row,
     transcripts (st_db (process q env fault j st)) !! transcriptID = Some row /\
     tr_transcript_text row = transcript_text ws).
Proof.
  split; [| split].
  - intros w. rewrite parseWhisperJSON_decoded. eauto.
  - intros HRun. apply Run_ok in HRun as (ws' & _ & Hws' & ->). eauto.
  - intros Hq Hs.
    destruct (process_success_store q env fault r j st chunks ws db transcriptID Hq Hs)
      as (Ht & _).
    exists (job_transcript_row j ws). split; [| reflexivity].
    rewrite Ht. apply lookup_insert_eq.
Qed.

Lemma transcript_text_joins_chunk_texts_witness :
  (exists ws',
      Forall2 (decodes (Scenario.all_spoken 2))
              [Scenario.chunk_at 0; Scenario.chunk_at 1] ws' /\
      str "Hello there. General remarks. Hello there. General remarks."
      = transcript_text ws') /\
  (exists row,
      transcripts (st_db (process Scenario.queue (Scenario.all_spoken 2)
                                  Scenario.no_fault Scenario.job Scenario.uploaded)) !! 1
      = Some row /\
      tr_transcript_text row
      = str "Hello there. General remarks. Hello there. General remarks.").
Proof.
  split.
  - apply (proj1 (proj2 (transcript_text_joins_chunk_texts Scenario.queue
             (Scenario.all_spoken 2) Scenario.no_fault Scenario.runner Scenario.job
             Scenario.uploaded [] [] Scenario.fresh_db 0
             [Scenario.chunk_at 0; Scenario.chunk_at 1]
             {| res_Language := Some (str "en");
                res_Text := str "Hello there. General remarks. Hello there. General remarks.";
                res_Segments := merged_segments [Scenario.chunk_at 0; Scenario.chunk_at 1]
                                                [Scenario.spoken; Scenario.spoken];
                res_Duration := Some 19.5%float |}))).
    vm_compute. reflexivity.
  - apply (proj2 (proj2 (transcript_text_joins_chunk_texts Scenario.queue
              (Scenario.all_spoken 2) Scenario.no_fault Scenario.runner Scenario.job
              Scenario.uploaded [Scenario.chunk_at 0; Scenario.chunk_at 1]
              [Scenario.spoken; Scenario.spoken]
              (Scenario.store_after [Scenario.chunk_at 0; Scenario.chunk_at 1]
                                    [Scenario.spoken; Scenario.spoken]) 1 []
              {| res_Language := None; res_Text := []; res_Segments := [];
                 res_Duration := None |}))).
    + reflexivity.
    + split; [eexists; reflexivity |]. split; [reflexivity |].
      split; [repeat constructor |]. vm_compute. reflexivity.
Defined.

(** C8 as stated fails: the engine's chunk-level text [" hi"] is not
    empty, so the stated transcript text is [" hi"], while [Run] returns
    and the worker stores ["hi"]. *)
Lemma chunk_text_field_is_trimmed :
  let env := Scenario.env_with 1 (fun _ => OutputRead (Ok Scenario.padded_text)) in
  let final := process Scenario.queue env Scenario.no_fault Scenario.job
                       Scenario.uploaded in
  Forall2 (decodes env) [Scenario.chunk_at 0] [Scenario.padded_text] /\
  stated_transcript_text [Scenario.padded_text] = str " hi" /\
  (exists res, Run Scenario.runner env = ([Scenario.chunk_at 0], Ok res) /\
               res_Text res = str "hi" /\
               res_Text res <> stated_transcript_text [Scenario.padded_text]) /\
  (exists row, transcripts (st_db final) !! 1 = Some row /\
               tr_transcript_text row = str "hi" /\
               tr_transcript_text row <> stated_transcript_text [Scenario.padded_text]).
Proof.
  cbv zeta. split; [repeat constructor |]. split; [reflexivity |]. split.
  - eexists. split; [vm_compute; reflexivity |]. split; [reflexivity |].
    vm_compute. discriminate.
  - eexists. split; [vm_compute; reflexivity |]. split; [reflexivity |].
    vm_compute. discriminate.
Qed.

(** C2 (amended). The result of [Run] has, with at least one segment,
    the maximum segment end as its duration and, with none, a null
    duration; the transcript a completed job persists with zero segments
    has a null duration; in both, with zero segments the text is empty
    when no chunk's output carries a non-blank chunk-level text. *)
Theorem duration_is_max_end_or_null (q : Queue) (env : Env)
    (fault : nat -> option gostring) (r : Runner) (j : Job) (st : State)
    (chunks : list Chunk) (ws : list whisperJSON) (db : DB) (transcriptID : Z)
    (chunks' : list Chunk) (res : Result) :
  (Run r env = (chunks', Ok res) ->
   stated_duration (res_Segments res) (res_Duration res) /\
   exists ws', Forall2 (decodes env) chunks' ws' /\
               (res_Segments res = [] -> Forall no_chunk_text ws' -> res_Text res = [])) /\
  (p q = Some r ->
   job_succeeds r env fault j st chunks ws db transcriptID ->
   let final := process q env fault j st in
   exists row,
     transcripts (st_db final) !! transcriptID = Some row /\
     transcript_segments (st_db final)
       = transcript_segments (st_db st)
         ++ List.map (segment_row transcriptID) (merged_segments chunks ws) /\
     (merged_segments chunks ws = [] ->
      tr_duration row = None /\
      (Forall no_chunk_text ws -> tr_transcript_text row = []))).
Proof.
  split.
  - intros HRun. apply Run_ok in HRun as (ws' & _ & Hws' & ->). cbn [res_Segments
      res_Duration res_Text].
    split; [apply derive_duration_spec |]. exists ws'. split; [exact Hws' |].
    intros Hnil Hno. apply transcript_text_empty; [| exact Hno].
    apply (merged_segments_empty chunks'); [| exact Hnil].
    exact (Forall2_length _ _ _ Hws').
  - intros Hq Hs final.
    destruct (process_success_store q env fault r j st chunks ws db transcriptID Hq Hs)
      as (Ht & Hsg & _).
    exists (job_transcript_row j ws). split; [| split].
    + subst final. rewrite Ht. apply lookup_insert_eq.
    + exact Hsg.
    + intros Hnil. split; [reflexivity |]. intros Hno.
      cbn [job_transcript_row tr_transcript_text].
      apply transcript_text_empty; [| exact Hno].
      apply (merged_segments_empty chunks); [| exact Hnil].
      destruct Hs as (_ & _ & Hws & _). exact (Forall2_length _ _ _ Hws).
Qed.

Lemma duration_is_max_end_or_null_witness :
  (exists res,
      Run Scenario.runner (Scenario.all_spoken 2)
      = ([Scenario.chunk_at 0; Scenario.chunk_at 1], Ok res) /\
      res_Duration res = Some 19.5%float /\
      stated_duration (res_Segments res) (res_Duration res)) /\
  (exists row,
      transcripts (st_db (process Scenario.queue
                            (Scenario.env_with 1 (fun _ => OutputRead (Ok Scenario.silent)))
                            Scenario.no_fault Scenario.job Scenario.uploaded)) !! 1
      = Some row /\
      tr_duration row = None /\ tr_transcript_text row = []).
Proof.
  split.
  - eexists. split; [vm_compute; reflexivity |]. split; [reflexivity |].
    eapply (proj1 (duration_is_max_end_or_null Scenario.queue (Scenario.all_spoken 2)
              Scenario.no_fault Scenario.runner Scenario.job Scenario.uploaded
              [] [] Scenario.fresh_db 0 [Scenario.chunk_at 0; Scenario.chunk_at 1] _)).
    vm_compute. reflexivity.
  - destruct (proj2 (duration_is_max_end_or_null Scenario.queue
                 (Scenario.env_with 1 (fun _ => OutputRead (Ok Scenario.silent)))
                 Scenario.no_fault Scenario.runner Scenario.job Scenario.uploaded
                 [Scenario.chunk_at 0] [Scenario.silent]
                 (Scenario.store_after [Scenario.chunk_at 0] [Scenario.silent]) 1 []
                 {| res_Language := None; res_Text := []; res_Segments := [];
                    res_Duration := None |}))
      as (row & Hrow & _ & Hzero).
    + reflexivity.
    + split; [eexists; reflexivity |]. split; [reflexivity |].
      split; [repeat constructor |]. vm_compute. reflexivity.
    + exists row. split; [exact Hrow |].
      destruct (Hzero eq_refl) as [Hd Ht]. split; [exact Hd |].
      apply Ht. repeat constructor.
Defined.

(** C2 as stated fails on the transcript a completed job persists: with
    a chunk-level text and no segment the text is not empty; with
    segments the persisted duration is null. *)
Lemma persisted_transcript_breaks_invariant :
  let text_only := Scenario.env_with 1 (fun _ => OutputRead (Ok Scenario.text_only)) in
  let final1 := process Scenario.queue text_only Scenario.no_fault Scenario.job
                        Scenario.uploaded in
  let final2 := process Scenario.queue (Scenario.all_spoken 1) Scenario.no_fault
                        Scenario.job Scenario.uploaded in
  (exists row,
      (job_status <$> job_row final1 Scenario.job) = Some (str "completed") /\
      transcripts (st_db final1) !! 1 = Some row /\
      transcript_segments (st_db final1) = [] /\
      tr_transcript_text row = str "hello" /\
      ~ stated_transcript_invariant row (transcript_segments (st_db final1))) /\
  (exists row,
      (job_status <$> job_row final2 Scenario.job) = Some (str "completed") /\
      transcripts (st_db final2) !! 1 = Some row /\
      length (transcript_segments (st_db final2)) = 2%nat /\
      tr_duration row = None /\
      ~ stated_transcript_invariant row (transcript_segments (st_db final2))).
Proof.
  cbv zeta. split.
  - eexists. split; [vm_compute; reflexivity |]. split; [vm_compute; reflexivity |].
    split; [vm_compute; reflexivity |]. split; [reflexivity |].
    intros H. vm_compute in H. destruct H as [H _]. discriminate.
  - eexists. split; [vm_compute; reflexivity |]. split; [vm_compute; reflexivity |].
    split; [vm_compute; reflexivity |]. split; [reflexivity |].
    intros H. vm_compute in H. destruct H as (d & H & _). discriminate.
Qed.

(* ===================================================================== *)
(** ** Progress updates keep what they are not given                      *)
(* ===================================================================== *)

Lemma COALESCE_stays {A} (arg column : option A) :
  is_Some column -> is_Some (COALESCE arg column).
Proof. destruct arg; cbn; eauto. Qed.

Lemma stays_set_refl (row : JobRow) : stays_set row row.
Proof. unfold stays_set. tauto. Qed.

Lemma stays_set_trans (a b c : JobRow) :
  stays_set a b -> stays_set b c -> stays_set a c.
Proof. unfold stays_set. tauto. Qed.

Lemma updated_row_stays (row : JobRow) status progress tc cc res tid :
  stays_set row (updated_row row status progress tc cc res tid).
Proof. unfold stays_set. cbn. repeat split; apply COALESCE_stays. Qed.

(** The row of a job after any one call of [UpdateJobProgress], for
    that job or another. *)
Lemma UpdateJobProgress_stays (db : DB) (jobID : Z) (row : JobRow)
    id status progress tc cc res tid :
  processing_jobs db !! jobID = Some row ->
  exists row',
    processing_jobs (fst (UpdateJobProgress db id status progress tc cc res tid)) !! jobID
    = Some row' /\ stays_set row row'.
Proof.
  intros Hrow. destruct (decide (jobID = id)) as [<- | Hne].
  - unfold UpdateJobProgress. rewrite Hrow.
    destruct (job_transcript_id (updated_row _ _ _ _ _ _ _)) as [t|];
      repeat case_bool_decide; cbn [fst with_jobs processing_jobs];
      try (rewrite lookup_insert_eq; eexists; split;
           [reflexivity | apply updated_row_stays]).
    exists row. split; [exact Hrow | apply stays_set_refl].
  - rewrite UpdateJobProgress_other by exact Hne.
    exists row. split; [exact Hrow | apply stays_set_refl].
Qed.

Lemma replay_stays (jobID : Z) (ws : list Write) :
  forall st row,
    processing_jobs (st_db st) !! jobID = Some row ->
    exists row',
      processing_jobs (st_db (replay st ws)) !! jobID = Some row' /\ stays_set row row'.
Proof.
  induction ws as [|w ws IH]; intros st row Hrow.
  - exists row. split; [exact Hrow | apply stays_set_refl].
  - cbn [replay fold_left]. fold (replay (apply_write st w) ws).
    destruct (UpdateJobProgress_stays (st_db st) jobID row (w_jobID w) (w_status w)
                (w_progress w) (w_totalChunks w) (w_currentChunk w) (w_result w)
                (w_transcriptID w) Hrow) as (row1 & H1 & S1).
    destruct (IH (apply_write st w) row1 H1) as (row2 & H2 & S2).
    exists row2. split; [exact H2 | exact (stays_set_trans _ _ _ S1 S2)].
Qed.

(** C10. A progress update leaves every column it is given no value for
    as it was: [total_chunks], [current_chunk], [result] and
    [transcript_id] keep their stored values when the corresponding
    argument is nil; [status] and [progress] are overwritten whenever the
    statement runs (always, when no transcript id is passed); the other
    columns, rows and tables are untouched; so over any sequence of
    updates [total_chunks], the message and the transcript reference,
    once set, are never cleared. *)
Theorem UpdateJobProgress_keeps_unsupplied (db : DB) (jobID : Z) (row : JobRow)
    (status : gostring) (progress : Z) (tc cc : option Z) (res : option gostring)
    (tid : option Z) (ws : list Write) :
  processing_jobs db !! jobID = Some row ->
  let out := UpdateJobProgress db jobID status progress tc cc res tid in
  (exists row',
      processing_jobs (fst out) !! jobID = Some row' /\
      (tc = None -> job_total_chunks row' = job_total_chunks row) /\
      (cc = None -> job_current_chunk row' = job_current_chunk row) /\
      (res = None -> job_result row' = job_result row) /\
      (tid = None -> job_transcript_id row' = job_transcript_id row) /\
      (snd out = None -> job_status row' = status /\ job_progress row' = progress) /\
      (tid = None -> snd out = None) /\
      job_conversation_id row' = job_conversation_id row /\
      job_type row' = job_type row /\
      stays_set row row') /\
  (forall other, other <> jobID ->
     processing_jobs (fst out) !! other = processing_jobs db !! other) /\
  (transcripts (fst out) = transcripts db /\
   transcript_segments (fst out) = transcript_segments db) /\
  (exists row'',
      processing_jobs (st_db (replay {| st_db := db; st_writes := [] |} ws)) !! jobID
      = Some row'' /\ stays_set row row'').
Proof.
  intros Hrow out. split; [| split; [| split]].
  - subst out. unfold UpdateJobProgress. rewrite Hrow.
    destruct (job_transcript_id (updated_row row status progress tc cc res tid))
      as [t|] eqn:Et.
    + case_bool_decide as Hin; [| case_bool_decide as Hsame].
      * cbn [fst snd with_jobs processing_jobs]. rewrite lookup_insert_eq.
        eexists. split; [reflexivity |]. cbn.
        repeat split; try (intros ->; reflexivity); apply COALESCE_stays.
      * cbn [fst snd with_jobs processing_jobs]. rewrite lookup_insert_eq.
        eexists. split; [reflexivity |]. cbn.
        repeat split; try (intros ->; reflexivity); apply COALESCE_stays.
      * cbn [fst snd]. exists row. split; [exact Hrow |].
        repeat split; try reflexivity; try discriminate; try tauto.
        intros ->. cbn in Et, Hsame. congruence.
    + cbn [fst snd with_jobs processing_jobs]. rewrite lookup_insert_eq.
      eexists. split; [reflexivity |]. cbn.
      repeat split; try (intros ->; reflexivity); apply COALESCE_stays.
  - intros other Hne. now apply UpdateJobProgress_other.
  - subst out.
    destruct (UpdateJobProgress_tables db jobID status progress tc cc res tid)
      as (_ & Ht & _ & Hs & _). split; assumption.
  - apply (replay_stays jobID ws {| st_db := db; st_writes := [] |} row Hrow).
Qed.

Lemma UpdateJobProgress_keeps_unsupplied_witness :
  exists row',
    processing_jobs
      (fst (UpdateJobProgress
              (st_db (replay Scenario.uploaded [segmented_write Scenario.job 3]))
              1 (str "processing") 36 None (Some 1) None None)) !! 1 = Some row' /\
    job_total_chunks row' = Some 3 /\ job_status row' = str "processing" /\
    job_progress row' = 36.
Proof.
  destruct (UpdateJobProgress_keeps_unsupplied
              (st_db (replay Scenario.uploaded [segmented_write Scenario.job 3]))
              1 (row_after Scenario.pending_row [segmented_write Scenario.job 3])
              (str "processing") 36 None (Some 1) None None [] eq_refl)
    as ((row' & Hrow' & Htc & _ & _ & _ & Hsp & Hrun & _) & _).
  exists row'. split; [exact Hrow' |].
  split; [rewrite (Htc eq_refl); reflexivity |].
  exact (Hsp (Hrun eq_refl)).
Defined.

(* ===================================================================== *)
(** ** Persistence is all or nothing                                      *)
(* ===================================================================== *)

(** No temporary directory: the job fails at once, with progress 100. *)
Example temp_dir_failure :
  let final := process Scenario.queue Scenario.no_temp_dir Scenario.no_fault
                       Scenario.job Scenario.uploaded in
  List.map w_progress (st_writes final) = [10; 100] /\
  (job_status <$> job_row final Scenario.job) = Some (str "failed") /\
  (job_result <$> job_row final Scenario.job)
  = Some (Some (str "mkdir /tmp/listen-job-1: no space left on device")).
Proof. cbv zeta. repeat split; vm_compute; reflexivity. Qed.

(** A commit that fails after the transcript and two segment rows were
    written leaves no row behind, and the job fails. *)
Example commit_failure_leaves_nothing :
  let final := process Scenario.queue (Scenario.all_spoken 1) (Scenario.fault_at 6)
                       Scenario.job Scenario.uploaded in
  transcripts (st_db final) = ∅ /\
  transcript_segments (st_db final) = [] /\
  (job_status <$> job_row final Scenario.job) = Some (str "failed") /\
  (job_result <$> job_row final Scenario.job) = Some (Some (str "database is locked")).
Proof. cbv zeta. repeat split; vm_compute; reflexivity. Qed.

(** A second segment insert that fails does the same. *)
Example segment_failure_leaves_nothing :
  let final := process Scenario.queue (Scenario.all_spoken 1) (Scenario.fault_at 5)
                       Scenario.job Scenario.uploaded in
  transcripts (st_db final) = ∅ /\
  transcript_segments (st_db final) = [] /\
  (job_status <$> job_row final Scenario.job) = Some (str "failed").
Proof. cbv zeta. repeat split; vm_compute; reflexivity. Qed.

(** Without a fault the transcript and both segment rows are there. *)
Example success_commits_all :
  let final := process Scenario.queue (Scenario.all_spoken 1) Scenario.no_fault
                       Scenario.job Scenario.uploaded in
  is_Some (transcripts (st_db final) !! 1) /\
  length (transcript_segments (st_db final)) = 2%nat /\
  (job_status <$> job_row final Scenario.job) = Some (str "completed") /\
  (job_transcript_id <$> job_row final Scenario.job) = Some (Some 1).
Proof. cbv zeta. repeat split; try (vm_compute; reflexivity). vm_compute. eauto. Qed.

(* ===================================================================== *)
(** ** Checkpoints of a successful job                                    *)
(* ===================================================================== *)

Lemma wrap64_small (z : Z) : in_int z -> wrap64 z = z.
Proof.
  unfold in_int, wrap64, min_int, max_int. intros H.
  rewrite Z.mod_small; lia.
Qed.

(** The progress the worker computes for chunk [i] of [N] is
    15 + floor(65 i / N), between 15 and 80. *)
Lemma chunk_progress_formula (i N : Z) :
  1 <= i <= N -> 65 * N <= max_int ->
  chunk_progress i N = 15 + 65 * i / N /\ 15 <= 15 + 65 * i / N <= 80.
Proof.
  intros Hi HN. unfold chunk_progress, jobs.max.
  assert (Hq : 0 <= 65 * i / N <= 65).
  { split; [apply Z.div_pos; lia |].
    apply Z.div_le_upper_bound; lia. }
  unfold max_int in HN.
  rewrite (wrap64_small (65 * i)) by (unfold in_int, min_int, max_int; lia).
  replace (N <? 1) with false by (symmetry; apply Z.ltb_ge; lia).
  rewrite Z.quot_div_nonneg by lia.
  rewrite wrap64_small by (unfold in_int, min_int, max_int; lia).
  split; [reflexivity | lia].
Qed.

Lemma chunk_writes_stated (j : Job) (N : nat) :
  chunk_count_fits N ->
  chunk_writes j (Z.of_nat N) 0 N
  = List.map (fun k => stated_chunk_write j (Z.of_nat N) (1 + Z.of_nat k)) (List.seq 0 N).
Proof.
  intros Hfit. unfold chunk_writes. apply List.map_ext_in. intros k Hk.
  apply in_seq in Hk. unfold chunk_write, stated_chunk_write.
  replace (0 + 1 + Z.of_nat k) with (1 + Z.of_nat k) by lia.
  destruct (chunk_progress_formula (1 + Z.of_nat k) (Z.of_nat N)) as [-> _];
    [lia | exact Hfit | reflexivity].
Qed.

Lemma row_after_total_kept (ws : list Write) :
  Forall (fun w => w_totalChunks w = None) ws ->
  forall row, job_total_chunks (row_after row ws) = job_total_chunks row.
Proof.
  induction 1 as [|w ws Hw _ IH]; intros row; [reflexivity |].
  cbn [row_after fold_left]. fold (row_after (updated_row row (w_status w) (w_progress w)
    (w_totalChunks w) (w_currentChunk w) (w_result w) (w_transcriptID w)) ws).
  rewrite IH. cbn. now rewrite Hw.
Qed.

Lemma chunk_writes_no_total (j : Job) (N i : Z) (n : nat) :
  Forall (fun w => w_totalChunks w = None) (chunk_writes j N i n).
Proof.
  unfold chunk_writes. apply List.Forall_forall. intros w Hw.
  apply in_map_iff in Hw as (k & <- & _). reflexivity.
Qed.

Lemma stated_statuses (j : Job) (N : nat) (tid : Z) :
  List.map w_status (stated_checkpoints j N tid)
  = repeat (str "processing") (N + 3) ++ [str "completed"].
Proof.
  unfold stated_checkpoints. rewrite !List.map_app, List.map_map. cbn [List.map app].
  replace (List.map (fun k => w_status (stated_chunk_write j (Z.of_nat N) (1 + Z.of_nat k)))
                    (List.seq 0 N))
    with (repeat (str "processing") N).
  - cbn [w_status claim_write segmented_write persist_write completed_write].
    replace (N + 3)%nat with (S (S (N + 1))) by lia. cbn [repeat].
    rewrite repeat_app. cbn [repeat app]. rewrite <- app_assoc. reflexivity.
  - generalize 0%nat. induction N as [|N IH]; intros s; [reflexivity |].
    cbn [List.seq List.map repeat]. now rewrite <- IH.
Qed.

(** C4. A job whose stages all succeed writes exactly the checkpoints of
    the table, in order: processing/10; processing/15 with total_chunks
    = N; processing/15 + floor(65 i / N) with current_chunk = i for each
    chunk i of N; processing/85; completed/100 with the transcript
    reference. Its row goes pending, processing, completed and ends with
    the transcript reference set to the committed transcript. For three
    chunks the progress values are 10, 15, 36, 58, 80, 85, 100 (36 is
    the floor of 36.67, the "~37" of the scenario). *)
Theorem successful_job_checkpoints (q : Queue) (env : Env)
    (fault : nat -> option gostring) (r : Runner) (j : Job) (st : State)
    (row : JobRow) (chunks : list Chunk) (ws : list whisperJSON) (db : DB)
    (transcriptID : Z) :
  p q = Some r ->
  job_succeeds r env fault j st chunks ws db transcriptID ->
  chunk_count_fits (length chunks) ->
  job_row st j = Some row ->
  job_status row = str "pending" ->
  let final := process q env fault j st in
  let N := length chunks in
  st_writes final = st_writes st ++ stated_checkpoints j N transcriptID /\
  job_status row :: List.map w_status (stated_checkpoints j N transcriptID)
    = str "pending" :: repeat (str "processing") (N + 3) ++ [str "completed"] /\
  (exists after,
      job_row final j = Some after /\
      job_status after = str "completed" /\
      job_progress after = 100 /\
      job_transcript_id after = Some transcriptID /\
      job_total_chunks after = Some (Z.of_nat N) /\
      job_current_chunk after = Some (Z.of_nat N)) /\
  is_Some (transcripts (st_db final) !! transcriptID) /\
  (N = 3%nat ->
   List.map w_progress (stated_checkpoints j N transcriptID)
   = [10; 15; 36; 58; 80; 85; 100]).
Proof.
  intros Hq Hs Hfit Hrow Hpending final N.
  destruct (process_success_store q env fault r j st chunks ws db transcriptID Hq Hs)
    as (Ht & _ & Hw & Hr).
  fold final N in Ht, Hw, Hr.
  split; [| split; [| split; [| split]]].
  - rewrite Hw. unfold writes_before_persist, stated_checkpoints.
    rewrite (chunk_writes_stated j N Hfit).
    cbn [app]. rewrite <- ?app_assoc. cbn [app]. reflexivity.
  - now rewrite Hpending, stated_statuses.
  - rewrite (Hr row Hrow), row_after_snoc. eexists. split; [reflexivity |].
    cbn [updated_row completed_write job_status job_progress job_transcript_id
         job_total_chunks job_current_chunk w_status w_progress w_totalChunks
         w_currentChunk w_result w_transcriptID COALESCE].
    repeat split.
    unfold writes_before_persist. rewrite !row_after_app.
    rewrite row_after_total_kept by repeat constructor.
    rewrite row_after_total_kept by apply chunk_writes_no_total.
    reflexivity.
  - rewrite Ht, lookup_insert_eq. eauto.
  - intros HN. rewrite HN. reflexivity.
Qed.

Lemma successful_job_checkpoints_witness :
  let final := process Scenario.queue (Scenario.all_spoken 3) Scenario.no_fault
                       Scenario.job Scenario.uploaded in
  st_writes final = stated_checkpoints Scenario.job 3 1 /\
  List.map w_progress (st_writes final) = [10; 15; 36; 58; 80; 85; 100] /\
  (job_status <$> job_row final Scenario.job) = Some (str "completed").
Proof.
  destruct (successful_job_checkpoints Scenario.queue (Scenario.all_spoken 3)
              Scenario.no_fault Scenario.runner Scenario.job Scenario.uploaded
              Scenario.pending_row
              [Scenario.chunk_at 0; Scenario.chunk_at 1; Scenario.chunk_at 2]
              [Scenario.spoken; Scenario.spoken; Scenario.spoken]
              (Scenario.store_after
                 [Scenario.chunk_at 0; Scenario.chunk_at 1; Scenario.chunk_at 2]
                 [Scenario.spoken; Scenario.spoken; Scenario.spoken]) 1)
    as (Hw & _ & (after & Hafter & Hst & _) & _ & Hp).
  - reflexivity.
  - split; [eexists; reflexivity |]. split; [reflexivity |].
    split; [repeat constructor |]. vm_compute. reflexivity.
  - unfold chunk_count_fits, max_int. cbn. lia.
  - reflexivity.
  - reflexivity.
  - cbv zeta. split; [exact Hw |]. split.
    + rewrite Hw. exact (Hp eq_refl).
    + rewrite Hafter. cbn. now rewrite Hst.
Defined.

(* ===================================================================== *)
(** ** Progress never goes down                                           *)
(* ===================================================================== *)

Lemma last_cons_default (l : list Z) (a d : Z) : List.last (a :: l) d = List.last l a.
Proof.
  revert a d. induction l as [|b l IH]; intros a d; [reflexivity |].
  change (List.last (a :: b :: l) d) with (List.last (b :: l) d).
  now rewrite !IH.
Qed.

(** The progress of a row is that of the last write applied to it. *)
Lemma row_after_progress (ws : list Write) (row : JobRow) :
  job_progress (row_after row ws) = List.last (List.map w_progress ws) (job_progress row).
Proof.
  revert row. induction ws as [|w ws IH]; intros row; [reflexivity |].
  cbn [row_after fold_left List.map]. fold (row_after (updated_row row (w_status w)
    (w_progress w) (w_totalChunks w) (w_currentChunk w) (w_result w) (w_transcriptID w)) ws).
  now rewrite IH, last_cons_default.
Qed.

Lemma StronglySorted_app_bound (b : Z) (l1 l2 : list Z) :
  StronglySorted Z.le l1 -> StronglySorted Z.le l2 ->
  Forall (fun x => x <= b) l1 -> Forall (fun y => b <= y) l2 ->
  StronglySorted Z.le (l1 ++ l2).
Proof.
  intros H1 H2 B1 B2. induction H1 as [|x l1 Hs IH Hx]; [exact H2 |].
  inversion B1 as [|? ? Bx Bl]; subst. cbn. constructor; [now apply IH |].
  apply Forall_app. split; [exact Hx |].
  eapply List.Forall_impl; [| exact B2]. cbn. lia.
Qed.

Lemma sorted_map_seq (f : nat -> Z) (m : nat) :
  forall s,
    (forall a b, (s <= a <= b)%nat -> (b < s + m)%nat -> f a <= f b) ->
    StronglySorted Z.le (List.map f (List.seq s m)).
Proof.
  induction m as [|m IH]; intros s Hmono; [constructor |].
  cbn [List.seq List.map]. constructor.
  - apply IH. intros a b Hab Hb. apply Hmono; lia.
  - apply List.Forall_forall. intros y Hy.
    apply in_map_iff in Hy as (k & <- & Hk). apply in_seq in Hk.
    apply Hmono; lia.
Qed.

(** The progress values of the chunk writes go up from 15 to at most 80. *)
Lemma chunk_progress_sorted (j : Job) (N m : nat) :
  chunk_count_fits N -> (m <= N)%nat ->
  StronglySorted Z.le (List.map w_progress (chunk_writes j (Z.of_nat N) 0 m)) /\
  Forall (fun x => 15 <= x <= 80) (List.map w_progress (chunk_writes j (Z.of_nat N) 0 m)).
Proof.
  intros Hfit Hm. unfold chunk_writes. rewrite List.map_map. cbn [w_progress chunk_write].
  assert (Hval : forall k, (k < m)%nat ->
            chunk_progress (0 + 1 + Z.of_nat k) (Z.of_nat N)
            = 15 + 65 * (1 + Z.of_nat k) / Z.of_nat N /\
            15 <= 15 + 65 * (1 + Z.of_nat k) / Z.of_nat N <= 80).
  { intros k Hk. replace (0 + 1 + Z.of_nat k) with (1 + Z.of_nat k) by lia.
    apply chunk_progress_formula; [lia | exact Hfit]. }
  split.
  - apply sorted_map_seq. intros a b Hab Hb.
    destruct (Hval a) as [-> _]; [lia |]. destruct (Hval b) as [-> _]; [lia |].
    apply Z.add_le_mono_l, Z.div_le_mono; lia.
  - apply List.Forall_forall. intros y Hy.
    apply in_map_iff in Hy as (k & <- & Hk). apply in_seq in Hk.
    destruct (Hval k) as [-> Hb]; [lia | exact Hb].
Qed.

(** The shapes of a job's progress trace are non-decreasing from the
    initial 5. *)
Lemma progress_shape_sorted (cps tail : list Z) :
  StronglySorted Z.le cps -> Forall (fun x => 15 <= x <= 80) cps ->
  tail = [100] \/ tail = [85; 100] ->
  StronglySorted Z.le (5 :: 10 :: 15 :: cps ++ tail).
Proof.
  intros Hs Hb Ht.
  assert (Htail : StronglySorted Z.le tail /\ Forall (fun y => 80 <= y) tail).
  { destruct Ht as [-> | ->]; split; repeat constructor; lia. }
  destruct Htail as [Hts Htb].
  assert (Hall : StronglySorted Z.le (cps ++ tail)).
  { apply (StronglySorted_app_bound 80); try assumption.
    eapply List.Forall_impl; [| exact Hb]. cbn. lia. }
  assert (Hge : Forall (fun y => 15 <= y) (cps ++ tail)).
  { apply Forall_app. split.
    - eapply List.Forall_impl; [| exact Hb]. cbn. lia.
    - eapply List.Forall_impl; [| exact Htb]. cbn. lia. }
  repeat constructor; try lia; try assumption;
    (eapply List.Forall_impl; [| exact Hge]; cbn; lia).
Qed.

(** After each of its plain writes, the job's row shows the progress of
    that write. *)
Lemma prefix_rows (j : Job) (st : State) (row : JobRow) (before : list Write) :
  job_row st j = Some row ->
  Forall (plain_write j) before ->
  forall k,
    job_progress <$> job_row (replay st (firstn k before)) j
    = Some (List.last (List.map w_progress (firstn k before)) (job_progress row)).
Proof.
  intros Hrow Hplain k.
  rewrite (replay_row j (firstn k before) st row Hrow (Forall_take _ _ _ Hplain)).
  cbn. now rewrite row_after_progress.
Qed.

Lemma final_row_progress (j : Job) (final : State) (row : JobRow)
    (before : list Write) (w : Write) :
  job_row final j = Some (row_after row (before ++ [w])) ->
  job_progress <$> job_row final j = Some (w_progress w).
Proof.
  intros ->. cbn. rewrite row_after_progress, List.map_app. cbn [List.map].
  now rewrite last_last.
Qed.

(** C6. The progress values a worker writes for a job, from the initial
    value the upload handler stored on, never go down: every write
    records a value at least as large as every earlier one; and after
    each write the job's row -- what the status endpoint reads -- shows
    the value just written. *)
Theorem progress_never_decreases (q : Queue) (env : Env)
    (fault : nat -> option gostring) (j : Job) (st : State) (row : JobRow) :
  (forall r chunks, p q = Some r -> ChunkAudio r env = Ok chunks ->
                    chunk_count_fits (length chunks)) ->
  job_row st j = Some row ->
  job_progress row = initial_progress ->
  let final := process q env fault j st in
  exists before w,
    st_writes final = st_writes st ++ before ++ [w] /\
    StronglySorted Z.le (job_progress row :: List.map w_progress (before ++ [w])) /\
    (forall k,
        job_progress <$> job_row (replay st (firstn k before)) j
        = Some (List.last (List.map w_progress (firstn k before)) (job_progress row))) /\
    job_progress <$> job_row final j = Some (w_progress w).
Proof.
  intros Hfit Hrow Hp final. subst final.
  destruct (p q) as [r|] eqn:Hq.
  - destruct (process_cases env fault j r st) as [[msg Hf] | (chunks & ws & db & tid & Hs)].
    + destruct (process_stage_failure q env fault r j Hq st msg Hf)
        as (ws0 & current & Hproc & Hplain & Hshape).
      exists ws0, (failed_write j current msg).
      assert (Hall : Forall (plain_write j) (ws0 ++ [failed_write j current msg])).
      { apply Forall_app. split; [exact Hplain | repeat constructor]. }
      split; [now rewrite Hproc, replay_trace |].
      split; [| split].
      * rewrite Hp. unfold initial_progress.
        rewrite List.map_app. cbn [List.map w_progress failed_write].
        destruct Hshape as [-> | [(chunks & k & Hc & Hk & ->) | (chunks & Hc & ->)]].
        -- cbn. repeat constructor; lia.
        -- rewrite List.map_app. cbn [List.map app w_progress claim_write segmented_write].
           destruct (chunk_progress_sorted j (length chunks) (S k)
                       (Hfit r chunks eq_refl Hc)) as [Hs Hb]; [lia |].
           apply progress_shape_sorted; auto.
        -- unfold writes_before_persist. rewrite !List.map_app.
           cbn [List.map app w_progress claim_write segmented_write persist_write].
           rewrite <- app_assoc. cbn [app].
           destruct (chunk_progress_sorted j (length chunks) (length chunks)
                       (Hfit r chunks eq_refl Hc)) as [Hs Hb]; [lia |].
           apply progress_shape_sorted; auto.
      * now apply prefix_rows.
      * apply (final_row_progress j _ row ws0). rewrite Hproc.
        now apply replay_row.
    + destruct (process_success_store q env fault r j st chunks ws db tid Hq Hs)
        as (_ & _ & Hw & Hr).
      exists (writes_before_persist j (length chunks)),
             (completed_write j (Z.of_nat (length chunks)) tid).
      split; [exact Hw |]. split; [| split].
      * rewrite Hp. unfold initial_progress.
        unfold writes_before_persist. rewrite !List.map_app.
        cbn [List.map app w_progress claim_write segmented_write persist_write
             completed_write].
        rewrite <- !app_assoc. cbn [app].
        destruct Hs as (_ & Hc & _).
        destruct (chunk_progress_sorted j (length chunks) (length chunks)
                    (Hfit r chunks eq_refl Hc)) as [Hs Hb]; [lia |].
        apply progress_shape_sorted; auto.
      * apply prefix_rows; [exact Hrow |].
        apply writes_before_persist_plain.
      * apply (final_row_progress j _ row (writes_before_persist j (length chunks))).
        now apply Hr.
  - rewrite (process_not_configured q env fault j st Hq).
    exists [claim_write j], (failed_write j None (str "pipeline not configured")).
    assert (Hall : Forall (plain_write j)
              ([claim_write j] ++ [failed_write j None (str "pipeline not configured")]))
      by repeat constructor.
    split; [now rewrite replay_trace |]. split; [| split].
    + rewrite Hp. unfold initial_progress. cbn. repeat constructor; lia.
    + apply prefix_rows; [exact Hrow | repeat constructor].
    + apply (final_row_progress j _ row [claim_write j]). now apply replay_row.
Qed.

Lemma progress_never_decreases_witness :
  StronglySorted Z.le
    (5 :: List.map w_progress
            (st_writes (process Scenario.queue Scenario.second_fails Scenario.no_fault
                                Scenario.job Scenario.uploaded))) /\
  List.map w_progress
    (st_writes (process Scenario.queue Scenario.second_fails Scenario.no_fault
                        Scenario.job Scenario.uploaded))
  = [10; 15; 36; 58; 100].
Proof.
  destruct (progress_never_decreases Scenario.queue Scenario.second_fails
              Scenario.no_fault Scenario.job Scenario.uploaded Scenario.pending_row)
    as (before & w & Hw & Hs & _).
  - intros r chunks Hr Hc. injection Hr as <-.
    vm_compute in Hc. injection Hc as <-.
    unfold chunk_count_fits, max_int. cbn. lia.
  - reflexivity.
  - reflexivity.
  - cbn [st_writes Scenario.uploaded app] in Hw. rewrite Hw.
    split; [exact Hs |]. rewrite <- Hw. vm_compute. reflexivity.
Defined.

(* ===================================================================== *)
(** ** Segmentation                                                       *)
(* ===================================================================== *)

Lemma insert_sorted_length (x : gostring) (l : list gostring) :
  length (insert_sorted x l) = S (length l).
Proof.
  induction l as [|y l IH]; [reflexivity |]. cbn.
  destruct (string_ltb y x); cbn; [now rewrite IH | reflexivity].
Qed.

Lemma sort_Strings_length (l : list gostring) : length (sort_Strings l) = length l.
Proof.
  induction l as [|x l IH]; [reflexivity |]. cbn [sort_Strings fold_right].
  fold (sort_Strings l). now rewrite insert_sorted_length, IH.
Qed.

Lemma chunks_from_length (r : Runner) (matches : list gostring) :
  forall i, length (chunks_from r i matches) = length matches.
Proof. induction matches as [|p l IH]; intros i; cbn; [reflexivity | now rewrite IH]. Qed.

(** The indexes and offsets [chunkAudio] assigns, by position. *)
Lemma chunks_from_indexes (r : Runner) (matches : list gostring) :
  forall i,
    List.map chunk_Index (chunks_from r i matches)
    = List.map (fun k => i + Z.of_nat k + 1) (List.seq 0 (length matches)).
Proof.
  induction matches as [|p l IH]; intros i; [reflexivity |].
  cbn [chunks_from List.map length List.seq chunk_Index]. f_equal; [f_equal; lia |].
  rewrite IH, <- seq_shift, List.map_map. apply List.map_ext. intros k. lia.
Qed.

Lemma chunks_from_offsets (r : Runner) (matches : list gostring) :
  forall i,
    List.map chunk_Offset (chunks_from r i matches)
    = List.map (fun k => float_of_int (wrap64 ((i + Z.of_nat k) * ChunkSeconds r)))
               (List.seq 0 (length matches)).
Proof.
  induction matches as [|p l IH]; intros i; [reflexivity |].
  cbn [chunks_from List.map length List.seq chunk_Offset].
  f_equal; [do 3 f_equal; lia |].
  rewrite IH, <- seq_shift, List.map_map. apply List.map_ext. intros k.
  do 3 f_equal. lia.
Qed.

(** ceil(a / b) is the least n with a <= n b. *)
Lemma ceil_div_bounds (a b : Z) :
  0 < b -> (ceil_div a b - 1) * b < a <= ceil_div a b * b.
Proof.
  intros Hb. unfold ceil_div.
  pose proof (Z.div_mod (- a) b ltac:(lia)) as Hdm.
  pose proof (Z.mod_pos_bound (- a) b Hb) as Hm.
  nia.
Qed.

Lemma ceil_div_nonneg (a b : Z) : 0 < b -> 0 <= a -> 0 <= ceil_div a b.
Proof. intros Hb Ha. pose proof (ceil_div_bounds a b Hb). nia. Qed.

(** For a positive chunk duration D and an input of total duration L (in
    samples at 16 kHz), the chunks [chunkAudio] returns for the files of
    the segment tool number ceil(L / D) and have, by position, the
    indexes 1, 2, ... and the offsets 0, D, 2 D, ...; the tool's files
    but the last hold D seconds and the last at most D. Which file a
    position holds depends on the order of the names: for more than
    1000 files it is not the file of that number. *)
Lemma chunkAudio_positions (r : Runner) (env : Env) (L D : Z) :
  0 < D ->
  0 <= L <= max_int ->
  ChunkSeconds r = D ->
  segmented_by_tool env L D ->
  exists chunks,
    chunkAudio r env = Ok chunks /\
    length chunks = chunk_count L D /\
    Z.of_nat (length chunks) = ceil_div L (D * sample_rate) /\
    List.map chunk_Index chunks
      = List.map (fun k => Z.of_nat k + 1) (List.seq 0 (length chunks)) /\
    List.map chunk_Offset chunks
      = List.map (fun k => float_of_int (Z.of_nat k * D)) (List.seq 0 (length chunks)) /\
    (forall k, (S k < length chunks)%nat -> chunk_samples L D k = D * sample_rate) /\
    (forall k, S k = length chunks -> 0 < chunk_samples L D k <= D * sample_rate) /\
    (L = 47 * sample_rate -> D = 15 ->
     List.map chunk_Index chunks = [1; 2; 3; 4] /\
     List.map chunk_Offset chunks = [0; 15; 30; 45]%float /\
     chunk_samples L D 3 = 2 * sample_rate).
Proof.
  intros HD HL Hr (Hrun & files & Hglob & Hperm).
  assert (Hb : 0 < D * sample_rate) by (unfold sample_rate; lia).
  pose proof (ceil_div_bounds L (D * sample_rate) Hb) as Hceil.
  pose proof (ceil_div_nonneg L (D * sample_rate) Hb ltac:(lia)) as Hnn.
  assert (Hlen : length files = chunk_count L D).
  { rewrite (Permutation_length Hperm). unfold segment_tool.
    now rewrite !length_map, length_seq. }
  exists (chunks_from r 0 (sort_Strings files)).
  assert (Hlen' : length (chunks_from r 0 (sort_Strings files)) = chunk_count L D)
    by now rewrite chunks_from_length, sort_Strings_length.
  assert (Hn : Z.of_nat (chunk_count L D) = ceil_div L (D * sample_rate))
    by (unfold chunk_count; lia).
  split; [unfold chunkAudio; now rewrite Hrun, Hglob |].
  split; [exact Hlen' |]. split; [now rewrite Hlen' |].
  assert (Hidx : List.map chunk_Index (chunks_from r 0 (sort_Strings files))
                 = List.map (fun k => Z.of_nat k + 1)
                            (List.seq 0 (length (chunks_from r 0 (sort_Strings files))))).
  { rewrite chunks_from_indexes, chunks_from_length. apply List.map_ext. intros k. lia. }
  assert (Hoff : List.map chunk_Offset (chunks_from r 0 (sort_Strings files))
                 = List.map (fun k => float_of_int (Z.of_nat k * D))
                            (List.seq 0 (length (chunks_from r 0 (sort_Strings files))))).
  { rewrite chunks_from_offsets, chunks_from_length. apply List.map_ext_in.
    intros k Hk. apply in_seq in Hk. rewrite sort_Strings_length, Hlen in Hk.
    rewrite Hr. f_equal. replace (0 + Z.of_nat k) with (Z.of_nat k) by lia.
    apply wrap64_small. unfold in_int, min_int, max_int in *. unfold sample_rate in *.
    split; [nia |]. nia. }
  split; [exact Hidx |]. split; [exact Hoff |].
  rewrite Hlen'. split; [| split].
  - intros k Hk. unfold chunk_samples. apply Z.min_l. nia.
  - intros k Hk. unfold chunk_samples.
    assert (Z.of_nat k = ceil_div L (D * sample_rate) - 1) by lia.
    destruct (Z.min_spec (D * sample_rate) (L - Z.of_nat k * (D * sample_rate)))
      as [[_ ->] | [_ ->]]; nia.
  - intros -> ->. rewrite Hidx, Hoff, Hlen'.
    repeat split; vm_compute; reflexivity.
Qed.

Lemma chunkAudio_positions_47 :
  exists chunks,
    chunkAudio Scenario.runner (Scenario.all_spoken 4) = Ok chunks /\
    length chunks = 4%nat /\
    List.map chunk_Offset chunks = [0; 15; 30; 45]%float.
Proof.
  destruct (chunkAudio_positions Scenario.runner (Scenario.all_spoken 4)
              (47 * sample_rate) 15)
    as (chunks & Hc & Hlen & _ & _ & _ & _ & _ & Hsc).
  - lia.
  - unfold max_int, sample_rate. lia.
  - reflexivity.
  - split; [reflexivity |]. exists (Scenario.chunk_files 4).
    split; [reflexivity | apply Permutation_refl].
  - exists chunks. split; [exact Hc |]. split; [exact Hlen |].
    exact (proj1 (proj2 (Hsc eq_refl eq_refl))).
Defined.

(* ===================================================================== *)
(** ** Further properties: the parsers                                    *)
(* ===================================================================== *)

Import More.

(** X1. Whatever the decoded output, the segments [parseWhisperJSON]
    returns have a non-empty text without white space at either end, the
    text it returns is trimmed too, the language is never blank, and
    there are at most as many segments as raw records. *)
Theorem parseWhisperJSON_output_clean (w : whisperJSON) :
  exists segs text lang,
    parseWhisperJSON (Ok w) = Ok (segs, text, lang) /\
    Forall (fun s => seg_Text s <> [] /\ TrimSpace (seg_Text s) = seg_Text s) segs /\
    TrimSpace text = text /\
    (forall l, lang = Some l -> l <> [] /\ TrimSpace l = l) /\
    (length segs <= length (chunk_records w))%nat.
Proof.
  rewrite parseWhisperJSON_decoded. do 3 eexists. split; [reflexivity |].
  split; [| split; [| split]].
  - unfold surviving. pose proof (surviving_clean (chunk_records w)) as Hc.
    rewrite forallb_forall in Hc. apply List.Forall_forall. intros s Hs.
    specialize (Hc (seg_Text s) (in_map _ _ _ Hs)).
    unfold clean_part in Hc. apply andb_prop in Hc as [Hne Htr].
    split.
    + intros E. rewrite E in Hne. discriminate.
    + apply (trim_of_trimmed IsSpace), Htr.
  - apply chunk_text_trimmed.
  - intros l. unfold chunk_language.
    destruct (TrimSpace (wj_Language w)) as [|x t] eqn:E1.
    + destruct (wj_Result w) as [r|]; [| discriminate].
      destruct (TrimSpace (wr_Language r)) as [|y u] eqn:E2; [discriminate |].
      intros [= <-]. split; [discriminate |]. rewrite <- E2. apply TrimSpace_idempotent.
    + assert (Hl : match wj_Result w with
                   | Some _ => x :: t | None => x :: t end = x :: t)
        by (destruct (wj_Result w); reflexivity).
      destruct (wj_Result w); intros [= <-]; (split; [discriminate |]);
        rewrite <- E1; apply TrimSpace_idempotent.
  - unfold surviving. generalize (chunk_records w). intros l.
    induction l as [|s l IH]; [reflexivity |]. cbn [omap list_omap length].
    destruct (contribution s); cbn [length]; lia.
Qed.

Lemma rune_eqb_sym (a b : rune) : rune_eqb a b = rune_eqb b a.
Proof. apply N.eqb_sym. Qed.

Lemma Split_length (c : rune) (s : gostring) :
  length (Split s c) = S (count_rune c s).
Proof.
  unfold count_rune. induction s as [|r s IH]; [reflexivity |].
  cbn [Split List.filter]. rewrite (rune_eqb_sym c r).
  destruct (rune_eqb r c); cbn [length]; [now rewrite IH |].
  destruct (Split s c) as [|p ps]; cbn in *; lia.
Qed.

Lemma Contains_false_before (c : rune) (s : gostring) :
  Contains s c = false -> before_rune c s = s.
Proof.
  unfold Contains. induction s as [|r s IH]; [reflexivity |].
  cbn [existsb before_rune]. rewrite (rune_eqb_sym c r).
  destruct (rune_eqb r c); [discriminate |]. cbn. intros H. now rewrite IH.
Qed.

Lemma SplitN2_contains (c : rune) (s : gostring) :
  Contains s c = true -> exists after, SplitN2 s c = [before_rune c s; after].
Proof.
  unfold Contains. induction s as [|r s IH]; [discriminate |].
  cbn [existsb SplitN2 before_rune]. rewrite (rune_eqb_sym c r).
  destruct (rune_eqb r c); cbn [orb]; [intros _; eauto |].
  intros H. destruct (IH H) as [after ->]. eauto.
Qed.

(** The seconds field of a timestamp as [parseTimestamp] reads it: the
    text before the first '.'. *)
Lemma seconds_field (secPart : gostring) :
  fst (if Contains secPart 46%N then
         match SplitN2 secPart 46%N with
         | [a; b] => (a, b)
         | _ => (secPart, str "0")
         end
       else (secPart, str "0"))
  = before_rune 46%N secPart.
Proof.
  destruct (Contains secPart 46%N) eqn:E.
  - destruct (SplitN2_contains _ _ E) as [after ->]. reflexivity.
  - cbn. now rewrite Contains_false_before.
Qed.

(** X2. [parseTimestamp] accepts a text exactly when, once trimmed, it
    has three fields between colons, the first two are integers and the
    third is an integer up to its first '.'; whatever follows that '.'
    never causes a rejection. In particular a text that does not have
    exactly two colons is rejected. *)
Theorem parseTimestamp_accepts (v : gostring) :
  (is_Some (parseTimestamp v) <->
   exists p0 p1 p2,
     Split (TrimSpace v) 58%N = [p0; p1; p2] /\
     snd (Atoi p0) = true /\ snd (Atoi p1) = true /\
     snd (Atoi (before_rune 46%N p2)) = true) /\
  (count_rune 58%N (TrimSpace v) <> 2%nat -> parseTimestamp v = None).
Proof.
  assert (Hmain : is_Some (parseTimestamp v) <->
            exists p0 p1 p2,
              Split (TrimSpace v) 58%N = [p0; p1; p2] /\
              snd (Atoi p0) = true /\ snd (Atoi p1) = true /\
              snd (Atoi (before_rune 46%N p2)) = true).
  { unfold parseTimestamp.
    destruct (Split (TrimSpace v) 58%N) as [|p0 [|p1 [|p2 [|p3 ps]]]];
      try (split; [intros [x Hx]; discriminate
                  | intros (a & b & c & Hs & _); discriminate]).
    pose proof (seconds_field p2) as Hsec.
    destruct (Atoi p0) as [h okh] eqn:E0. destruct (Atoi p1) as [m okm] eqn:E1.
    destruct (if Contains p2 46%N then
                match SplitN2 p2 46%N with
                | [a; b] => (a, b)
                | _ => (p2, str "0")
                end
              else (p2, str "0")) as [s ms] eqn:Es.
    cbn [fst] in Hsec. subst s.
    destruct (Atoi (before_rune 46%N p2)) as [sec oks] eqn:E2.
    split.
    - intros Hsome. exists p0, p1, p2. rewrite E0, E1, E2. cbn [snd].
      destruct okh; [| destruct Hsome; discriminate].
      destruct okm; [| destruct Hsome; discriminate].
      destruct oks; [| destruct Hsome; discriminate].
      repeat split.
    - intros (a & b & c & [= <- <- <-] & Ha & Hb & Hc).
      rewrite E0 in Ha. rewrite E1 in Hb. rewrite E2 in Hc. cbn in Ha, Hb, Hc.
      subst. cbn. eauto. }
  split; [exact Hmain |].
  intros Hcount. destruct (parseTimestamp v) eqn:E; [| reflexivity].
  exfalso. apply Hcount.
  destruct (proj1 Hmain (ex_intro _ _ eq_refl)) as (p0 & p1 & p2 & Hs & _).
  pose proof (Split_length 58%N (TrimSpace v)) as Hl. rewrite Hs in Hl.
  cbn in Hl. lia.
Qed.

Example parseTimestamp_bad_fraction :
  parseTimestamp (str "00:00:07.x9") = Some 7%float.
Proof. reflexivity. Qed.

Example parseTimestamp_comma :
  parseTimestamp (str "00:00:07,500") = None.
Proof. reflexivity. Qed.

(** *** Well-formed timestamps *)

Lemma digit_cases (d : Z) :
  is_digit d ->
  d = 0 \/ d = 1 \/ d = 2 \/ d = 3 \/ d = 4 \/ d = 5 \/ d = 6 \/ d = 7 \/ d = 8 \/ d = 9.
Proof. unfold is_digit. lia. Qed.

(** A digit is no white space, colon, dot, sign or 'Z'. *)
Lemma digit_rune_plain (d : Z) :
  is_digit d ->
  IsSpace (digit_rune d) = false /\
  rune_eqb (digit_rune d) 58%N = false /\
  rune_eqb (digit_rune d) 46%N = false /\
  rune_eqb (digit_rune d) 90%N = false.
Proof.
  intros H. destruct (digit_cases d H) as [-> | [-> | [-> | [-> | [-> | [-> | [-> | [-> |
    [-> | ->]]]]]]]]]; repeat split; reflexivity.
Qed.

Lemma two_digits_are_digits (n : Z) :
  0 <= n < 100 -> is_digit (n / 10) /\ is_digit (n mod 10).
Proof.
  intros H. unfold is_digit.
  pose proof (Z.mod_pos_bound n 10 ltac:(lia)).
  pose proof (Z.div_mod n 10 ltac:(lia)). lia.
Qed.

(** [Atoi] reads back the numbers below 100 written in two digits and
    the numbers below 1000 written in three. *)
Lemma Atoi_two_digits (n : Z) : 0 <= n < 100 -> Atoi (two_digits n) = (n, true).
Proof.
  intros H.
  assert (Hall : forallb (fun k => let '(v, ok) := Atoi (two_digits (Z.of_nat k)) in
                                   ok && (v =? Z.of_nat k))
                         (List.seq 0 100) = true) by (vm_compute; reflexivity).
  rewrite forallb_forall in Hall. specialize (Hall (Z.to_nat n)).
  rewrite Z2Nat.id in Hall by lia.
  destruct (Atoi (two_digits n)) as [v ok].
  assert (Hin : In (Z.to_nat n) (List.seq 0 100)) by (apply in_seq; lia).
  apply Hall in Hin. apply andb_prop in Hin as [-> Hv].
  apply Z.eqb_eq in Hv. now subst.
Qed.

Lemma Atoi_three_digits (a b c : Z) :
  is_digit a -> is_digit b -> is_digit c ->
  Atoi [digit_rune a; digit_rune b; digit_rune c] = (100 * a + 10 * b + c, true).
Proof.
  intros Ha Hb Hc.
  destruct (digit_cases a Ha) as [-> | [-> | [-> | [-> | [-> | [-> | [-> | [-> |
    [-> | ->]]]]]]]]];
  destruct (digit_cases b Hb) as [-> | [-> | [-> | [-> | [-> | [-> | [-> | [-> |
    [-> | ->]]]]]]]]];
  destruct (digit_cases c Hc) as [-> | [-> | [-> | [-> | [-> | [-> | [-> | [-> |
    [-> | ->]]]]]]]]]; reflexivity.
Qed.

Lemma Split_none (c : rune) (s : gostring) :
  Forall (fun r => rune_eqb r c = false) s -> Split s c = [s].
Proof.
  induction 1 as [|r s Hr _ IH]; [reflexivity |].
  cbn [Split]. now rewrite Hr, IH.
Qed.

Lemma Split_field (c : rune) (a b : gostring) :
  Forall (fun r => rune_eqb r c = false) a ->
  Split (a ++ c :: b) c = a :: Split b c.
Proof.
  induction 1 as [|r a Hr _ IH]; cbn [app Split].
  - unfold rune_eqb. now rewrite N.eqb_refl.
  - now rewrite Hr, IH.
Qed.

Lemma SplitN2_field (c : rune) (a b : gostring) :
  Forall (fun r => rune_eqb r c = false) a ->
  SplitN2 (a ++ c :: b) c = [a; b] /\ Contains (a ++ c :: b) c = true.
Proof.
  unfold Contains. induction 1 as [|r a Hr _ [IH1 IH2]]; cbn [app SplitN2 existsb].
  - unfold rune_eqb. rewrite N.eqb_refl. split; reflexivity.
  - rewrite Hr, IH1, IH2. split; [reflexivity | apply orb_true_r].
Qed.

Lemma digits_plain (c : rune) (ds : list Z) :
  (c = 58%N \/ c = 46%N \/ c = 90%N) ->
  Forall is_digit ds ->
  Forall (fun r => rune_eqb r c = false) (List.map digit_rune ds).
Proof.
  intros Hc. induction 1 as [|d ds Hd _ IH]; cbn [List.map]; constructor; [| exact IH].
  destruct (digit_rune_plain d Hd) as (_ & H1 & H2 & H3).
  destruct Hc as [-> | [-> | ->]]; assumption.
Qed.

Lemma TrimRightFunc_none (f : rune -> bool) (s : gostring) :
  Forall (fun r => f r = false) s -> TrimRightFunc f s = s.
Proof.
  intros H. apply TrimRightFunc_clean. apply Forall_rev in H.
  destruct (rev s) as [|r t]; [reflexivity |].
  inversion H; subst. cbn. now apply negb_true_iff.
Qed.

(** The milliseconds [parseTimestamp] reads from a run of fraction
    digits. *)
Lemma fraction_millis (ds : list Z) :
  ds <> [] -> Forall is_digit ds ->
  (let ms := TrimRight (List.map digit_rune ds) (str "Z") in
   if is_empty ms then 0
   else
     let ms := if (3 <? length ms)%nat then firstn 3 ms else ms in
     let ms := ms ++ repeat 48%N (3 - length ms) in
     fst (Atoi ms)) = millis ds.
Proof.
  intros Hne Hds. cbv zeta. unfold TrimRight.
  rewrite TrimRightFunc_none.
  2:{ eapply List.Forall_impl; [| exact (digits_plain 90%N ds ltac:(auto) Hds)].
      intros r Hr. change (str "Z") with [90%N]. cbn [existsb]. now rewrite Hr. }
  change 48%N with (digit_rune 0).
  assert (H0 : is_digit 0) by (unfold is_digit; lia).
  destruct ds as [|a [|b [|c [|d rest]]]]; [congruence | | | |];
    repeat match goal with
           | H : Forall is_digit (_ :: _) |- _ => inversion H; subst; clear H
           end;
    cbn [List.map length is_empty Nat.ltb Nat.leb firstn Nat.sub repeat app];
    rewrite Atoi_three_digits by assumption; unfold millis; cbn [nth fst]; lia.
Qed.

(** What [parseTimestamp] returns on "HH:MM:SS" and "HH:MM:SS.f...". *)
Lemma parseTimestamp_stamp (h m s : Z) (ds : list Z) :
  0 <= h < 100 -> 0 <= m < 100 -> 0 <= s < 100 ->
  Forall is_digit ds ->
  parseTimestamp (stamp h m s) = Some (stamp_seconds h m s 0) /\
  (ds <> [] ->
   parseTimestamp (stamp_frac h m s ds) = Some (stamp_seconds h m s (millis ds))).
Proof.
  intros Hh Hm Hs Hds.
  destruct (two_digits_are_digits h Hh) as [Hh1 Hh2].
  destruct (two_digits_are_digits m Hm) as [Hm1 Hm2].
  destruct (two_digits_are_digits s Hs) as [Hs1 Hs2].
  assert (Hcolon : forall n, 0 <= n < 100 ->
            Forall (fun r => rune_eqb r 58%N = false) (two_digits n)).
  { intros n Hn. destruct (two_digits_are_digits n Hn) as [H1 H2].
    repeat constructor; [apply (digit_rune_plain _ H1) | apply (digit_rune_plain _ H2)]. }
  assert (Hdot : Forall (fun r => rune_eqb r 46%N = false) (two_digits s)).
  { repeat constructor; [apply (digit_rune_plain _ Hs1) | apply (digit_rune_plain _ Hs2)]. }
  assert (Hwrap : wrap64 (h * 3600 + m * 60 + s) = h * 3600 + m * 60 + s)
    by (apply wrap64_small; unfold in_int, min_int, max_int; lia).
  assert (Hfields : forall tail,
            Forall (fun r => rune_eqb r 58%N = false) tail ->
            Split (two_digits h ++ [58%N] ++ two_digits m ++ [58%N] ++ tail) 58%N
            = [two_digits h; two_digits m; tail]).
  { intros tail Ht. cbn [app].
    change (digit_rune (h / 10) :: digit_rune (h mod 10) :: 58%N ::
            digit_rune (m / 10) :: digit_rune (m mod 10) :: 58%N :: tail)
      with (two_digits h ++ 58%N :: (two_digits m ++ 58%N :: tail)).
    rewrite Split_field by (apply Hcolon; lia).
    rewrite Split_field by (apply Hcolon; lia).
    now rewrite Split_none. }
  split.
  - unfold parseTimestamp.
    assert (Htrim : TrimSpace (stamp h m s) = stamp h m s).
    { apply (trim_of_trimmed IsSpace). unfold Spec.trimmed, stamp. cbn.
      destruct (digit_rune_plain _ Hh1) as [-> _].
      destruct (digit_rune_plain _ Hs2) as [-> _]. reflexivity. }
    rewrite Htrim. unfold stamp.
    replace (two_digits h ++ [58%N] ++ two_digits m ++ [58%N] ++ two_digits s)
      with (two_digits h ++ [58%N] ++ two_digits m ++ [58%N] ++ two_digits s) by reflexivity.
    rewrite Hfields by (apply Hcolon; lia).
    rewrite !Atoi_two_digits by lia. cbn [negb].
    replace (Contains (two_digits s) 46%N) with false.
    2:{ unfold Contains, two_digits. cbn [existsb].
        rewrite (rune_eqb_sym 46%N), (proj1 (proj2 (proj2 (digit_rune_plain _ Hs1)))).
        rewrite (rune_eqb_sym 46%N), (proj1 (proj2 (proj2 (digit_rune_plain _ Hs2)))).
        reflexivity. }
    rewrite Atoi_two_digits by lia. cbn [negb].
    rewrite Hwrap. reflexivity.
  - intros Hne. unfold parseTimestamp.
    assert (Htrim : TrimSpace (stamp_frac h m s ds) = stamp_frac h m s ds).
    { apply (trim_of_trimmed IsSpace). unfold Spec.trimmed. apply andb_true_intro. split.
      - unfold stamp_frac, stamp. cbn. now destruct (digit_rune_plain _ Hh1) as [-> _].
      - unfold stamp_frac. rewrite !rev_app_distr.
        apply Forall_rev in Hds. rewrite <- List.map_rev.
        destruct (rev ds) as [|d t] eqn:E.
        + apply (f_equal (@rev Z)) in E. rewrite rev_involutive in E. cbn in E. congruence.
        + inversion Hds; subst. cbn. now destruct (digit_rune_plain d) as [-> _]. }
    rewrite Htrim.
    pose (tail := two_digits s ++ 46%N :: List.map digit_rune ds).
    change (stamp_frac h m s ds)
      with (two_digits h ++ [58%N] ++ two_digits m ++ [58%N] ++ tail).
    assert (Hsp : SplitN2 tail 46%N = [two_digits s; List.map digit_rune ds])
      by (apply SplitN2_field; exact Hdot).
    assert (Hct : Contains tail 46%N = true) by (apply SplitN2_field; exact Hdot).
    assert (Htail : Forall (fun r => rune_eqb r 58%N = false) tail).
    { apply Forall_app. split; [apply Hcolon; lia |]. constructor; [reflexivity |].
      apply digits_plain; auto. }
    clearbody tail.
    rewrite (Hfields tail Htail).
    rewrite !Atoi_two_digits by lia. cbn [negb].
    rewrite Hct, Hsp.
    rewrite Atoi_two_digits by lia. cbn [negb].
    rewrite Hwrap. pose proof (fraction_millis ds Hne Hds) as Hms. cbv zeta in Hms.
    unfold stamp_seconds. do 4 f_equal. exact Hms.
Qed.

Lemma timestamp_text_not_empty (h m s : Z) (ds : list Z) :
  is_empty (timestamp_text h m s ds) = false.
Proof. now destruct ds. Qed.

(** What [parseTimestamp] returns on "HH:MM:SS[.f...]". *)
Lemma parseTimestamp_timestamp_text (h m s : Z) (ds : list Z) :
  0 <= h < 100 -> 0 <= m < 100 -> 0 <= s < 100 ->
  Forall is_digit ds ->
  parseTimestamp (timestamp_text h m s ds) = Some (stamp_seconds h m s (millis ds)).
Proof.
  intros Hh Hm Hs Hds.
  destruct (parseTimestamp_stamp h m s ds Hh Hm Hs Hds) as [H0 Hf].
  destruct ds as [|d ds]; [exact H0 | now apply Hf].
Qed.

(** X3. A timestamp "HH:MM:SS" reads as HH x 3600 + MM x 60 + SS
    seconds, and "HH:MM:SS.f..." adds the milliseconds of the fraction:
    its first three digits, a shorter fraction padded with zeros on the
    right, a longer one cut. *)
Theorem parseTimestamp_canonical (h m s : Z) (ds : list Z) :
  0 <= h < 100 -> 0 <= m < 100 -> 0 <= s < 100 ->
  Forall is_digit ds ->
  parseTimestamp (stamp h m s) = Some (stamp_seconds h m s 0) /\
  (ds <> [] ->
   parseTimestamp (stamp_frac h m s ds) = Some (stamp_seconds h m s (millis ds))).
Proof.
  intros Hh Hm Hs Hds. split.
  - exact (parseTimestamp_timestamp_text h m s [] Hh Hm Hs ltac:(constructor)).
  - intros Hne. destruct ds as [|d ds]; [now destruct Hne |].
    exact (parseTimestamp_timestamp_text h m s (d :: ds) Hh Hm Hs Hds).
Qed.

Lemma parseTimestamp_canonical_witness :
  parseTimestamp (str "01:02:03") = Some 3723%float /\
  parseTimestamp (str "01:02:03.2509") = Some 3723.25%float.
Proof.
  destruct (parseTimestamp_canonical 1 2 3 [2; 5; 0; 9]) as [H1 H2];
    try lia; [repeat constructor; unfold is_digit; lia |].
  split; [exact H1 | apply H2; discriminate].
Defined.

(* ===================================================================== *)
(** ** Further properties: the configuration                              *)
(* ===================================================================== *)

Import config router.

Lemma getenvDefault_value (value def : gostring) :
  getenvDefault value def = match TrimSpace value with [] => def | v => v end.
Proof. unfold getenvDefault. now destruct (TrimSpace value). Qed.

(** A non-blank default gives a non-blank setting. *)
Lemma getenvDefault_not_blank (value def : gostring) :
  is_empty (TrimSpace def) = false ->
  is_empty (TrimSpace (getenvDefault value def)) = false.
Proof.
  intros Hdef. rewrite getenvDefault_value.
  destruct (TrimSpace value) as [|x t] eqn:E; [exact Hdef |].
  rewrite <- E, TrimSpace_idempotent, E. reflexivity.
Qed.

(** The chunk duration [FromEnv] configures is at least 1. *)
Lemma getenvIntDefault_positive_aux (value : gostring) :
  1 <= getenvIntDefault value 15.
Proof.
  unfold getenvIntDefault. destruct (TrimSpace value); [cbn; lia |].
  cbn [is_empty]. destruct (Atoi _) as [n ok]. destruct ok; cbn [negb orb]; [| lia].
  destruct (n <=? 0) eqn:E; [lia |]. apply Z.leb_gt in E. lia.
Qed.

(** X4. [getenvIntDefault] with a positive default never returns zero or
    a negative number: it returns the variable's value when that, once
    trimmed, is a decimal integer above zero, and the default in every
    other case (unset, blank, not a number, out of range, zero,
    negative). So the chunk duration [FromEnv] configures is at least 1. *)
Theorem getenvIntDefault_positive (value : gostring) (def : Z)
    (getenv : gostring -> gostring) :
  0 < def ->
  0 < getenvIntDefault value def /\
  (getenvIntDefault value def = fst (Atoi (TrimSpace value)) \/
   getenvIntDefault value def = def) /\
  (snd (Atoi (TrimSpace value)) = true -> 0 < fst (Atoi (TrimSpace value)) ->
   getenvIntDefault value def = fst (Atoi (TrimSpace value))) /\
  (snd (Atoi (TrimSpace value)) = false \/ fst (Atoi (TrimSpace value)) <= 0 ->
   getenvIntDefault value def = def) /\
  1 <= cfg_AudioChunkDurationS (FromEnv getenv).
Proof.
  intros Hdef.
  assert (Hgen : forall v d, 0 < d ->
            0 < getenvIntDefault v d /\
            (getenvIntDefault v d = fst (Atoi (TrimSpace v)) \/ getenvIntDefault v d = d) /\
            (snd (Atoi (TrimSpace v)) = true -> 0 < fst (Atoi (TrimSpace v)) ->
             getenvIntDefault v d = fst (Atoi (TrimSpace v))) /\
            (snd (Atoi (TrimSpace v)) = false \/ fst (Atoi (TrimSpace v)) <= 0 ->
             getenvIntDefault v d = d)).
  { intros v d Hd. unfold getenvIntDefault.
    destruct (TrimSpace v) as [|x t] eqn:E.
    - cbn. repeat split; auto; try lia; try discriminate.
    - cbn [is_empty]. destruct (Atoi (x :: t)) as [n ok]. cbn [fst snd].
      destruct ok; cbn [negb orb].
      + destruct (n <=? 0) eqn:En;
          [apply Z.leb_le in En | apply Z.leb_gt in En];
          repeat split; intros; auto; try lia;
          match goal with
          | H : _ \/ _ |- _ => destruct H; [discriminate | lia]
          end.
      + repeat split; intros; auto; discriminate. }
  destruct (Hgen value def Hdef) as (H1 & H2 & H3 & H4).
  split; [exact H1 |]. split; [exact H2 |]. split; [exact H3 |]. split; [exact H4 |].
  apply getenvIntDefault_positive_aux.
Qed.

Lemma getenvIntDefault_positive_witness :
  getenvIntDefault (str " 30 ") 15 = 30 /\
  getenvIntDefault (str "0") 15 = 15 /\
  getenvIntDefault (str "-5") 15 = 15 /\
  getenvIntDefault (str "15s") 15 = 15 /\
  0 < getenvIntDefault (str "99999999999999999999") 15.
Proof.
  do 4 (split; [reflexivity |]).
  apply (getenvIntDefault_positive (str "99999999999999999999") 15 (fun _ => [])).
  lia.
Defined.

Lemma firstOnPath_blank_or_usable (lookPath : gostring -> result gostring)
    (candidates : list gostring) :
  firstOnPath lookPath candidates = [] \/
  is_empty (TrimSpace (firstOnPath lookPath candidates)) = false.
Proof.
  induction candidates as [|c rest IH]; [now left |]. cbn [firstOnPath].
  destruct (is_empty (TrimSpace c)); [exact IH |].
  destruct (lookPath c) as [path|e]; [| exact IH].
  destruct (is_empty (TrimSpace path)) eqn:E; [exact IH |]. now right.
Qed.

(** X5. Whatever the process environment and whatever is on the PATH,
    the runner the router builds has a chunk duration of at least one
    second and non-blank ffmpeg and whisper paths; so [Run] rejects it
    before doing anything only when WHISPER_MODEL_PATH is unset or
    blank, and then with "WhisperModelPath is required". *)
Theorem new_runner_valid (getenv : gostring -> gostring)
    (lookPath : gostring -> result gostring) (env : Env) :
  let r := new_runner (FromEnv getenv) lookPath in
  1 <= ChunkSeconds r /\
  is_empty (TrimSpace (FFmpegPath r)) = false /\
  is_empty (TrimSpace (WhisperPath r)) = false /\
  WhisperModelPath r = TrimSpace (getenv (str "WHISPER_MODEL_PATH")) /\
  (TrimSpace (getenv (str "WHISPER_MODEL_PATH")) = [] ->
   Run r env = ([], Err (str "WhisperModelPath is required"))) /\
  (TrimSpace (getenv (str "WHISPER_MODEL_PATH")) <> [] ->
   forall msg, mkdir_temp env = Err msg -> Run r env = ([], Err msg)).
Proof.
  intros r.
  assert (Hchunk : 1 <= ChunkSeconds r).
  { apply (getenvIntDefault_positive_aux (getenv (str "AUDIO_CHUNK_DURATION"))). }
  assert (Hff : is_empty (TrimSpace (FFmpegPath r)) = false).
  { apply getenvDefault_not_blank. reflexivity. }
  assert (Hwh : is_empty (TrimSpace (WhisperPath r)) = false).
  { subst r. cbn [new_runner WhisperPath FromEnv cfg_WhisperPath].
    set (v := getenvDefault (getenv (str "WHISPER_PATH")) []).
    destruct (is_empty (TrimSpace v)) eqn:Ev.
    - destruct (firstOnPath_blank_or_usable lookPath
                  [str "whisper-cli"; str "whisper.cpp"; str "whisper-cpp"; str "whisper"])
        as [-> | H]; [reflexivity |].
      destruct (firstOnPath lookPath _) as [|x t]; [reflexivity | exact H].
    - destruct v as [|x t]; [discriminate | exact Ev]. }
  assert (Hmodel : WhisperModelPath r = TrimSpace (getenv (str "WHISPER_MODEL_PATH"))).
  { subst r. cbn [new_runner WhisperModelPath FromEnv cfg_WhisperModelPath].
    rewrite getenvDefault_value.
    now destruct (TrimSpace (getenv (str "WHISPER_MODEL_PATH"))). }
  assert (Hle : (ChunkSeconds r <=? 0) = false) by (apply Z.leb_gt; lia).
  repeat split; try assumption.
  - intros Hblank. unfold Run. rewrite Hle, Hff, Hwh, Hmodel, Hblank. reflexivity.
  - intros Hset msg Hmk. unfold Run. rewrite Hle, Hff, Hwh, Hmodel, TrimSpace_idempotent.
    destruct (TrimSpace (getenv (str "WHISPER_MODEL_PATH"))); [congruence |].
    cbn [is_empty]. now rewrite Hmk.
Qed.

Lemma new_runner_valid_witness :
  Run (new_runner (FromEnv (fun _ => [])) (fun _ => Err (str "not found")))
      (Scenario.all_spoken 1)
  = ([], Err (str "WhisperModelPath is required")).
Proof.
  apply (proj1 (proj2 (proj2 (proj2 (proj2
           (new_runner_valid (fun _ => []) (fun _ => Err (str "not found"))
                             (Scenario.all_spoken 1))))))).
  reflexivity.
Defined.

Lemma HasPrefix_app (prefix s : gostring) : HasPrefix (prefix ++ s) prefix = true.
Proof.
  induction prefix as [|p prefix IH]; [now destruct s |]. cbn.
  unfold rune_eqb. now rewrite N.eqb_refl.
Qed.

Lemma TrimPrefix_app (prefix s : gostring) : TrimPrefix (prefix ++ s) prefix = s.
Proof.
  unfold TrimPrefix. rewrite HasPrefix_app.
  induction prefix as [|p prefix IH]; [reflexivity | exact IH].
Qed.

Lemma TrimPrefix_absent (prefix s : gostring) :
  HasPrefix s prefix = false -> TrimPrefix s prefix = s.
Proof. unfold TrimPrefix. now intros ->. Qed.

Lemma TrimPrefix_not_longer (prefix s : gostring) :
  (length (TrimPrefix s prefix) <= length s)%nat.
Proof.
  unfold TrimPrefix. destruct (HasPrefix s prefix); [| lia].
  rewrite length_skipn. lia.
Qed.

(** A trimmed, non-empty text stays trimmed behind a prefix that starts
    with no white space. *)
Lemma TrimSpace_behind_prefix (c : rune) (prefix s : gostring) :
  IsSpace c = false -> s <> [] -> TrimSpace s = s ->
  TrimSpace (c :: prefix ++ s) = c :: prefix ++ s.
Proof.
  intros Hc Hne Hs. apply (trim_of_trimmed IsSpace).
  unfold Spec.trimmed. apply andb_true_intro. split; [cbn; now rewrite Hc |].
  pose proof (trim_is_trimmed IsSpace s) as Ht. fold (TrimSpace s) in Ht.
  rewrite <- TrimSpace_trim, Hs in Ht. unfold Spec.trimmed in Ht.
  apply andb_prop in Ht as [_ Ht].
  change (c :: prefix ++ s) with ((c :: prefix) ++ s). rewrite rev_app_distr.
  destruct (rev s) as [|x t] eqn:E.
  - apply (f_equal (@rev rune)) in E. rewrite rev_involutive in E. cbn in E. congruence.
  - exact Ht.
Qed.

(** X6. [normalizeSQLitePath] never returns an empty path, leaves a
    plain path as it is, and turns the SQLAlchemy URL "sqlite:///" ++ p
    into p, for every trimmed non-empty p that does not itself start
    with "sqlite://"; a blank setting, or a bare "sqlite:///", gives
    "./listen.db". *)
Theorem normalizeSQLitePath_strips_scheme (v p : gostring) :
  p <> [] -> TrimSpace p = p -> HasPrefix p (str "sqlite://") = false ->
  normalizeSQLitePath v <> [] /\
  normalizeSQLitePath p = p /\
  normalizeSQLitePath (str "sqlite:///" ++ p) = p /\
  normalizeSQLitePath [] = str "./listen.db" /\
  normalizeSQLitePath (str "sqlite:///") = str "./listen.db".
Proof.
  intros Hne Htrim Hpre.
  assert (Hpre3 : HasPrefix p (str "sqlite:///") = false).
  { destruct (HasPrefix p (str "sqlite:///")) eqn:E; [| reflexivity].
    rewrite <- Hpre. clear - E.
    change (str "sqlite:///") with (str "sqlite://" ++ [47%N]) in E.
    revert E. generalize (str "sqlite://"). intros pre. revert p.
    induction pre as [|c pre IH]; intros p E; [now destruct p |].
    destruct p as [|r p]; [cbn in E; discriminate |]. cbn in E |- *.
    apply andb_prop in E as [-> E]. now rewrite <- (IH _ E). }
  split; [| split; [| split; [| split]]]; try reflexivity.
  - unfold normalizeSQLitePath.
    destruct (TrimPrefix (TrimPrefix (TrimSpace v) (str "sqlite:///")) (str "sqlite://"));
      discriminate.
  - unfold normalizeSQLitePath. rewrite Htrim.
    rewrite (TrimPrefix_absent _ _ Hpre3), (TrimPrefix_absent _ _ Hpre).
    destruct p; [congruence | reflexivity].
  - unfold normalizeSQLitePath.
    replace (TrimSpace (str "sqlite:///" ++ p)) with (str "sqlite:///" ++ p).
    2:{ symmetry. apply (TrimSpace_behind_prefix 115%N (str "qlite:///") p); auto. }
    rewrite TrimPrefix_app, (TrimPrefix_absent _ _ Hpre).
    destruct p; [congruence | reflexivity].
Qed.

Lemma normalizeSQLitePath_strips_scheme_witness :
  normalizeSQLitePath (str "sqlite:///./listen.db") = str "./listen.db" /\
  cfg_SQLitePath (FromEnv (fun _ => [])) = str "./listen.db".
Proof.
  split; [| reflexivity].
  apply (normalizeSQLitePath_strips_scheme [] (str "./listen.db")).
  - discriminate.
  - reflexivity.
  - reflexivity.
Defined.

(** An absolute path needs four slashes, and "sqlite://" followed by a
    path that starts with a slash loses that slash. *)
Example normalizeSQLitePath_absolute :
  normalizeSQLitePath (str "sqlite:////var/lib/listen.db") = str "/var/lib/listen.db" /\
  normalizeSQLitePath (str "sqlite:///var/lib/listen.db") = str "var/lib/listen.db".
Proof. split; reflexivity. Qed.

(* ===================================================================== *)
(** ** Every job the worker handles ends in a terminal state              *)
(* ===================================================================== *)

Lemma row_after_plain_ref (j : Job) (ws : list Write) :
  Forall (plain_write j) ws ->
  forall row, job_transcript_id (row_after row ws) = job_transcript_id row.
Proof.
  induction 1 as [|w ws [_ Hw] _ IH]; intros row; [reflexivity |].
  change (row_after row (w :: ws))
    with (row_after (updated_row row (w_status w) (w_progress w) (w_totalChunks w)
                       (w_currentChunk w) (w_result w) (w_transcriptID w)) ws).
  rewrite IH. cbn. now rewrite Hw.
Qed.

Lemma row_after_conversation (ws : list Write) :
  forall row, job_conversation_id (row_after row ws) = job_conversation_id row.
Proof.
  induction ws as [|w ws IH]; intros row; [reflexivity |].
  change (row_after row (w :: ws))
    with (row_after (updated_row row (w_status w) (w_progress w) (w_totalChunks w)
                       (w_currentChunk w) (w_result w) (w_transcriptID w)) ws).
  now rewrite IH.
Qed.

(** Whatever the queue, the environment and the store do, [process] ends
    with writes that all run and a last one that marks the job failed,
    or every stage succeeded. *)
Lemma process_outcome (q : Queue) (env : Env) (fault : nat -> option gostring)
    (j : Job) (st : State) :
  (exists ws current msg,
      process q env fault j st = replay st (ws ++ [failed_write j current msg]) /\
      Forall (plain_write j) ws) \/
  (exists r chunks ws db transcriptID,
      p q = Some r /\ job_succeeds r env fault j st chunks ws db transcriptID).
Proof.
  destruct (p q) as [r|] eqn:Hq.
  - destruct (process_cases env fault j r st) as [[msg Hf] | (chunks & ws & db & tid & Hs)].
    + left. destruct (process_stage_failure q env fault r j Hq st msg Hf)
        as (ws & current & Hp & Hplain & _).
      now exists ws, current, msg.
    + right. now exists r, chunks, ws, db, tid.
  - left. exists [claim_write j], None, (str "pipeline not configured").
    split; [now apply process_not_configured | repeat constructor].
Qed.

(* ===================================================================== *)
(** ** The store operations and the constraints of the schema             *)
(* ===================================================================== *)

Import Schema.

Lemma conversation_has_transcript_false (db : DB) (c : Z) :
  conversation_has_transcript db c = false <->
  forall k row, transcripts db !! k = Some row -> tr_conversation_id row <> c.
Proof.
  unfold conversation_has_transcript. split.
  - intros H k row Hk Hc.
    assert (Hin : In (k, row) (map_to_list (transcripts db))).
    { apply list_elem_of_In. now apply elem_of_map_to_list. }
    assert (E : existsb (fun kv => tr_conversation_id (snd kv) =? c)
                        (map_to_list (transcripts db)) = true).
    { apply existsb_exists. exists (k, row). split; [exact Hin | cbn; lia]. }
    congruence.
  - intros H.
    destruct (existsb (fun kv => tr_conversation_id (snd kv) =? c)
                      (map_to_list (transcripts db))) eqn:E; [| reflexivity].
    apply existsb_exists in E as ([k row] & Hin & Hc).
    apply list_elem_of_In, elem_of_map_to_list in Hin.
    cbn in Hc. apply Z.eqb_eq in Hc. now destruct (H k row Hin).
Qed.

Lemma consistent_with_jobs (db : DB) (jobID : Z) (row row' : JobRow) :
  consistent db ->
  processing_jobs db !! jobID = Some row ->
  job_conversation_id row' = job_conversation_id row ->
  (forall t, job_transcript_id row' = Some t -> is_Some (transcripts db !! t)) ->
  consistent (with_jobs db (<[jobID := row']> (processing_jobs db))).
Proof.
  intros [H1 H2 H3 H4 H5 H6 H7] Hrow Hc Ht.
  split; cbn [with_jobs transcripts transcripts_seq conversations transcript_segments
              processing_jobs processing_jobs_seq]; try assumption.
  - intros k r Hk. destruct (decide (k = jobID)) as [-> | Hne].
    + now apply (H2 jobID row).
    + rewrite lookup_insert_ne in Hk by congruence. now apply (H2 k r).
  - intros k r c Hk Hcv. destruct (decide (k = jobID)) as [-> | Hne].
    + rewrite lookup_insert_eq in Hk. injection Hk as <-.
      apply (H6 jobID row c Hrow). congruence.
    + rewrite lookup_insert_ne in Hk by congruence. now apply (H6 k r).
  - intros k r t Hk Htr. destruct (decide (k = jobID)) as [-> | Hne].
    + rewrite lookup_insert_eq in Hk. injection Hk as <-. now apply Ht.
    + rewrite lookup_insert_ne in Hk by congruence. now apply (H7 k r).
Qed.

Lemma consistent_UpdateJobProgress (db : DB) jobID status progress tc cc res tid :
  consistent db ->
  consistent (fst (UpdateJobProgress db jobID status progress tc cc res tid)).
Proof.
  intros Hdb. unfold UpdateJobProgress.
  destruct (processing_jobs db !! jobID) as [row|] eqn:Hrow; [| exact Hdb].
  cbv zeta.
  destruct (job_transcript_id (updated_row row status progress tc cc res tid))
    as [t|] eqn:Et.
  - case_bool_decide as Hin.
    + cbn [fst]. apply (consistent_with_jobs db jobID row); auto.
      intros t' Ht'. congruence.
    + case_bool_decide as Hsame; [| exact Hdb].
      cbn [fst]. apply (consistent_with_jobs db jobID row); auto.
      intros t' Ht'.
      assert (Hold : job_transcript_id row = Some t') by congruence.
      apply (job_transcript db Hdb jobID row t' Hrow Hold).
  - cbn [fst]. apply (consistent_with_jobs db jobID row); auto.
    intros t' Ht'. congruence.
Qed.

Lemma consistent_replay (ws : list Write) :
  forall st, consistent (st_db st) -> consistent (st_db (replay st ws)).
Proof.
  induction ws as [|w ws IH]; intros st Hst; [exact Hst |].
  cbn [replay fold_left]. apply IH. cbn [apply_write update st_db].
  now apply consistent_UpdateJobProgress.
Qed.

Lemma consistent_CreateJob (db : DB) (conv : Z) (jobType : gostring) (progress : Z) :
  consistent db -> consistent (fst (CreateJob db conv jobType progress)).
Proof.
  intros Hdb. unfold CreateJob. case_bool_decide as Hin; [| exact Hdb].
  destruct Hdb as [H1 H2 H3 H4 H5 H6 H7].
  split; cbn [fst transcripts transcripts_seq conversations transcript_segments
              processing_jobs processing_jobs_seq]; try assumption.
  - intros k r Hk. apply lookup_insert_Some in Hk as [[<- _] | [_ Hk]]; [lia |].
    specialize (H2 k r Hk). lia.
  - intros k r c Hk Hc. apply lookup_insert_Some in Hk as [[_ <-] | [_ Hk]].
    + cbn in Hc. congruence.
    + now apply (H6 k r).
  - intros k r t Hk Ht. apply lookup_insert_Some in Hk as [[_ <-] | [_ Hk]].
    + discriminate.
    + now apply (H7 k r).
Qed.

Lemma consistent_committed (db : DB) (row : TranscriptRow)
    (segments : list TranscriptSegmentInput) :
  consistent db ->
  tr_conversation_id row ∈ conversations db ->
  conversation_has_transcript db (tr_conversation_id row) = false ->
  consistent (committed db (Z.max (transcripts_seq db) 0 + 1) row segments).
Proof.
  intros [H1 H2 H3 H4 H5 H6 H7] Hin Hno.
  pose proof (proj1 (conversation_has_transcript_false db _) Hno) as Hfresh.
  set (id := Z.max (transcripts_seq db) 0 + 1).
  assert (Hnew : transcripts db !! id = None).
  { destruct (transcripts db !! id) as [r|] eqn:E; [| reflexivity].
    specialize (H1 id r E). unfold id in H1. lia. }
  split; cbn [committed transcripts transcripts_seq conversations transcript_segments
              processing_jobs processing_jobs_seq]; try assumption.
  - intros k r Hk. apply lookup_insert_Some in Hk as [[<- _] | [_ Hk]].
    + unfold id. lia.
    + specialize (H1 k r Hk). unfold id. lia.
  - intros k r Hk. apply lookup_insert_Some in Hk as [[_ <-] | [_ Hk]]; [exact Hin |].
    now apply (H3 k r).
  - intros k1 k2 r1 r2 Hk1 Hk2 Hc.
    apply lookup_insert_Some in Hk1 as [[<- <-] | [Hn1 Hk1]];
      apply lookup_insert_Some in Hk2 as [[<- <-] | [Hn2 Hk2]].
    + reflexivity.
    + now destruct (Hfresh k2 r2 Hk2).
    + now destruct (Hfresh k1 r1 Hk1).
    + now apply (H4 k1 k2 r1 r2).
  - apply Forall_app. split.
    + eapply Forall_impl; [exact H5 |]. intros s [r Hs]. cbn beta.
      destruct (decide (sg_transcript_id s = id)) as [-> | Hne].
      * rewrite lookup_insert_eq. eauto.
      * rewrite lookup_insert_ne by congruence. eauto.
    + unfold segment_rows. apply Forall_map. apply Forall_forall. intros seg _.
      cbn. rewrite lookup_insert_eq. eauto.
  - intros k r t Hk Ht. destruct (H7 k r t Hk Ht) as [r' Hr'].
    destruct (decide (t = id)) as [-> | Hne].
    + rewrite lookup_insert_eq. eauto.
    + rewrite lookup_insert_ne by congruence. eauto.
Qed.

(** A successful [CreateTranscriptWithSegments] got its transcript past
    the foreign key and the UNIQUE constraint. *)
Lemma CreateTranscriptWithSegments_ok (fault : nat -> option gostring) (db db' : DB)
    conv fileName text duration language model audioURL segments id :
  CreateTranscriptWithSegments fault db conv fileName text duration language
    model audioURL segments = (db', Ok id) ->
  conv ∈ conversations db /\ conversation_has_transcript db conv = false.
Proof.
  unfold CreateTranscriptWithSegments. destruct (fault 0%nat); [discriminate |].
  unfold transcript_tx at 1. unfold tx_bind at 1. unfold tx_stmt at 1.
  cbn [tx_count tx_db]. destruct (fault 1%nat); [discriminate |].
  unfold insert_transcript. cbn [tr_conversation_id].
  case_bool_decide as Hin; cbn [negb]; [| discriminate].
  destruct (conversation_has_transcript db conv); [discriminate |].
  now intros _.
Qed.

Lemma consistent_CreateTranscriptWithSegments (fault : nat -> option gostring) (db : DB)
    conv fileName text duration language model audioURL segments :
  consistent db ->
  consistent (fst (CreateTranscriptWithSegments fault db conv fileName text duration
                     language model audioURL segments)).
Proof.
  intros Hdb.
  pose proof (CreateTranscriptWithSegments_atomic fault db conv fileName text duration
                language model audioURL segments) as Ha.
  destruct (CreateTranscriptWithSegments fault db conv fileName text duration
              language model audioURL segments) as [db' [id | e]] eqn:E.
  - cbv zeta in Ha. destruct Ha as [-> ->].
    destruct (CreateTranscriptWithSegments_ok fault db _ conv fileName text duration
                language model audioURL segments _ E) as [Hin Hno].
    cbn [fst]. now apply consistent_committed.
  - cbn [fst]. cbv zeta in Ha. now subst db'.
Qed.

Lemma with_jobs_id (db : DB) : with_jobs db (processing_jobs db) = db.
Proof. now destruct db. Qed.

Lemma with_jobs_twice (db : DB) (a b : gmap Z JobRow) :
  with_jobs (with_jobs db a) b = with_jobs db b.
Proof. reflexivity. Qed.

(** [UpdateJobProgress] alters the row of its job and nothing else. *)
Lemma UpdateJobProgress_alter (db : DB) jobID status progress tc cc res tid :
  fst (UpdateJobProgress db jobID status progress tc cc res tid)
  = with_jobs db (alter (update_step (transcripts db) status progress tc cc res tid)
                        jobID (processing_jobs db)).
Proof.
  unfold UpdateJobProgress.
  destruct (processing_jobs db !! jobID) as [row|] eqn:Hrow.
  - assert (Hins : forall row',
               update_step (transcripts db) status progress tc cc res tid row = row' ->
               with_jobs db (<[jobID := row']> (processing_jobs db))
               = with_jobs db (alter (update_step (transcripts db) status progress
                                                  tc cc res tid)
                                     jobID (processing_jobs db))).
    { intros row' <-. f_equal. apply map_eq. intros k.
      destruct (decide (k = jobID)) as [-> | Hne].
      - now rewrite lookup_insert_eq, lookup_alter_eq, Hrow.
      - rewrite lookup_insert_ne, lookup_alter_ne by congruence. reflexivity. }
    assert (Hkeep : update_step (transcripts db) status progress tc cc res tid row = row ->
               db = with_jobs db (alter (update_step (transcripts db) status progress
                                                     tc cc res tid)
                                        jobID (processing_jobs db))).
    { intros E. rewrite alter_id; [now rewrite with_jobs_id |].
      intros x Hx. congruence. }
    cbv zeta. unfold update_step in Hins, Hkeep. cbv zeta in Hins, Hkeep.
    destruct (job_transcript_id (updated_row row status progress tc cc res tid)) as [t|].
    + destruct (bool_decide (is_Some (transcripts db !! t))); [now apply Hins |].
      destruct (bool_decide (Some t = job_transcript_id row));
        [now apply Hins | now apply Hkeep].
    + now apply Hins.
  - cbn [fst]. rewrite alter_id'; [now rewrite with_jobs_id | exact Hrow].
Qed.

Lemma update_step_plain (trs : gmap Z TranscriptRow) status progress tc cc res row :
  update_step trs status progress tc cc res None row
  = updated_row row status progress tc cc res None.
Proof.
  unfold update_step. cbv zeta.
  destruct (job_transcript_id (updated_row row status progress tc cc res None))
    as [t|] eqn:E; [| reflexivity].
  destruct (bool_decide (is_Some (trs !! t))); [reflexivity |].
  now rewrite bool_decide_eq_true_2 by (now rewrite <- E).
Qed.

(** X8. Updates of two different jobs commute, so the order in which
    two workers write their progress does not matter; two updates of one
    job that carry no transcript reference have the effect of one, with
    the status and progress of the second and, column by column, the
    second value where there is one and else the first; and an update of
    a job that does not exist changes nothing and reports no error. *)
Theorem UpdateJobProgress_composes (db : DB) (j1 j2 : Z)
    (s1 : gostring) (p1 : Z) (tc1 cc1 : option Z) (r1 : option gostring) (t1 : option Z)
    (s2 : gostring) (p2 : Z) (tc2 cc2 : option Z) (r2 : option gostring) (t2 : option Z) :
  let U1 d := fst (UpdateJobProgress d j1 s1 p1 tc1 cc1 r1 t1) in
  let U2 d := fst (UpdateJobProgress d j2 s2 p2 tc2 cc2 r2 t2) in
  (j1 <> j2 -> U2 (U1 db) = U1 (U2 db)) /\
  (j1 = j2 -> t1 = None -> t2 = None ->
   U2 (U1 db) = fst (UpdateJobProgress db j2 s2 p2 (COALESCE tc2 tc1)
                       (COALESCE cc2 cc1) (COALESCE r2 r1) None)) /\
  (processing_jobs db !! j1 = None ->
   UpdateJobProgress db j1 s1 p1 tc1 cc1 r1 t1 = (db, None)).
Proof.
  intros U1 U2. split; [| split].
  - intros Hne. unfold U1, U2. rewrite !UpdateJobProgress_alter.
    cbn [with_jobs transcripts processing_jobs]. f_equal.
    apply alter_alter_ne. congruence.
  - intros <- -> ->. unfold U1, U2. rewrite !UpdateJobProgress_alter.
    cbn [with_jobs transcripts processing_jobs]. f_equal.
    rewrite alter_alter_eq. apply alter_ext. intros row _.
    unfold compose. rewrite !update_step_plain.
    unfold updated_row. cbn [job_conversation_id job_transcript_id job_type job_status
      job_progress job_total_chunks job_current_chunk job_result].
    f_equal; solve [reflexivity | now destruct tc2 | now destruct cc2 | now destruct r2].
  - apply UpdateJobProgress_missing.
Qed.

Lemma fresh_db_consistent : consistent Scenario.fresh_db.
Proof.
  split; cbn [Scenario.fresh_db transcripts processing_jobs transcript_segments];
    try (intros *; rewrite lookup_empty; discriminate).
  constructor.
Qed.

(** X9. On a store that meets the constraints of the schema, [CreateJob]
    for an unknown conversation fails on the foreign key and changes
    nothing; for a known one it returns an id above the counter that no
    row had, under which [GetJobByID] then reports a pending job with the
    given progress and conversation and nothing else set, every other
    job reading as before; the store still meets the constraints. *)
Theorem CreateJob_round_trip (db : DB) (conv : Z) (jobType : gostring) (progress : Z) :
  consistent db ->
  let out := CreateJob db conv jobType progress in
  consistent (fst out) /\
  (conv ∉ conversations db -> out = (db, Err (str "FOREIGN KEY constraint failed"))) /\
  (conv ∈ conversations db ->
   exists id,
     snd out = Ok id /\
     processing_jobs_seq db < id /\
     GetJobByID db id = Err (str "sql: no rows in result set") /\
     GetJobByID (fst out) id
     = Ok {| pj_ID := id; pj_Status := str "pending"; pj_Progress := progress;
             pj_TotalChunks := None; pj_CurrentChunk := None;
             pj_ConversationID := Some conv; pj_TranscriptID := None;
             pj_Error := None;
             pj_Message := Some (str "Job status: " ++ str "pending") |} /\
     (forall other, other <> id -> GetJobByID (fst out) other = GetJobByID db other) /\
     transcripts (fst out) = transcripts db /\
     transcript_segments (fst out) = transcript_segments db).
Proof.
  intros Hdb out. split; [now apply consistent_CreateJob |].
  subst out. unfold CreateJob. case_bool_decide as Hin.
  - split; [intros Hno; now destruct Hno |]. intros _.
    set (id := Z.max (processing_jobs_seq db) 0 + 1).
    assert (Hnew : processing_jobs db !! id = None).
    { destruct (processing_jobs db !! id) as [r|] eqn:E; [| reflexivity].
      pose proof (job_keys db Hdb id r E). unfold id in *. lia. }
    exists id. cbn [fst snd].
    split; [reflexivity |]. split; [unfold id; lia |].
    split; [unfold GetJobByID; now rewrite Hnew |].
    split; [unfold GetJobByID; cbn [processing_jobs]; now rewrite lookup_insert_eq |].
    split; [| now split].
    intros other Hne. unfold GetJobByID. cbn [processing_jobs].
    rewrite lookup_insert_ne by congruence. reflexivity.
  - split; [reflexivity |]. intros Hyes. now destruct Hin.
Qed.

Lemma CreateJob_round_trip_witness :
  exists id,
    snd (CreateJob Scenario.fresh_db 7 (str "transcription") 5) = Ok id /\
    0 < id.
Proof.
  destruct (CreateJob_round_trip Scenario.fresh_db 7 (str "transcription") 5)
    as (_ & _ & H).
  - exact fresh_db_consistent.
  - destruct H as (id & H1 & H2 & _).
    + vm_compute. reflexivity.
    + exists id. split; [exact H1 | exact H2].
Defined.

Lemma insert_segments_runs (tid : Z) (segs : list TranscriptSegmentInput) :
  forall st, exists st', insert_segments (fun _ => None) tid segs st = Ok (tt, st').
Proof.
  induction segs as [|seg segs IH]; intros st; cbn [insert_segments].
  - eexists. reflexivity.
  - destruct (is_empty (stringsTrim (Text seg))); [apply IH |].
    unfold tx_bind, tx_stmt. cbn. apply IH.
Qed.

(** With no statement failing, a transcript that passes the foreign key
    and the UNIQUE constraint is committed. *)
Lemma CreateTranscriptWithSegments_commits (db : DB)
    conv fileName text duration language model audioURL segments :
  conv ∈ conversations db ->
  conversation_has_transcript db conv = false ->
  let id := Z.max (transcripts_seq db) 0 + 1 in
  CreateTranscriptWithSegments (fun _ => None) db conv fileName text duration
    language model audioURL segments
  = (committed db id
       {| tr_conversation_id := conv; tr_file_name := fileName;
          tr_transcript_text := text; tr_duration := duration;
          tr_language := language; tr_transcription_model := model;
          tr_audio_file_url := audioURL |} segments, Ok id).
Proof.
  intros Hin Hno id.
  pose proof (CreateTranscriptWithSegments_atomic (fun _ => None) db conv fileName text
                duration language model audioURL segments) as Ha.
  assert (Hok : exists db' id',
             CreateTranscriptWithSegments (fun _ => None) db conv fileName text duration
               language model audioURL segments = (db', Ok id')).
  { unfold CreateTranscriptWithSegments, transcript_tx.
    unfold tx_bind at 1. unfold tx_stmt at 1. cbn [tx_db tx_count].
    unfold insert_transcript. cbn [tr_conversation_id].
    rewrite (bool_decide_eq_true_2 _ Hin), Hno. cbn [negb].
    unfold tx_bind at 1. unfold tx_stmt at 1. cbn [tx_db tx_count].
    destruct (0 <? length segments)%nat.
    - unfold tx_bind at 1. unfold tx_stmt at 1. cbn [tx_db tx_count].
      unfold tx_bind at 1.
      edestruct (insert_segments_runs (Z.max (transcripts_seq db) 0 + 1) segments)
        as [st' ->].
      unfold tx_ret. eauto.
    - unfold tx_ret. eauto. }
  destruct Hok as (db' & id' & E). rewrite E in Ha |- *. cbv zeta in Ha.
  destruct Ha as [-> ->]. reflexivity.
Qed.

Lemma conversation_has_transcript_insert (db : DB) (id : Z) (row : TranscriptRow)
    (segments : list TranscriptSegmentInput) :
  conversation_has_transcript (committed db id row segments) (tr_conversation_id row)
  = true.
Proof.
  unfold conversation_has_transcript. apply existsb_exists. exists (id, row).
  split; [| cbn; lia]. apply list_elem_of_In, elem_of_map_to_list.
  cbn [committed transcripts]. apply lookup_insert_eq.
Qed.

(** X10. With no statement failing, [CreateTranscriptWithSegments] is
    refused for an unknown conversation (the foreign key) and for a
    conversation that has a transcript (the UNIQUE constraint), changing
    nothing; otherwise, for a duration and segment times that are
    numbers, it returns the next id of the counter, stores the
    transcript under it and one row for each segment whose text is not
    blank, each referring to that id; and a second call for the same
    conversation, whatever else it passes, is then refused. *)
Theorem CreateTranscriptWithSegments_outcomes (db : DB) (conv : Z)
    (fileName text : gostring) (duration : option float)
    (language model : option gostring) (audioURL : gostring)
    (segments : list TranscriptSegmentInput)
    (fileName' text' : gostring) (duration' : option float)
    (language' model' : option gostring) (audioURL' : gostring)
    (segments' : list TranscriptSegmentInput) :
  let create d := CreateTranscriptWithSegments (fun _ => None) d conv fileName text
                    duration language model audioURL segments in
  let again d := CreateTranscriptWithSegments (fun _ => None) d conv fileName' text'
                   duration' language' model' audioURL' segments' in
  (conv ∉ conversations db ->
   fst (create db) = db /\ exists e, snd (create db) = Err e) /\
  (conv ∈ conversations db -> conversation_has_transcript db conv = true ->
   fst (create db) = db /\ exists e, snd (create db) = Err e) /\
  (conv ∈ conversations db -> conversation_has_transcript db conv = false ->
   forallb times_are_numbers segments = true ->
   (forall d, duration = Some d -> PrimFloat.is_nan d = false) ->
   exists id rows,
     snd (create db) = Ok id /\
     id = Z.max (transcripts_seq db) 0 + 1 /\
     transcripts (fst (create db)) !! id
     = Some {| tr_conversation_id := conv; tr_file_name := fileName;
               tr_transcript_text := text; tr_duration := duration;
               tr_language := language; tr_transcription_model := model;
               tr_audio_file_url := audioURL |} /\
     transcript_segments (fst (create db)) = transcript_segments db ++ rows /\
     List.map sg_text rows
     = List.filter (fun t => negb (is_empty (stringsTrim t))) (List.map Text segments) /\
     Forall (fun s => sg_transcript_id s = id) rows /\
     fst (again (fst (create db))) = fst (create db) /\
     exists e, snd (again (fst (create db))) = Err e).
Proof.
  intros create again. split; [| split].
  - intros Hno.
    assert (E : create db = (db, Err (str "FOREIGN KEY constraint failed"))).
    { unfold create, CreateTranscriptWithSegments, transcript_tx.
      unfold tx_bind at 1. unfold tx_stmt at 1. cbn [tx_db tx_count].
      unfold insert_transcript. cbn [tr_conversation_id].
      now rewrite (bool_decide_eq_false_2 _ Hno). }
    rewrite E. split; [reflexivity | eexists; reflexivity].
  - intros Hin Hhas.
    assert (E : create db
                = (db, Err (str "UNIQUE constraint failed: transcripts.conversation_id"))).
    { unfold create, CreateTranscriptWithSegments, transcript_tx.
      unfold tx_bind at 1. unfold tx_stmt at 1. cbn [tx_db tx_count].
      unfold insert_transcript. cbn [tr_conversation_id].
      now rewrite (bool_decide_eq_true_2 _ Hin), Hhas. }
    rewrite E. split; [reflexivity | eexists; reflexivity].
  - intros Hin Hno _ _. unfold create.
    rewrite (CreateTranscriptWithSegments_commits db conv fileName text duration
               language model audioURL segments Hin Hno).
    cbn [fst snd].
    exists (Z.max (transcripts_seq db) 0 + 1),
           (segment_rows (Z.max (transcripts_seq db) 0 + 1) segments).
    split; [reflexivity |]. split; [reflexivity |].
    split; [cbn [committed transcripts]; apply lookup_insert_eq |].
    split; [reflexivity |].
    split.
    { unfold segment_rows. rewrite List.map_map. cbn [sg_text].
      induction segments as [|seg segments IH]; [reflexivity |].
      cbn [List.filter List.map].
      destruct (negb (is_empty (stringsTrim (Text seg)))); cbn [List.map]; now rewrite IH. }
    split.
    { unfold segment_rows. apply Forall_map. apply Forall_forall. now intros seg _. }
    set (db1 := committed db (Z.max (transcripts_seq db) 0 + 1)
                  {| tr_conversation_id := conv; tr_file_name := fileName;
                     tr_transcript_text := text; tr_duration := duration;
                     tr_language := language; tr_transcription_model := model;
                     tr_audio_file_url := audioURL |} segments).
    assert (E : again db1
                = (db1, Err (str "UNIQUE constraint failed: transcripts.conversation_id"))).
    { unfold again, CreateTranscriptWithSegments, transcript_tx.
      unfold tx_bind at 1. unfold tx_stmt at 1. cbn [tx_db tx_count].
      unfold insert_transcript. cbn [tr_conversation_id].
      rewrite (bool_decide_eq_true_2 (conv ∈ conversations db1) Hin).
      cbn [negb]. unfold db1.
      now rewrite (conversation_has_transcript_insert db _
                     {| tr_conversation_id := conv; tr_file_name := fileName;
                        tr_transcript_text := text; tr_duration := duration;
                        tr_language := language; tr_transcription_model := model;
                        tr_audio_file_url := audioURL |} segments). }
    rewrite E. split; [reflexivity | eexists; reflexivity].
Qed.

(* ===================================================================== *)
(** ** What a job leaves alone                                            *)
(* ===================================================================== *)

Lemma replay_other (k : Z) (ws : list Write) :
  Forall (fun w => w_jobID w <> k) ws ->
  forall st, processing_jobs (st_db (replay st ws)) !! k = processing_jobs (st_db st) !! k.
Proof.
  induction 1 as [|w ws Hw _ IH]; intros st; [reflexivity |].
  cbn [replay fold_left]. unfold replay in IH. rewrite IH.
  cbn [apply_write update st_db]. apply UpdateJobProgress_other. congruence.
Qed.

Lemma replay_rows_exist (k : Z) (ws : list Write) :
  forall st, is_Some (processing_jobs (st_db (replay st ws)) !! k)
             <-> is_Some (processing_jobs (st_db st) !! k).
Proof.
  induction ws as [|w ws IH]; intros st; [reflexivity |].
  cbn [replay fold_left]. unfold replay in IH. rewrite IH.
  cbn [apply_write update st_db]. rewrite UpdateJobProgress_alter.
  cbn [with_jobs processing_jobs]. apply lookup_alter_is_Some.
Qed.

Lemma plain_writes_of_job (j : Job) (ws : list Write) (k : Z) :
  Forall (plain_write j) ws -> k <> JobID j -> Forall (fun w => w_jobID w <> k) ws.
Proof.
  intros H Hk. eapply Forall_impl; [exact H |]. intros w [Hw _]. congruence.
Qed.

Lemma conversation_has_transcript_ext (db db' : DB) (c : Z) :
  transcripts db' = transcripts db ->
  conversation_has_transcript db' c = conversation_has_transcript db c.
Proof. unfold conversation_has_transcript. now intros ->. Qed.

(** The store a job leaves: that of a run of its progress writes, or the
    store with one transcript committed on top of such a run. *)
Lemma process_store (q : Queue) (env : Env) (fault : nat -> option gostring)
    (j : Job) (st : State) :
  (exists ws, st_db (process q env fault j st) = st_db (replay st ws) /\
              Forall (fun w => w_jobID w = JobID j) ws) \/
  (exists r chunks ws trace,
      p q = Some r /\
      ChunkAudio r env = Ok chunks /\ Forall2 (decodes env) chunks ws /\
      ConversationID j ∈ conversations (st_db st) /\
      conversation_has_transcript (st_db st) (ConversationID j) = false /\
      let st1 := replay st (writes_before_persist j (length chunks)) in
      let tid := Z.max (transcripts_seq (st_db st)) 0 + 1 in
      st_db (process q env fault j st)
      = st_db (replay {| st_db := committed (st_db st1) tid (job_transcript_row j ws)
                                    (input_segments (merged_segments chunks ws));
                         st_writes := trace |}
                      [completed_write j (Z.of_nat (length chunks)) tid])).
Proof.
  destruct (process_outcome q env fault j st)
    as [(ws & current & msg & Hp & Hplain)
       | (r & chunks & ws & db & tid & Hq & Hs)].
  - left. exists (ws ++ [failed_write j current msg]). split; [now rewrite Hp |].
    apply Forall_app. split; [| repeat constructor].
    eapply Forall_impl; [exact Hplain |]. now intros w [Hw _].
  - right. exists r, chunks, ws.
    destruct (process_success q env fault j r Hq st chunks ws db tid Hs)
      as (Hp & Hid & Hdb).
    destruct Hs as (_ & Hc & Hd & Hpersist).
    destruct (replay_tables st (writes_before_persist j (length chunks)))
      as (Hcv & Htr & Hseq & _).
    unfold persist in Hpersist.
    apply CreateTranscriptWithSegments_ok in Hpersist as [Hin Hno].
    rewrite Hcv in Hin. rewrite (conversation_has_transcript_ext _ _ _ Htr) in Hno.
    eexists. split; [exact Hq |]. split; [exact Hc |]. split; [exact Hd |].
    split; [exact Hin |]. split; [exact Hno |].
    cbv zeta in Hp |- *. rewrite Hp, Hdb, Hid, Hseq. reflexivity.
Qed.

(** X11. On a store that meets the constraints of the schema, a job
    touches nothing but its own row and at most one new transcript:
    after [process] the store still meets the constraints, the
    conversations are the same, every other job's row is as it was, no
    job row is created or deleted, every stored transcript is still
    there unchanged, a transcript that was not there belongs to the
    job's conversation, and the segment rows are the old ones followed
    by rows of a transcript that was not there. *)
Theorem process_frame (q : Queue) (env : Env) (fault : nat -> option gostring)
    (j : Job) (st : State) :
  consistent (st_db st) ->
  let final := st_db (process q env fault j st) in
  consistent final /\
  conversations final = conversations (st_db st) /\
  (forall other, other <> JobID j ->
     processing_jobs final !! other = processing_jobs (st_db st) !! other) /\
  (forall k, is_Some (processing_jobs final !! k)
             <-> is_Some (processing_jobs (st_db st) !! k)) /\
  (forall k row, transcripts (st_db st) !! k = Some row ->
                 transcripts final !! k = Some row) /\
  (forall k row, transcripts final !! k = Some row ->
                 transcripts (st_db st) !! k = None ->
                 tr_conversation_id row = ConversationID j) /\
  (exists rows,
      transcript_segments final = transcript_segments (st_db st) ++ rows /\
      Forall (fun s => transcripts (st_db st) !! sg_transcript_id s = None) rows).
Proof.
  intros Hst final.
  destruct (process_store q env fault j st)
    as [(ws & Hp & Hws)
       | (r & chunks & ws & trace & Hq & Hc & Hd & Hin & Hno & Hp)].
  - subst final. rewrite Hp.
    destruct (replay_tables st ws) as (Hcv & Htr & _ & Hsg & _).
    split; [now apply consistent_replay |]. split; [exact Hcv |].
    split.
    { intros other Hne. apply replay_other.
      eapply Forall_impl; [exact Hws |]. intros w Hw. congruence. }
    split; [intros k; apply replay_rows_exist |].
    split; [intros k row Hk; now rewrite Htr |].
    split; [intros k row Hk Hnone; rewrite Htr in Hk; congruence |].
    exists []. split; [now rewrite Hsg, app_nil_r | constructor].
  - cbv zeta in Hp. subst final. rewrite Hp. clear Hp.
    set (N := length chunks) in *.
    set (st1 := replay st (writes_before_persist j N)).
    set (tid := Z.max (transcripts_seq (st_db st)) 0 + 1).
    set (db := committed (st_db st1) tid (job_transcript_row j ws)
                         (input_segments (merged_segments chunks ws))).
    destruct (replay_tables st (writes_before_persist j N))
      as (Hcv1 & Htr1 & Hseq1 & Hsg1 & _). fold st1 in Hcv1, Htr1, Hseq1, Hsg1.
    destruct (replay_tables {| st_db := db; st_writes := trace |}
                [completed_write j (Z.of_nat N) tid]) as (Hcv & Htr & _ & Hsg & _).
    cbn [st_db] in Hcv, Htr, Hsg.
    assert (Hst1 : consistent (st_db st1)) by now apply consistent_replay.
    assert (Hnew : transcripts (st_db st) !! tid = None).
    { destruct (transcripts (st_db st) !! tid) as [r0|] eqn:E; [| reflexivity].
      pose proof (transcript_keys _ Hst tid r0 E). unfold tid in *. lia. }
    assert (Hdb : consistent db).
    { unfold db, tid. rewrite <- Hseq1.
      apply (consistent_committed (st_db st1) (job_transcript_row j ws)); auto.
      - cbn [job_transcript_row tr_conversation_id]. now rewrite Hcv1.
      - cbn [job_transcript_row tr_conversation_id].
        now rewrite (conversation_has_transcript_ext _ _ _ Htr1). }
    split; [now apply (consistent_replay _ {| st_db := db; st_writes := trace |}) |].
    split; [rewrite Hcv; unfold db; cbn [committed conversations]; exact Hcv1 |].
    split.
    { intros other Hne.
      rewrite (replay_other other [completed_write j (Z.of_nat N) tid])
        by (repeat constructor; cbn; congruence).
      cbn [st_db]. unfold db. cbn [committed processing_jobs]. unfold st1.
      apply replay_other. apply (plain_writes_of_job j); [| exact Hne].
      apply writes_before_persist_plain. }
    split.
    { intros k. rewrite replay_rows_exist. cbn [st_db]. unfold db.
      cbn [committed processing_jobs]. unfold st1. apply replay_rows_exist. }
    split.
    { intros k row Hk. rewrite Htr. unfold db. cbn [committed transcripts].
      rewrite Htr1, lookup_insert_ne; [exact Hk | congruence]. }
    split.
    { intros k row Hk Hnone. rewrite Htr in Hk. unfold db in Hk.
      cbn [committed transcripts] in Hk. rewrite Htr1 in Hk.
      apply lookup_insert_Some in Hk as [[_ <-] | [_ Hk]]; [reflexivity | congruence]. }
    exists (segment_rows tid (input_segments (merged_segments chunks ws))).
    split.
    { rewrite Hsg. unfold db. cbn [committed transcript_segments]. now rewrite Hsg1. }
    unfold segment_rows. apply Forall_map. apply Forall_forall. now intros seg _.
Qed.

Lemma process_frame_witness :
  conversations (st_db (process Scenario.queue (Scenario.all_spoken 3) Scenario.no_fault
                                Scenario.job
                                {| st_db := Scenario.fresh_db; st_writes := [] |}))
  = conversations Scenario.fresh_db.
Proof.
  apply (process_frame Scenario.queue (Scenario.all_spoken 3) Scenario.no_fault
                       Scenario.job {| st_db := Scenario.fresh_db; st_writes := [] |}).
  exact fresh_db_consistent.
Defined.

(* ===================================================================== *)
(** ** The outcomes of [Run]                                              *)
(* ===================================================================== *)

Lemma is_empty_false (s : gostring) : is_empty s = false <-> s <> [].
Proof. destruct s; cbn; split; congruence. Qed.

Lemma length_eqb_0 {A} (l : list A) : (length l =? 0)%nat = false <-> l <> [].
Proof. destruct l; cbn; split; congruence. Qed.

(** The chunk loop of [Run] when a chunk fails after chunks that decode. *)
Lemma run_chunks_fails (r : Runner) (env : Env) (pre : list Chunk)
    (ws : list whisperJSON) (ch : Chunk) (post : list Chunk) (msg : gostring) :
  Forall2 (decodes env) pre ws ->
  transcribeChunk r env (chunk_Path ch) = Err msg ->
  forall all parts lang,
    run_chunks r env (pre ++ ch :: post) all parts lang = Err msg.
Proof.
  intros Hpre Hch. induction Hpre as [|c0 w pre ws Hd _ IH]; intros all parts lang.
  - cbn [app run_chunks]. now rewrite Hch.
  - cbn [app run_chunks]. rewrite (transcribeChunk_decodes r env c0 w Hd). apply IH.
Qed.

Lemma run_chunks_error (r : Runner) (env : Env) (chunks : list Chunk) (msg : gostring) :
  forall all parts lang,
    run_chunks r env chunks all parts lang = Err msg ->
    exists pre ch post ws,
      chunks = pre ++ ch :: post /\ Forall2 (decodes env) pre ws /\
      transcribeChunk r env (chunk_Path ch) = Err msg.
Proof.
  induction chunks as [|c chunks IH]; intros all parts lang; [discriminate |].
  cbn [run_chunks].
  destruct (transcribeChunk r env (chunk_Path c)) as [[[seg text] cl]|e] eqn:E.
  - intros H. apply IH in H as (pre & ch & post & ws & -> & Hpre & Hch).
    apply transcribeChunk_ok in E as [w Hw].
    exists (c :: pre), ch, post, (w :: ws). repeat split; [now constructor | exact Hch].
  - intros [= ->]. exists [], c, chunks, []. repeat split; [constructor | exact E].
Qed.

Lemma Run_characterised (r : Runner) (env : Env) (chunks : list Chunk) (res : Result) :
  Run r env = (chunks, Ok res) <->
  Run_accepts r /\ (exists workDir, mkdir_temp env = Ok workDir) /\
  chunkAudio r env = Ok chunks /\ chunks <> [] /\
  exists ws,
    Forall2 (decodes env) chunks ws /\
    res = {| res_Language := merged_language None ws;
             res_Text := transcript_text ws;
             res_Segments := merged_segments chunks ws;
             res_Duration := derive_duration (merged_segments chunks ws) |}.
Proof.
  split.
  - intros H. destruct (Run_ok r env chunks res H) as (ws & Hc & Hd & Hres).
    unfold Run in H.
    destruct (ChunkSeconds r <=? 0) eqn:E1; [discriminate |].
    destruct (is_empty (TrimSpace (FFmpegPath r))) eqn:E2; [discriminate |].
    destruct (is_empty (TrimSpace (WhisperPath r))) eqn:E3; [discriminate |].
    destruct (is_empty (TrimSpace (WhisperModelPath r))) eqn:E4; [discriminate |].
    destruct (mkdir_temp env) as [wd|e] eqn:Em; [| discriminate].
    rewrite Hc in H. destruct (length chunks =? 0)%nat eqn:El; [discriminate |].
    split.
    { unfold Run_accepts. rewrite <- !is_empty_false. repeat split; try assumption. lia. }
    split; [eauto |]. split; [exact Hc |].
    split; [now apply length_eqb_0 |]. now exists ws.
  - intros ((H1 & H2 & H3 & H4) & [wd Hm] & Hc & Hne & ws & Hd & ->).
    unfold Run. rewrite (proj2 (Z.leb_gt _ _) H1).
    rewrite (proj2 (is_empty_false _) H2), (proj2 (is_empty_false _) H3),
      (proj2 (is_empty_false _) H4).
    rewrite Hm, Hc, (proj2 (length_eqb_0 chunks) Hne).
    now rewrite (run_chunks_decodes r env chunks ws Hd).
Qed.

(** X12. [Run] succeeds exactly when the runner passes its checks, the
    temporary directory and the chunking succeed with at least one chunk
    and the engine output of every chunk decodes; its result then holds
    the first non-blank language, the chunk texts joined by a space, the
    segments moved by their chunk's offset and the duration derived from
    them. It returns a non-empty chunk list with an error only for the
    error of the first chunk whose transcription fails, and with no
    chunk at all it fails with "no chunks produced". *)
Theorem Run_outcomes (r : Runner) (env : Env) :
  (forall chunks res,
     Run r env = (chunks, Ok res) <->
     Run_accepts r /\ (exists workDir, mkdir_temp env = Ok workDir) /\
     chunkAudio r env = Ok chunks /\ chunks <> [] /\
     exists ws,
       Forall2 (decodes env) chunks ws /\
       res = {| res_Language := merged_language None ws;
                res_Text := transcript_text ws;
                res_Segments := merged_segments chunks ws;
                res_Duration := derive_duration (merged_segments chunks ws) |}) /\
  (forall chunks msg,
     Run r env = (chunks, Err msg) -> chunks <> [] ->
     chunkAudio r env = Ok chunks /\
     exists pre ch post ws,
       chunks = pre ++ ch :: post /\ Forall2 (decodes env) pre ws /\
       transcribeChunk r env (chunk_Path ch) = Err msg) /\
  (forall pre ch post ws msg workDir,
     Run_accepts r -> mkdir_temp env = Ok workDir ->
     chunkAudio r env = Ok (pre ++ ch :: post) ->
     Forall2 (decodes env) pre ws ->
     transcribeChunk r env (chunk_Path ch) = Err msg ->
     Run r env = (pre ++ ch :: post, Err msg)) /\
  (forall workDir,
     Run_accepts r -> mkdir_temp env = Ok workDir -> chunkAudio r env = Ok [] ->
     Run r env = ([], Err (str "no chunks produced"))).
Proof.
  split; [intros chunks res; apply Run_characterised |].
  split; [| split].
  - intros chunks msg H Hne. unfold Run in H.
    destruct (ChunkSeconds r <=? 0); [injection H as <- _; congruence |].
    destruct (is_empty (TrimSpace (FFmpegPath r))); [injection H as <- _; congruence |].
    destruct (is_empty (TrimSpace (WhisperPath r))); [injection H as <- _; congruence |].
    destruct (is_empty (TrimSpace (WhisperModelPath r)));
      [injection H as <- _; congruence |].
    destruct (mkdir_temp env) as [wd|e]; [| injection H as <- _; congruence].
    destruct (chunkAudio r env) as [cs|e]; [| injection H as <- _; congruence].
    destruct (length cs =? 0)%nat; [injection H as <- _; congruence |].
    destruct (run_chunks r env cs [] [] None) as [[[all parts] lang]|e] eqn:E;
      [discriminate |].
    injection H as <- <-. split; [reflexivity |].
    now apply (run_chunks_error r env cs e [] [] None).
  - intros pre ch post ws msg wd (H1 & H2 & H3 & H4) Hm Hc Hpre Hch.
    unfold Run. rewrite (proj2 (Z.leb_gt _ _) H1).
    rewrite (proj2 (is_empty_false _) H2), (proj2 (is_empty_false _) H3),
      (proj2 (is_empty_false _) H4).
    rewrite Hm, Hc. rewrite length_app. cbn [length].
    replace (length pre + S (length post) =? 0)%nat with false
      by (symmetry; apply Nat.eqb_neq; lia).
    now rewrite (run_chunks_fails r env pre ws ch post msg Hpre Hch).
  - intros wd (H1 & H2 & H3 & H4) Hm Hc.
    unfold Run. rewrite (proj2 (Z.leb_gt _ _) H1).
    rewrite (proj2 (is_empty_false _) H2), (proj2 (is_empty_false _) H3),
      (proj2 (is_empty_false _) H4).
    now rewrite Hm, Hc.
Qed.

(** In the run whose second chunk fails, [Run] returns the three chunks
    and the error of the second. *)
Example Run_second_chunk_fails :
  Run Scenario.runner Scenario.second_fails
  = ([Scenario.chunk_at 0; Scenario.chunk_at 1; Scenario.chunk_at 2],
     Err (str "whisper failed: exit status 1")).
Proof. vm_compute. reflexivity. Qed.

(* ===================================================================== *)
(** ** The worker and [Run]                                               *)
(* ===================================================================== *)

(** With no statement failing, a job on a conversation without a
    transcript whose chunks all decode succeeds. *)
Lemma job_succeeds_intro (r : Runner) (env : Env) (j : Job) (st : State)
    (workDir : gostring) (chunks : list Chunk) (ws : list whisperJSON) :
  mkdir_temp env = Ok workDir ->
  ChunkAudio r env = Ok chunks ->
  Forall2 (decodes env) chunks ws ->
  ConversationID j ∈ conversations (st_db st) ->
  conversation_has_transcript (st_db st) (ConversationID j) = false ->
  job_succeeds r env (fun _ => None) j st chunks ws
    (committed (st_db (replay st (writes_before_persist j (length chunks))))
               (Z.max (transcripts_seq (st_db st)) 0 + 1)
               (job_transcript_row j ws)
               (input_segments (merged_segments chunks ws)))
    (Z.max (transcripts_seq (st_db st)) 0 + 1).
Proof.
  intros Hm Hc Hd Hin Hno. unfold job_succeeds.
  split; [eauto |]. split; [exact Hc |]. split; [exact Hd |].
  destruct (replay_tables st (writes_before_persist j (length chunks)))
    as (Hcv & Htr & Hseq & _).
  unfold persist. rewrite CreateTranscriptWithSegments_commits.
  - cbv zeta. rewrite Hseq. reflexivity.
  - now rewrite Hcv.
  - now rewrite (conversation_has_transcript_ext _ _ _ Htr).
Qed.

(** X13. When [Run] succeeds on an environment, a worker with the same
    runner, given a conversation without a transcript and a store in
    which no statement fails, commits a transcript with the text and the
    language of [Run]'s result and one segment row for each of its
    segments, in order; it stores no duration, though [Run] derives one
    whenever there is a segment. *)
Theorem process_stores_what_Run_returns (q : Queue) (env : Env) (r : Runner)
    (j : Job) (st : State) (chunks : list Chunk) (res : Result) :
  p q = Some r ->
  Run r env = (chunks, Ok res) ->
  ConversationID j ∈ conversations (st_db st) ->
  conversation_has_transcript (st_db st) (ConversationID j) = false ->
  let final := process q env (fun _ => None) j st in
  let tid := Z.max (transcripts_seq (st_db st)) 0 + 1 in
  exists trow,
    transcripts (st_db final) !! tid = Some trow /\
    tr_conversation_id trow = ConversationID j /\
    tr_transcript_text trow = res_Text res /\
    tr_language trow = res_Language res /\
    tr_duration trow = None /\
    transcript_segments (st_db final)
    = transcript_segments (st_db st) ++ List.map (segment_row tid) (res_Segments res) /\
    (res_Segments res <> [] -> is_Some (res_Duration res)).
Proof.
  intros Hq HR Hin Hno final tid.
  apply Run_characterised in HR as (_ & [wd Hm] & Hc & _ & ws & Hd & ->).
  pose proof (job_succeeds_intro r env j st wd chunks ws Hm Hc Hd Hin Hno) as Hs.
  destruct (process_success_store q env (fun _ => None) r j st chunks ws _ _ Hq Hs)
    as (Ht & Hsg & _ & _).
  fold final tid in Ht, Hsg.
  exists (job_transcript_row j ws).
  split; [rewrite Ht; apply lookup_insert_eq |].
  do 4 (split; [reflexivity |]).
  split; [exact Hsg |].
  cbn [res_Segments res_Duration]. intros Hne.
  destruct (merged_segments chunks ws); [congruence | cbn; eauto].
Qed.

Lemma process_stores_what_Run_returns_witness :
  exists trow,
    transcripts (st_db (process Scenario.queue (Scenario.all_spoken 2)
                                (fun _ => None) Scenario.job Scenario.uploaded)) !! 1
    = Some trow /\
    tr_transcript_text trow
    = str "Hello there. General remarks. Hello there. General remarks." /\
    tr_duration trow = None.
Proof.
  destruct (process_stores_what_Run_returns Scenario.queue (Scenario.all_spoken 2)
              Scenario.runner Scenario.job Scenario.uploaded
              [Scenario.chunk_at 0; Scenario.chunk_at 1]
              (match snd (Run Scenario.runner (Scenario.all_spoken 2)) with
               | Ok res => res
               | Err _ => {| res_Language := None; res_Text := [];
                             res_Segments := []; res_Duration := None |}
               end))
    as (trow & H1 & _ & H2 & _ & H3 & _).
  - reflexivity.
  - vm_compute. reflexivity.
  - vm_compute. reflexivity.
  - vm_compute. reflexivity.
  - exists trow. split; [exact H1 |]. split; [| exact H3].
    rewrite H2. vm_compute. reflexivity.
Defined.

(** X14. When the chunking succeeds with no chunk, [Run] does not
    succeed, but the worker completes the job: with no statement failing
    and a conversation without a transcript it writes the progress values
    10, 15, 85 and 100, commits a transcript with an empty text, no
    language, no duration and no segment row, and the status endpoint
    reports the job completed with 0 of 0 chunks. *)
Theorem process_without_chunks (q : Queue) (env : Env) (r : Runner) (j : Job)
    (st : State) (row : JobRow) (workDir : gostring) :
  p q = Some r ->
  mkdir_temp env = Ok workDir ->
  ChunkAudio r env = Ok [] ->
  processing_jobs (st_db st) !! JobID j = Some row ->
  ConversationID j ∈ conversations (st_db st) ->
  conversation_has_transcript (st_db st) (ConversationID j) = false ->
  let final := process q env (fun _ => None) j st in
  let tid := Z.max (transcripts_seq (st_db st)) 0 + 1 in
  (forall chunks res, Run r env <> (chunks, Ok res)) /\
  GetJobByID (st_db final) (JobID j)
  = Ok {| pj_ID := JobID j; pj_Status := str "completed"; pj_Progress := 100;
          pj_TotalChunks := Some 0; pj_CurrentChunk := Some 0;
          pj_ConversationID := job_conversation_id row;
          pj_TranscriptID := Some tid; pj_Error := None;
          pj_Message := Some (str "Job status: " ++ str "completed") |} /\
  transcripts (st_db final) !! tid
  = Some {| tr_conversation_id := ConversationID j; tr_file_name := FileName j;
            tr_transcript_text := []; tr_duration := None; tr_language := None;
            tr_transcription_model := Some (str "whisper.cpp");
            tr_audio_file_url := str "/api/audio/" ++ Itoa (ConversationID j) |} /\
  transcript_segments (st_db final) = transcript_segments (st_db st) /\
  exists ws, st_writes final = st_writes st ++ ws /\
             List.map w_progress ws = [10; 15; 85; 100].
Proof.
  intros Hq Hm Hc Hrow Hin Hno final tid.
  split.
  { intros chunks res HR. apply Run_characterised in HR as (_ & _ & Hc' & Hne & _).
    unfold ChunkAudio in Hc. congruence. }
  pose proof (job_succeeds_intro r env j st workDir [] [] Hm Hc (List.Forall2_nil _) Hin Hno)
    as Hs.
  destruct (process_success_store q env (fun _ => None) r j st [] [] _ _ Hq Hs)
    as (Ht & Hsg & Hw & Hafter).
  specialize (Hafter row Hrow). unfold job_row in Hafter.
  fold final tid in Ht, Hsg, Hw, Hafter.
  split; [unfold GetJobByID; rewrite Hafter; reflexivity |].
  split; [rewrite Ht; apply lookup_insert_eq |].
  split; [rewrite Hsg; cbn; apply app_nil_r |].
  eexists. split; [exact Hw | reflexivity].
Qed.

Lemma process_without_chunks_witness :
  exists pj,
    GetJobByID (st_db (process Scenario.queue (Scenario.all_spoken 0) (fun _ => None)
                               Scenario.job Scenario.uploaded)) 1 = Ok pj /\
    pj_Status pj = str "completed" /\ pj_TotalChunks pj = Some 0.
Proof.
  destruct (process_without_chunks Scenario.queue (Scenario.all_spoken 0)
              Scenario.runner Scenario.job Scenario.uploaded Scenario.pending_row
              (str "/tmp/listen-job-1")) as (_ & H & _).
  - reflexivity.
  - reflexivity.
  - reflexivity.
  - reflexivity.
  - vm_compute. reflexivity.
  - vm_compute. reflexivity.
  - eexists. split; [exact H |]. split; reflexivity.
Defined.

(** A job that succeeds found its conversation without a transcript. *)
Lemma job_succeeds_fresh (r : Runner) (env : Env) (fault : nat -> option gostring)
    (j : Job) (st : State) chunks ws db tid :
  job_succeeds r env fault j st chunks ws db tid ->
  ConversationID j ∈ conversations (st_db st) /\
  conversation_has_transcript (st_db st) (ConversationID j) = false.
Proof.
  intros (_ & _ & _ & Hp). unfold persist in Hp.
  apply CreateTranscriptWithSegments_ok in Hp as [Hin Hno].
  destruct (replay_tables st (writes_before_persist j (length chunks)))
    as (Hcv & Htr & _).
  rewrite Hcv in Hin. now rewrite (conversation_has_transcript_ext _ _ _ Htr) in Hno.
Qed.

(** The run of a job whose chunks all decode and whose persist fails. *)
Lemma process_persist_fails (q : Queue) (env : Env) (fault : nat -> option gostring)
    (r : Runner) (j : Job) (st : State) (workDir : gostring)
    (chunks : list Chunk) (ws : list whisperJSON) (db : DB) (msg : gostring) :
  p q = Some r ->
  mkdir_temp env = Ok workDir ->
  ChunkAudio r env = Ok chunks ->
  Forall2 (decodes env) chunks ws ->
  persist fault j (st_db (replay st (writes_before_persist j (length chunks))))
          chunks ws = (db, Err msg) ->
  process q env fault j st
  = replay st (writes_before_persist j (length chunks) ++ [failed_write j None msg]).
Proof.
  intros Hq Hm Hc Hws Hp. unfold process. rewrite Hq, Hm, Hc.
  rewrite (process_chunks_decodes env r j _ chunks ws Hws). cbn [app].
  change (update (replay (update (update st (JobID j) (str "processing") 10 None None None None)
                           (JobID j) (str "processing") 15
                           (Some (Z.of_nat (length chunks))) (Some 0) None None)
                    (chunk_writes j (Z.of_nat (length chunks)) 0 (length chunks)))
                 (JobID j) (str "processing") 85 None
                 (Some (Z.of_nat (length chunks))) None None)
    with (replay (replay (replay st [claim_write j;
                                     segmented_write j (Z.of_nat (length chunks))])
                    (chunk_writes j (Z.of_nat (length chunks)) 0 (length chunks)))
            [persist_write j (Z.of_nat (length chunks))]).
  rewrite <- !replay_app.
  change ([claim_write j; segmented_write j (Z.of_nat (length chunks))]
          ++ chunk_writes j (Z.of_nat (length chunks)) 0 (length chunks)
          ++ [persist_write j (Z.of_nat (length chunks))])
    with (writes_before_persist j (length chunks)).
  unfold persist, transcript_text in Hp. rewrite Hp.
  pose proof (CreateTranscriptWithSegments_atomic fault
    (st_db (replay st (writes_before_persist j (length chunks))))
    (ConversationID j) (FileName j)
    (Join (non_empty (List.map chunk_text ws)) (str " ")) None
    (merged_language None ws) (Some (str "whisper.cpp"))
    (str "/api/audio/" ++ Itoa (ConversationID j))
    (input_segments (merged_segments chunks ws))) as Hat.
  cbv zeta in Hat. rewrite Hp in Hat. subst db.
  rewrite replay_app.
  now destruct (replay st (writes_before_persist j (length chunks))).
Qed.

(* ===================================================================== *)
(** ** The order of the chunks                                            *)
(* ===================================================================== *)

Lemma string_ltb_irrefl (a : gostring) : string_ltb a a = false.
Proof.
  induction a as [|x a IH]; [reflexivity |]. cbn [string_ltb].
  now rewrite N.ltb_irrefl, N.eqb_refl.
Qed.

Lemma string_ltb_trans (a : gostring) :
  forall b c, string_ltb a b = true -> string_ltb b c = true -> string_ltb a c = true.
Proof.
  induction a as [|x a IH]; intros [|y b] [|z c]; cbn [string_ltb];
    try discriminate; try reflexivity.
  intros H1 H2.
  apply orb_true_iff in H1. apply orb_true_iff in H2. apply orb_true_iff.
  rewrite andb_true_iff in *. rewrite !N.ltb_lt, !N.eqb_eq in *.
  destruct H1 as [H1 | [H1 H1']], H2 as [H2 | [H2 H2']].
  - left. lia.
  - left. lia.
  - left. lia.
  - right. split; [lia | now apply (IH b c)].
Qed.

Lemma string_ltb_total (a : gostring) :
  forall b, string_ltb a b = false -> string_ltb b a = false -> a = b.
Proof.
  induction a as [|x a IH]; intros [|y b]; cbn [string_ltb];
    try discriminate; try reflexivity.
  intros H1 H2.
  apply orb_false_iff in H1 as [L1 E1]. apply orb_false_iff in H2 as [L2 E2].
  apply N.ltb_ge in L1, L2. assert (x = y) by lia. subst y.
  rewrite N.eqb_refl in E1, E2. cbn [andb] in E1, E2. f_equal. now apply IH.
Qed.

Lemma string_ltb_asym (a b : gostring) :
  string_ltb a b = true -> string_ltb b a = false.
Proof.
  intros H. destruct (string_ltb b a) eqn:E; [| reflexivity].
  pose proof (string_ltb_trans a b a H E) as Haa.
  now rewrite string_ltb_irrefl in Haa.
Qed.

Lemma string_le_trans (a b c : gostring) :
  string_ltb b a = false -> string_ltb c b = false -> string_ltb c a = false.
Proof.
  intros Hab Hbc. destruct (string_ltb c a) eqn:E; [| reflexivity].
  destruct (string_ltb a b) eqn:Eab.
  - pose proof (string_ltb_trans c a b E Eab). congruence.
  - pose proof (string_ltb_total a b Eab Hab). subst b. congruence.
Qed.

Lemma insert_sorted_perm (x : gostring) (l : list gostring) :
  Permutation (insert_sorted x l) (x :: l).
Proof.
  induction l as [|y l IH]; [reflexivity |]. cbn [insert_sorted].
  destruct (string_ltb y x); [| reflexivity].
  rewrite IH. apply perm_swap.
Qed.

Lemma sort_Strings_perm (l : list gostring) : Permutation (sort_Strings l) l.
Proof.
  induction l as [|x l IH]; [reflexivity |]. cbn [sort_Strings fold_right].
  fold (sort_Strings l). rewrite insert_sorted_perm. now constructor.
Qed.

Lemma insert_sorted_sorted (x : gostring) (l : list gostring) :
  StronglySorted (fun a b => string_ltb b a = false) l ->
  StronglySorted (fun a b => string_ltb b a = false) (insert_sorted x l).
Proof.
  induction 1 as [|y l Hl IH Hy]; cbn [insert_sorted].
  - repeat constructor.
  - destruct (string_ltb y x) eqn:E.
    + constructor; [exact IH |].
      apply (Permutation_Forall (Permutation_sym (insert_sorted_perm x l))).
      constructor; [now apply string_ltb_asym | exact Hy].
    + constructor; [now constructor |].
      constructor; [exact E |].
      eapply List.Forall_impl; [| exact Hy]. intros z Hz.
      now apply (string_le_trans x y z).
Qed.

Lemma sort_Strings_sorted (l : list gostring) :
  StronglySorted (fun a b => string_ltb b a = false) (sort_Strings l).
Proof.
  induction l as [|x l IH]; [constructor |]. cbn [sort_Strings fold_right].
  now apply insert_sorted_sorted.
Qed.

(** Two sorted lists of the same strings are the same list. *)
Lemma sorted_unique (l1 : list gostring) :
  forall l2,
    StronglySorted (fun a b => string_ltb b a = false) l1 ->
    StronglySorted (fun a b => string_ltb b a = false) l2 ->
    Permutation l1 l2 -> l1 = l2.
Proof.
  induction l1 as [|a l1 IH]; intros l2 H1 H2 Hp.
  - now apply Permutation_nil in Hp.
  - destruct l2 as [|b l2]; [now apply Permutation_sym, Permutation_nil in Hp |].
    apply StronglySorted_inv in H1 as [H1 Ha]. apply StronglySorted_inv in H2 as [H2 Hb].
    assert (Hab : a = b).
    { assert (Hin1 : In a (b :: l2)) by (apply (Permutation_in _ Hp); now left).
      assert (Hin2 : In b (a :: l1))
        by (apply (Permutation_in _ (Permutation_sym Hp)); now left).
      destruct Hin1 as [-> | Hin1]; [reflexivity |].
      destruct Hin2 as [-> | Hin2]; [reflexivity |].
      rewrite List.Forall_forall in Ha, Hb.
      symmetry. apply string_ltb_total; [now apply Ha | now apply Hb]. }
    subst b. f_equal. apply IH; auto. now apply Permutation_cons_inv in Hp.
Qed.

Lemma sort_Strings_permutation (l l' : list gostring) :
  Permutation l l' -> sort_Strings l = sort_Strings l'.
Proof.
  intros Hp. apply sorted_unique; try apply sort_Strings_sorted.
  rewrite !sort_Strings_perm. exact Hp.
Qed.

Lemma sort_Strings_of_sorted (l : list gostring) :
  StronglySorted (fun a b => string_ltb b a = false) l -> sort_Strings l = l.
Proof.
  intros H. apply sorted_unique; [apply sort_Strings_sorted | exact H |].
  apply sort_Strings_perm.
Qed.

Lemma chunks_from_paths (r : Runner) (matches : list gostring) :
  forall i, List.map chunk_Path (chunks_from r i matches) = matches.
Proof.
  induction matches as [|p l IH]; intros i; [reflexivity |].
  cbn [chunks_from List.map chunk_Path]. now rewrite IH.
Qed.

(** The names chunk-000.wav to chunk-999.wav are in increasing order. *)
Lemma chunk_files_sorted (n : nat) :
  (n <= 1000)%nat ->
  StronglySorted (fun a b => string_ltb b a = false) (List.map chunk_file (List.seq 0 n)).
Proof.
  intros Hn.
  assert (Hadj : forall k, (S k < 1000)%nat ->
                   string_ltb (chunk_file k) (chunk_file (S k)) = true).
  { assert (Hall : forallb (fun k => string_ltb (chunk_file k) (chunk_file (S k)))
                           (List.seq 0 999) = true) by (vm_compute; reflexivity).
    rewrite forallb_forall in Hall. intros k Hk. apply Hall, in_seq. lia. }
  assert (Hlt : forall d i, (i + S d < 1000)%nat ->
                  string_ltb (chunk_file i) (chunk_file (i + S d)) = true).
  { induction d as [|d IH]; intros i Hi.
    - replace (i + 1)%nat with (S i) by lia. apply Hadj. lia.
    - apply (string_ltb_trans _ (chunk_file (i + S d))); [apply IH; lia |].
      replace (i + S (S d))%nat with (S (i + S d)) by lia. apply Hadj. lia. }
  assert (Hgen : forall m s, (s + m <= 1000)%nat ->
                   StronglySorted (fun a b => string_ltb b a = false)
                                  (List.map chunk_file (List.seq s m))).
  { induction m as [|m IH]; intros s Hs; [constructor |].
    cbn [List.seq List.map]. constructor; [apply IH; lia |].
    apply List.Forall_forall. intros x Hx. apply in_map_iff in Hx as (k & <- & Hk).
    apply in_seq in Hk. apply string_ltb_asym.
    replace k with (s + S (k - S s))%nat by lia. apply Hlt. lia. }
  now apply (Hgen n 0%nat).
Qed.

(** X16. [chunkAudio] returns the same chunks whatever order the glob
    lists the files in: their paths are the files in increasing name
    order, so the index and offset of a chunk are fixed by the rank of
    its name. For up to 1000 files chunk-000.wav, chunk-001.wav, ...
    that rank is the file's number; with 1001 files it is not:
    chunk-1000.wav sorts between chunk-100.wav and chunk-101.wav and
    becomes chunk 102. *)
Theorem chunkAudio_orders_by_name (r : Runner) (env env' : Env)
    (files files' : list gostring) :
  run_ffmpeg env = None -> glob_chunks env = Ok files ->
  run_ffmpeg env' = None -> glob_chunks env' = Ok files' ->
  Permutation files files' ->
  exists chunks,
    chunkAudio r env = Ok chunks /\ chunkAudio r env' = Ok chunks /\
    Permutation (List.map chunk_Path chunks) files /\
    StronglySorted (fun a b => string_ltb b a = false) (List.map chunk_Path chunks) /\
    (forall n, (n <= 1000)%nat ->
       Permutation files (List.map chunk_file (List.seq 0 n)) ->
       List.map chunk_Path chunks = List.map chunk_file (List.seq 0 n)) /\
    (Permutation files (List.map chunk_file (List.seq 0 1001)) ->
     exists ch, nth_error chunks 101 = Some ch /\
                chunk_Path ch = chunk_file 1000 /\ chunk_Index ch = 102).
Proof.
  intros Hf Hg Hf' Hg' Hp.
  exists (chunks_from r 0 (sort_Strings files)).
  unfold chunkAudio. rewrite Hf, Hg, Hf', Hg'.
  split; [reflexivity |].
  split; [now rewrite (sort_Strings_permutation files files' Hp) |].
  rewrite chunks_from_paths.
  split; [apply sort_Strings_perm |]. split; [apply sort_Strings_sorted |].
  split.
  - intros n Hn Hpn. rewrite (sort_Strings_permutation _ _ Hpn).
    now apply sort_Strings_of_sorted, chunk_files_sorted.
  - intros Hpn. rewrite (sort_Strings_permutation _ _ Hpn).
    assert (Hs : exists pre post,
               sort_Strings (List.map chunk_file (List.seq 0 1001))
               = pre ++ chunk_file 1000 :: post /\ length pre = 101%nat).
    { exists (firstn 101 (sort_Strings (List.map chunk_file (List.seq 0 1001)))),
             (skipn 102 (sort_Strings (List.map chunk_file (List.seq 0 1001)))).
      split; vm_compute; reflexivity. }
    destruct Hs as (pre & post & -> & Hlen).
    assert (Hgen : forall i l,
               nth_error (chunks_from r i (l ++ chunk_file 1000 :: post)) (length l)
               = Some {| chunk_Path := chunk_file 1000;
                         chunk_Offset :=
                           float_of_int (wrap64 ((i + Z.of_nat (length l))
                                                 * ChunkSeconds r));
                         chunk_Index := i + Z.of_nat (length l) + 1 |}).
    { intros i l. revert i. induction l as [|x l IH]; intros i.
      - cbn [app length chunks_from nth_error].
        f_equal. f_equal; [do 3 f_equal; lia | lia].
      - cbn [app length chunks_from nth_error]. rewrite IH.
        f_equal. f_equal; [do 3 f_equal; lia | lia]. }
    specialize (Hgen 0 pre). rewrite Hlen in Hgen.
    eexists. split; [exact Hgen |]. split; reflexivity.
Qed.

Lemma chunkAudio_orders_by_name_witness :
  chunkAudio Scenario.runner (Scenario.all_spoken 3)
  = chunkAudio Scenario.runner
      {| mkdir_temp := Ok (str "/tmp/listen-job-1"); run_ffmpeg := None;
         glob_chunks := Ok (rev (Scenario.chunk_files 3));
         run_whisper := fun _ => OutputRead (Ok Scenario.spoken) |}.
Proof.
  destruct (chunkAudio_orders_by_name Scenario.runner (Scenario.all_spoken 3)
              {| mkdir_temp := Ok (str "/tmp/listen-job-1"); run_ffmpeg := None;
                 glob_chunks := Ok (rev (Scenario.chunk_files 3));
                 run_whisper := fun _ => OutputRead (Ok Scenario.spoken) |}
              (Scenario.chunk_files 3) (rev (Scenario.chunk_files 3)))
    as (chunks & H1 & H2 & _).
  - reflexivity.
  - reflexivity.
  - reflexivity.
  - reflexivity.
  - apply Permutation_rev.
  - now rewrite H1, H2.
Defined.

(* ===================================================================== *)
(** ** The worker loop                                                    *)
(* ===================================================================== *)

Lemma worker_snoc (q : Queue) (env : Job -> Env) (fault : Job -> nat -> option gostring)
    (l : list Job) (j : Job) (st : State) :
  worker q env fault (l ++ [j]) st
  = process q (env j) (fault j) j (worker q env fault l st).
Proof. unfold worker. now rewrite fold_left_app. Qed.

(* ===================================================================== *)
(** ** [stringsTrim]                                                      *)
(* ===================================================================== *)

Lemma TrimLeftFunc_split (f : rune -> bool) (s : gostring) :
  exists l, s = l ++ TrimLeftFunc f s /\ forallb f l = true.
Proof.
  induction s as [|c s (l & Hl & Hf)]; [now exists [] |]. cbn [TrimLeftFunc].
  destruct (f c) eqn:E.
  - exists (c :: l). cbn. rewrite E, <- Hl. now split.
  - now exists [].
Qed.

Lemma TrimRightFunc_split (f : rune -> bool) (s : gostring) :
  exists r, s = TrimRightFunc f s ++ r /\ forallb f r = true.
Proof.
  unfold TrimRightFunc. destruct (TrimLeftFunc_split f (rev s)) as (l & Hl & Hf).
  exists (rev l). split.
  - apply (f_equal (@rev rune)) in Hl. now rewrite rev_involutive, rev_app_distr in Hl.
  - rewrite forallb_forall in Hf |- *. intros x Hx. apply Hf. now apply in_rev.
Qed.

(** X18. [stringsTrim] removes a run of spaces, newlines, tabs and
    carriage returns at each end and nothing else: what is left neither
    starts nor ends with one of them, trimming it again changes nothing,
    and it is empty exactly when the text has no other character. A text
    it leaves empty [strings.TrimSpace] leaves empty too, but not the
    other way round: a vertical tab is white space to [TrimSpace] only. *)
Theorem stringsTrim_spec (s : gostring) :
  (exists l r, s = l ++ stringsTrim s ++ r /\
               forallb is_trim_byte l = true /\ forallb is_trim_byte r = true) /\
  starts_clean is_trim_byte (stringsTrim s) = true /\
  starts_clean is_trim_byte (rev (stringsTrim s)) = true /\
  stringsTrim (stringsTrim s) = stringsTrim s /\
  (stringsTrim s = [] <-> forallb is_trim_byte s = true) /\
  (stringsTrim s = [] -> TrimSpace s = []) /\
  (TrimSpace [11%N] = [] /\ stringsTrim [11%N] = [11%N]).
Proof.
  split.
  { unfold stringsTrim.
    destruct (TrimLeftFunc_split is_trim_byte s) as (l & Hl & Hfl).
    destruct (TrimRightFunc_split is_trim_byte (TrimLeftFunc is_trim_byte s))
      as (r & Hr & Hfr).
    exists l, r. split; [| now split]. now rewrite <- Hr. }
  pose proof (trim_is_trimmed is_trim_byte s) as Ht.
  unfold trimmed in Ht. apply andb_prop in Ht as [Ht1 Ht2].
  split; [exact Ht1 |]. split; [exact Ht2 |].
  split; [apply (trim_idempotent is_trim_byte) |].
  assert (Hempty : forall f, trim f s = [] <-> forallb f s = true).
  { intros f. rewrite <- (trim_empty f s). destruct (trim f s); cbn; split; congruence. }
  split; [apply (Hempty is_trim_byte) |].
  split; [| split; reflexivity].
  intros H. apply (Hempty IsSpace). apply (Hempty is_trim_byte) in H.
  rewrite forallb_forall in H |- *. intros x Hx. now apply is_trim_byte_IsSpace, H.
Qed.

(* ===================================================================== *)
(** ** Concrete instances                                                 *)
(* ===================================================================== *)

Lemma parseTimestamp_accepts_witness : parseTimestamp (str "12:30") = None.
Proof.
  apply (proj2 (parseTimestamp_accepts (str "12:30"))).
  vm_compute. discriminate.
Defined.

Lemma UpdateJobProgress_composes_witness :
  let db := fst (CreateJob (st_db Scenario.uploaded) 7 (str "transcription") 5) in
  fst (UpdateJobProgress
         (fst (UpdateJobProgress db 1 (str "processing") 10 None None None None))
         2 (str "failed") 100 None None (Some (str "boom")) None)
  = fst (UpdateJobProgress
           (fst (UpdateJobProgress db 2 (str "failed") 100 None None
                                   (Some (str "boom")) None))
           1 (str "processing") 10 None None None None).
Proof.
  intros db.
  apply (proj1 (UpdateJobProgress_composes db 1 2
                  (str "processing") 10 None None None None
                  (str "failed") 100 None None (Some (str "boom")) None)).
  lia.
Defined.

Lemma CreateTranscriptWithSegments_outcomes_witness :
  exists id,
    snd (CreateTranscriptWithSegments (fun _ => None) Scenario.fresh_db 7
           (str "talk.mp3") (str "hello") None None None (str "/api/audio/7")
           [{| StartTime := 0; EndTime := 1; Text := str "hello" |};
            {| StartTime := 1; EndTime := 2; Text := str "  " |}])
    = Ok id /\ id = 1.
Proof.
  destruct (proj2 (proj2 (CreateTranscriptWithSegments_outcomes Scenario.fresh_db 7
              (str "talk.mp3") (str "hello") None None None (str "/api/audio/7")
              [{| StartTime := 0; EndTime := 1; Text := str "hello" |};
               {| StartTime := 1; EndTime := 2; Text := str "  " |}]
              [] [] None None None [] [])))
    as (id & rows & H1 & H2 & _).
  - vm_compute. reflexivity.
  - vm_compute. reflexivity.
  - vm_compute. reflexivity.
  - discriminate.
  - exists id. split; [exact H1 | exact H2].
Defined.

Lemma Run_outcomes_witness :
  Run Scenario.runner (Scenario.all_spoken 0) = ([], Err (str "no chunks produced")).
Proof.
  apply (proj2 (proj2 (proj2 (Run_outcomes Scenario.runner (Scenario.all_spoken 0))))
           (str "/tmp/listen-job-1")).
  - repeat split; vm_compute; congruence.
  - reflexivity.
  - reflexivity.
Defined.

Lemma stringsTrim_spec_witness : TrimSpace (str "  ") = [].
Proof.
  apply (proj1 (proj2 (proj2 (proj2 (proj2 (proj2 (stringsTrim_spec (str "  ")))))))).
  reflexivity.
Defined.

(* ===================================================================== *)
(** ** Progress writes that are not executed                              *)
(* ===================================================================== *)

Lemma update_if_trace (executes : nat -> bool) (st : State) jobID s p tc cc res tid :
  st_writes (update_if executes st jobID s p tc cc res tid)
  = st_writes st ++ [{| w_jobID := jobID; w_status := s; w_progress := p;
                        w_totalChunks := tc; w_currentChunk := cc;
                        w_result := res; w_transcriptID := tid |}].
Proof. unfold update_if. now destruct (executes _). Qed.

Lemma update_if_all (executes : nat -> bool) (st : State) jobID s p tc cc res tid :
  (forall n, executes n = true) ->
  update_if executes st jobID s p tc cc res tid = update st jobID s p tc cc res tid.
Proof. intros H. unfold update_if. now rewrite H. Qed.

Lemma update_if_tables (executes : nat -> bool) (st a : State) jobID s p tc cc res tid :
  tables_kept st a -> tables_kept st (update_if executes a jobID s p tc cc res tid).
Proof.
  intros (H1 & H2 & H3). unfold update_if, tables_kept.
  destruct (executes _); cbn [st_db update]; [| now repeat split].
  destruct (UpdateJobProgress_tables (st_db a) jobID s p tc cc res tid)
    as (E1 & E2 & _ & E3 & _).
  cbv zeta in E1, E2, E3. now rewrite E1, E2, E3.
Qed.

Lemma update_if_agree (executes : nat -> bool) (a b : State) jobID s p tc cc res tid :
  agree a b ->
  agree (update_if executes a jobID s p tc cc res tid) (update b jobID s p tc cc res tid).
Proof.
  intros [Hw Hdb]. unfold agree. split.
  - rewrite update_if_trace. cbn [update st_writes]. now rewrite Hw.
  - unfold update_if. destruct (executes _); cbn [update st_db st_writes].
    + rewrite !UpdateJobProgress_alter. cbn [with_jobs processing_jobs].
      rewrite Hdb at 1. reflexivity.
    + rewrite UpdateJobProgress_alter. cbn [with_jobs]. rewrite Hdb at 1. reflexivity.
Qed.

Lemma agree_refl (st : State) : agree st st.
Proof. split; [reflexivity | now rewrite with_jobs_id]. Qed.

Lemma jobs_kept_refl (j : Job) (st : State) : jobs_kept j st st.
Proof.
  exists (fun row => row). split; [| now intros row].
  symmetry. now apply alter_id.
Qed.

Lemma tables_kept_refl (st : State) : tables_kept st st.
Proof. now repeat split. Qed.

Lemma update_if_jobs_kept (executes : nat -> bool) (j : Job) (st a : State)
    s p tc cc res :
  jobs_kept j st a ->
  jobs_kept j st (update_if executes a (JobID j) s p tc cc res None).
Proof.
  intros (f & Hf & Hids). unfold update_if, jobs_kept.
  destruct (executes _); cbn [update st_db]; [| now exists f].
  rewrite UpdateJobProgress_alter. cbn [with_jobs processing_jobs].
  rewrite Hf, alter_alter_eq.
  exists (update_step (transcripts (st_db a)) s p tc cc res None ∘ f).
  split; [reflexivity |]. intros row. unfold compose. rewrite update_step_plain.
  cbn [updated_row job_transcript_id job_conversation_id COALESCE]. apply Hids.
Qed.

(** The store of a state with other job rows. *)
Lemma jobs_kept_db (j : Job) (st a : State) (db : DB) (trace : list Write) :
  jobs_kept j st a -> processing_jobs db = processing_jobs (st_db a) ->
  jobs_kept j st {| st_db := db; st_writes := trace |}.
Proof. intros (f & Hf & Hids) E. exists f. cbn [st_db]. now rewrite E. Qed.

(** The chunk loop ends with kept rows and tables, or with a failure
    write on them. *)
Lemma process_chunks_under_shape (executes : nat -> bool) (env : Env) (r : Runner)
    (j : Job) (total : Z) (st : State) (chunks : list Chunk) :
  forall i a c t l,
    jobs_kept j st a -> tables_kept st a ->
    match process_chunks_under executes env r j total i chunks a c t l with
    | inl final =>
        exists a' current msg,
          jobs_kept j st a' /\ tables_kept st a' /\
          final = update_if executes a' (JobID j) (str "failed") 100 None
                            (Some current) (Some msg) None
    | inr (a', _, _, _) => jobs_kept j st a' /\ tables_kept st a'
    end.
Proof.
  induction chunks as [|ch chunks IH]; intros i a c t l Hj Ht; [now split |].
  cbn [process_chunks_under].
  pose proof (update_if_jobs_kept executes j st a (str "processing")
                (chunk_progress (i + 1) total) None (Some (i + 1)) None Hj) as Hj1.
  pose proof (update_if_tables executes st a (JobID j) (str "processing")
                (chunk_progress (i + 1) total) None (Some (i + 1)) None None Ht) as Ht1.
  destruct (TranscribeChunk r env (chunk_Path ch)) as [[[segs txt] cl]|msg].
  - apply IH; assumption.
  - eexists _, (i + 1), msg. split; [exact Hj1 |]. split; [exact Ht1 | reflexivity].
Qed.

(** [process] with any outcome of its writes ends with one last write:
    a failure write on kept rows and tables, or the completion write on
    kept rows and one new transcript of the job's conversation. *)
Lemma process_under_shape (executes : nat -> bool) (q : Queue) (env : Env)
    (fault : nat -> option gostring) (j : Job) (st : State) :
  (exists a' current msg,
      jobs_kept j st a' /\ tables_kept st a' /\
      process_under executes q env fault j st
      = update_if executes a' (JobID j) (str "failed") 100 None current (Some msg) None) \/
  (exists a' N tid trow rows,
      jobs_kept j st a' /\
      conversations (st_db a') = conversations (st_db st) /\
      transcripts (st_db a') = <[tid := trow]> (transcripts (st_db st)) /\
      tr_conversation_id trow = ConversationID j /\
      transcript_segments (st_db a') = transcript_segments (st_db st) ++ rows /\
      process_under executes q env fault j st
      = update_if executes a' (JobID j) (str "completed") 100 None (Some N)
                  (Some (str "success")) (Some tid)).
Proof.
  unfold process_under.
  pose proof (update_if_jobs_kept executes j st st (str "processing") 10 None None None
                (jobs_kept_refl j st)) as Hj1.
  pose proof (update_if_tables executes st st (JobID j) (str "processing") 10
                None None None None (tables_kept_refl st)) as Ht1.
  set (a1 := update_if executes st (JobID j) (str "processing") 10 None None None None)
    in *.
  destruct (p q) as [r|]; [| left; now eexists a1, None, _].
  destruct (mkdir_temp env) as [wd|msg]; [| left; now eexists a1, None, msg].
  destruct (ChunkAudio r env) as [chunks|msg]; [| left; now eexists a1, None, msg].
  set (total := Z.of_nat (length chunks)).
  pose proof (update_if_jobs_kept executes j st a1 (str "processing") 15 (Some total)
                (Some 0) None Hj1) as Hj2.
  pose proof (update_if_tables executes st a1 (JobID j) (str "processing") 15
                (Some total) (Some 0) None None Ht1) as Ht2.
  set (a2 := update_if executes a1 (JobID j) (str "processing") 15 (Some total)
                       (Some 0) None None) in *.
  pose proof (process_chunks_under_shape executes env r j total st chunks 0 a2 [] [] None
                Hj2 Ht2) as Hloop.
  destruct (process_chunks_under executes env r j total 0 chunks a2 [] [] None)
    as [final | [[[a3 combined] textParts] lang]].
  - left. destruct Hloop as (a' & current & msg & Hj' & Ht' & ->).
    now exists a', (Some current), msg.
  - destruct Hloop as [Hj3 Ht3].
    pose proof (update_if_jobs_kept executes j st a3 (str "processing") 85 None
                  (Some total) None Hj3) as Hj4.
    pose proof (update_if_tables executes st a3 (JobID j) (str "processing") 85
                  None (Some total) None None Ht3) as Ht4.
    set (a4 := update_if executes a3 (JobID j) (str "processing") 85 None
                         (Some total) None None) in *.
    pose proof (CreateTranscriptWithSegments_atomic fault (st_db a4) (ConversationID j)
                  (FileName j) (Join textParts (str " ")) None lang
                  (Some (str "whisper.cpp"))
                  (str "/api/audio/" ++ Itoa (ConversationID j))
                  (input_segments combined)) as Hat.
    cbv zeta in Hat.
    destruct (CreateTranscriptWithSegments fault (st_db a4) (ConversationID j)
                (FileName j) (Join textParts (str " ")) None lang
                (Some (str "whisper.cpp"))
                (str "/api/audio/" ++ Itoa (ConversationID j))
                (input_segments combined)) as [db [tid|msg]].
    + right. destruct Hat as [_ Hdb]. destruct Ht4 as (Hc & Htr & Hsg).
      eexists {| st_db := db; st_writes := st_writes a4 |}, total, tid, _, _.
      split; [apply (jobs_kept_db j st a4); [exact Hj4 | now rewrite Hdb] |].
      cbn [st_db]. rewrite Hdb.
      cbn [committed conversations transcripts transcript_segments].
      split; [exact Hc |]. split; [now rewrite Htr |].
      split; [reflexivity |]. split; [now rewrite Hsg | reflexivity].
    + left. subst db. exists {| st_db := st_db a4; st_writes := st_writes a4 |}, None, msg.
      split; [apply (jobs_kept_db j st a4); [exact Hj4 | reflexivity] |].
      split; [exact Ht4 | reflexivity].
Qed.

(** The job's row after a write that is executed. *)
Lemma update_if_row (executes : nat -> bool) (j : Job) (st a : State) (row : JobRow)
    s p tc cc res tid :
  jobs_kept j st a ->
  processing_jobs (st_db st) !! JobID j = Some row ->
  executes (length (st_writes a)) = true ->
  (forall t, tid = Some t -> is_Some (transcripts (st_db a) !! t)) ->
  exists row',
    job_transcript_id row' = job_transcript_id row /\
    job_conversation_id row' = job_conversation_id row /\
    processing_jobs (st_db (update_if executes a (JobID j) s p tc cc res tid)) !! JobID j
    = Some (updated_row row' s p tc cc res tid).
Proof.
  intros (f & Hf & Hids) Hrow Hex Htid. exists (f row).
  destruct (Hids row) as [H1 H2]. split; [exact H1 |]. split; [exact H2 |].
  assert (Ha : processing_jobs (st_db a) !! JobID j = Some (f row))
    by now rewrite Hf, lookup_alter_eq, Hrow.
  unfold update_if. rewrite Hex. cbn [update st_db].
  destruct tid as [t|].
  - rewrite (UpdateJobProgress_row_ref _ _ _ _ _ _ _ t (f row) Ha (Htid t eq_refl)).
    cbn [fst with_jobs processing_jobs]. apply lookup_insert_eq.
  - rewrite (UpdateJobProgress_row _ _ _ _ _ _ _ (f row) Ha).
    cbn [fst with_jobs processing_jobs]. apply lookup_insert_eq.
Qed.

(** The job rows after [process], whatever writes are executed: those of
    before but for the row of the job. *)
Lemma process_under_jobs (executes : nat -> bool) (q : Queue) (env : Env)
    (fault : nat -> option gostring) (j : Job) (st : State) :
  exists h,
    processing_jobs (st_db (process_under executes q env fault j st))
    = alter h (JobID j) (processing_jobs (st_db st)).
Proof.
  assert (Hstep : forall a s p tc cc res tid,
             jobs_kept j st a ->
             exists h,
               processing_jobs (st_db (update_if executes a (JobID j) s p tc cc res tid))
               = alter h (JobID j) (processing_jobs (st_db st))).
  { intros a s p tc cc res tid (f & Hf & _). unfold update_if.
    destruct (executes _); cbn [update st_db]; [| now exists f].
    rewrite UpdateJobProgress_alter. cbn [with_jobs processing_jobs].
    rewrite Hf, alter_alter_eq. eauto. }
  destruct (process_under_shape executes q env fault j st)
    as [(a' & current & msg & Hj & _ & ->)
       | (a' & N & tid & trow & rows & Hj & _ & _ & _ & _ & ->)]; now apply Hstep.
Qed.

Lemma process_under_other_rows (executes : nat -> bool) (q : Queue) (env : Env)
    (fault : nat -> option gostring) (j : Job) (st : State) (k : Z) :
  k <> JobID j ->
  processing_jobs (st_db (process_under executes q env fault j st)) !! k
  = processing_jobs (st_db st) !! k.
Proof.
  intros Hne. destruct (process_under_jobs executes q env fault j st) as [h ->].
  apply lookup_alter_ne. congruence.
Qed.

Lemma process_under_rows_exist (executes : nat -> bool) (q : Queue) (env : Env)
    (fault : nat -> option gostring) (j : Job) (st : State) (k : Z) :
  is_Some (processing_jobs (st_db (process_under executes q env fault j st)) !! k)
  <-> is_Some (processing_jobs (st_db st) !! k).
Proof.
  destruct (process_under_jobs executes q env fault j st) as [h ->].
  apply lookup_alter_is_Some.
Qed.

(** *** The calls and the transcript tables do not depend on which
    writes are executed *)

Lemma jobs_blind_ret {A} (a : A) : jobs_blind (tx_ret a).
Proof. now intros J st. Qed.

Lemma jobs_blind_bind {A B} (m : Tx A) (k : A -> Tx B) :
  jobs_blind m -> (forall a, jobs_blind (k a)) -> jobs_blind (tx_bind m k).
Proof.
  intros Hm Hk J st. unfold tx_bind. rewrite Hm.
  destruct (m st) as [[a st']|e]; [apply Hk | reflexivity].
Qed.

Lemma jobs_blind_stmt {A} (fault : nat -> option gostring) (f : DB -> result (A * DB)) :
  (forall J db, f (with_jobs db J)
                = match f db with
                  | Ok (a, db') => Ok (a, with_jobs db' J)
                  | Err e => Err e
                  end) ->
  jobs_blind (tx_stmt fault f).
Proof.
  intros Hf J st. unfold tx_stmt, tx_with_jobs. cbn [tx_count tx_db].
  destruct (fault (tx_count st)); [reflexivity |]. rewrite Hf.
  now destruct (f (tx_db st)) as [[a db']|e].
Qed.

Lemma jobs_blind_insert_segments (fault : nat -> option gostring) (tid : Z)
    (segs : list TranscriptSegmentInput) :
  jobs_blind (insert_segments fault tid segs).
Proof.
  induction segs as [|seg segs IH]; cbn [insert_segments]; [apply jobs_blind_ret |].
  destruct (is_empty (stringsTrim (Text seg))); [exact IH |].
  apply jobs_blind_bind; [| now intros _].
  apply jobs_blind_stmt. now intros J db.
Qed.

Lemma jobs_blind_transcript_tx (fault : nat -> option gostring) (row : TranscriptRow)
    (segs : list TranscriptSegmentInput) :
  jobs_blind (transcript_tx fault row segs).
Proof.
  unfold transcript_tx. apply jobs_blind_bind.
  - apply jobs_blind_stmt. intros J db. unfold insert_transcript.
    cbn [with_jobs conversations transcripts transcripts_seq].
    replace (conversation_has_transcript (with_jobs db J) (tr_conversation_id row))
      with (conversation_has_transcript db (tr_conversation_id row)) by reflexivity.
    destruct (negb (bool_decide (tr_conversation_id row ∈ conversations db)));
      [reflexivity |].
    now destruct (conversation_has_transcript db (tr_conversation_id row)).
  - intros tid. apply jobs_blind_bind; [apply jobs_blind_stmt; now intros J db |].
    intros _. destruct (0 <? length segs)%nat; [| apply jobs_blind_ret].
    apply jobs_blind_bind; [apply jobs_blind_stmt; now intros J db |].
    intros _. apply jobs_blind_bind; [apply jobs_blind_insert_segments |].
    intros _. apply jobs_blind_ret.
Qed.

(** [CreateTranscriptWithSegments] neither reads nor writes the job rows. *)
Lemma CreateTranscriptWithSegments_jobs (fault : nat -> option gostring) (db : DB)
    (J : gmap Z JobRow) conv fileName text duration language model audioURL segments :
  CreateTranscriptWithSegments fault (with_jobs db J) conv fileName text duration
    language model audioURL segments
  = (with_jobs (fst (CreateTranscriptWithSegments fault db conv fileName text duration
                       language model audioURL segments)) J,
     snd (CreateTranscriptWithSegments fault db conv fileName text duration
            language model audioURL segments)).
Proof.
  unfold CreateTranscriptWithSegments.
  destruct (fault 0%nat); [reflexivity |].
  pose proof (jobs_blind_transcript_tx fault
                {| tr_conversation_id := conv; tr_file_name := fileName;
                   tr_transcript_text := text; tr_duration := duration;
                   tr_language := language; tr_transcription_model := model;
                   tr_audio_file_url := audioURL |} segments J
                {| tx_db := db; tx_count := 1 |}) as H.
  unfold tx_with_jobs in H at 1. cbn [tx_db tx_count] in H. rewrite H.
  destruct (transcript_tx fault _ segments {| tx_db := db; tx_count := 1 |})
    as [[tid st']|e]; [| reflexivity].
  cbn [tx_with_jobs tx_count tx_db].
  now destruct (fault (tx_count st')).
Qed.

Lemma process_chunks_agree (executes : nat -> bool) (env : Env) (r : Runner) (j : Job)
    (total : Z) (chunks : list Chunk) :
  forall i a b c t l,
    agree a b ->
    match process_chunks_under executes env r j total i chunks a c t l,
          process_chunks env r j total i chunks b c t l with
    | inl a', inl b' => agree a' b'
    | inr (a', c1, t1, l1), inr (b', c2, t2, l2) =>
        agree a' b' /\ c1 = c2 /\ t1 = t2 /\ l1 = l2
    | _, _ => False
    end.
Proof.
  induction chunks as [|ch chunks IH]; intros i a b c t l Hab;
    [cbn; split; [exact Hab | now repeat split] |].
  cbn [process_chunks_under process_chunks].
  pose proof (update_if_agree executes a b (JobID j) (str "processing")
                (chunk_progress (i + 1) total) None (Some (i + 1)) None None Hab) as H1.
  destruct (TranscribeChunk r env (chunk_Path ch)) as [[[segs txt] cl]|msg].
  - now apply IH.
  - now apply update_if_agree.
Qed.

(** Whatever writes are executed, [process] issues the same calls and
    leaves the same store but for the job rows. *)
Lemma process_under_agree (executes : nat -> bool) (q : Queue) (env : Env)
    (fault : nat -> option gostring) (j : Job) (a b : State) :
  agree a b ->
  agree (process_under executes q env fault j a) (process q env fault j b).
Proof.
  intros Hab. unfold process_under, process.
  pose proof (update_if_agree executes a b (JobID j) (str "processing") 10
                None None None None Hab) as H1.
  set (a1 := update_if executes a (JobID j) (str "processing") 10 None None None None)
    in *.
  set (b1 := update b (JobID j) (str "processing") 10 None None None None) in *.
  destruct (p q) as [r|]; [| now apply update_if_agree].
  destruct (mkdir_temp env) as [wd|msg]; [| now apply update_if_agree].
  destruct (ChunkAudio r env) as [chunks|msg]; [| now apply update_if_agree].
  set (total := Z.of_nat (length chunks)).
  pose proof (update_if_agree executes a1 b1 (JobID j) (str "processing") 15
                (Some total) (Some 0) None None H1) as H2.
  pose proof (process_chunks_agree executes env r j total chunks 0 _ _ [] [] None H2)
    as Hloop.
  destruct (process_chunks_under executes env r j total 0 chunks _ [] [] None)
    as [a' | [[[a3 c1] t1] l1]];
    destruct (process_chunks env r j total 0 chunks _ [] [] None)
      as [b' | [[[b3 c2] t2] l2]]; try contradiction; [exact Hloop |].
  destruct Hloop as (H3 & -> & -> & ->).
  pose proof (update_if_agree executes a3 b3 (JobID j) (str "processing") 85
                None (Some total) None None H3) as [Hw4 Hdb4].
  set (a4 := update_if executes a3 (JobID j) (str "processing") 85 None
                       (Some total) None None) in *.
  set (b4 := update b3 (JobID j) (str "processing") 85 None (Some total) None None) in *.
  set (J := processing_jobs (st_db a4)) in *.
  rewrite Hdb4, CreateTranscriptWithSegments_jobs.
  destruct (CreateTranscriptWithSegments fault (st_db b4) (ConversationID j) (FileName j)
              (Join t2 (str " ")) None l2 (Some (str "whisper.cpp"))
              (str "/api/audio/" ++ Itoa (ConversationID j)) (input_segments c2))
    as [db [tid|msg]]; cbn [fst snd]; apply update_if_agree;
    (split; cbn [st_db st_writes]; [exact Hw4 | reflexivity]).
Qed.

Lemma process_under_trace (executes : nat -> bool) (q : Queue) (env : Env)
    (fault : nat -> option gostring) (j : Job) (st : State) :
  st_writes (process_under executes q env fault j st)
  = st_writes (process q env fault j st).
Proof. apply (process_under_agree executes q env fault j st st), agree_refl. Qed.

Lemma process_under_tables (executes : nat -> bool) (q : Queue) (env : Env)
    (fault : nat -> option gostring) (j : Job) (st : State) :
  conversations (st_db (process_under executes q env fault j st))
  = conversations (st_db (process q env fault j st)) /\
  transcripts (st_db (process_under executes q env fault j st))
  = transcripts (st_db (process q env fault j st)) /\
  transcript_segments (st_db (process_under executes q env fault j st))
  = transcript_segments (st_db (process q env fault j st)).
Proof.
  destruct (process_under_agree executes q env fault j st st (agree_refl st))
    as [_ ->]. now repeat split.
Qed.

Lemma process_chunks_under_all (executes : nat -> bool) (env : Env) (r : Runner)
    (j : Job) (total : Z) (chunks : list Chunk) :
  (forall n, executes n = true) ->
  forall i st c t l,
    process_chunks_under executes env r j total i chunks st c t l
    = process_chunks env r j total i chunks st c t l.
Proof.
  intros Hall. induction chunks as [|ch chunks IH]; intros i st c t l; [reflexivity |].
  cbn [process_chunks_under process_chunks]. rewrite !update_if_all by exact Hall.
  destruct (TranscribeChunk r env (chunk_Path ch)) as [[[segs txt] cl]|msg];
    [apply IH | now rewrite update_if_all].
Qed.

(** When every write is executed, the run is that of [process]. *)
Lemma process_under_all (executes : nat -> bool) (q : Queue) (env : Env)
    (fault : nat -> option gostring) (j : Job) (st : State) :
  (forall n, executes n = true) ->
  process_under executes q env fault j st = process q env fault j st.
Proof.
  intros Hall. unfold process_under, process.
  rewrite (update_if_all executes st) by exact Hall.
  destruct (p q) as [r|]; [| now rewrite update_if_all].
  destruct (mkdir_temp env); [| now rewrite update_if_all].
  destruct (ChunkAudio r env) as [chunks|]; [| now rewrite update_if_all].
  rewrite update_if_all by exact Hall.
  rewrite (process_chunks_under_all executes env r j _ chunks Hall).
  destruct (process_chunks env r j _ 0 chunks _ [] [] None)
    as [st' | [[[st' c] t] l]]; [reflexivity |].
  rewrite update_if_all by exact Hall.
  destruct (CreateTranscriptWithSegments _ _ _ _ _ _ _ _ _ _) as [db [tid|msg]];
    now rewrite update_if_all.
Qed.

Lemma pred_length_snoc {A} (l : list A) (x : A) : Nat.pred (length (l ++ [x])) = length l.
Proof. rewrite length_app. cbn. lia. Qed.

Lemma update_if_same_tables (executes : nat -> bool) (a : State) jobID s p tc cc res tid :
  conversations (st_db (update_if executes a jobID s p tc cc res tid))
  = conversations (st_db a) /\
  transcripts (st_db (update_if executes a jobID s p tc cc res tid))
  = transcripts (st_db a) /\
  transcript_segments (st_db (update_if executes a jobID s p tc cc res tid))
  = transcript_segments (st_db a).
Proof. apply (update_if_tables executes a a), tables_kept_refl. Qed.

(** The last call of [process] and what it leaves when it is executed:
    a failure write, on the tables as they were, or the completion
    write, on one new transcript of the job's conversation. *)
Lemma process_under_last (executes : nat -> bool) (q : Queue) (env : Env)
    (fault : nat -> option gostring) (j : Job) (st : State) (row : JobRow) :
  processing_jobs (st_db st) !! JobID j = Some row ->
  let final := process_under executes q env fault j st in
  (exists current msg,
      last (st_writes final) = Some (failed_write j current msg) /\
      tables_kept st final /\
      (executes (Nat.pred (length (st_writes final))) = true ->
       exists row',
         job_transcript_id row' = job_transcript_id row /\
         job_conversation_id row' = job_conversation_id row /\
         processing_jobs (st_db final) !! JobID j
         = Some (updated_row row' (str "failed") 100 None current (Some msg) None))) \/
  (exists N tid trow rows,
      last (st_writes final) = Some (completed_write j N tid) /\
      conversations (st_db final) = conversations (st_db st) /\
      transcripts (st_db final) = <[tid := trow]> (transcripts (st_db st)) /\
      tr_conversation_id trow = ConversationID j /\
      transcript_segments (st_db final) = transcript_segments (st_db st) ++ rows /\
      (executes (Nat.pred (length (st_writes final))) = true ->
       exists row',
         job_conversation_id row' = job_conversation_id row /\
         processing_jobs (st_db final) !! JobID j
         = Some (updated_row row' (str "completed") 100 None (Some N)
                             (Some (str "success")) (Some tid)))).
Proof.
  intros Hrow final. subst final.
  destruct (process_under_shape executes q env fault j st)
    as [(a' & current & msg & Hj & Ht & ->)
       | (a' & N & tid & trow & rows & Hj & Hc & Htr & Hconv & Hsg & ->)].
  - left. exists current, msg. rewrite update_if_trace.
    split; [apply last_snoc |]. split; [now apply update_if_tables |].
    rewrite pred_length_snoc. intros Hex.
    destruct (update_if_row executes j st a' row (str "failed") 100 None current
                (Some msg) None Hj Hrow Hex) as (row' & H1 & H2 & H3);
      [discriminate |].
    now exists row'.
  - right. exists N, tid, trow, rows. rewrite update_if_trace.
    destruct (update_if_same_tables executes a' (JobID j) (str "completed") 100 None
                (Some N) (Some (str "success")) (Some tid)) as (E1 & E2 & E3).
    split; [apply last_snoc |]. split; [now rewrite E1 |]. split; [now rewrite E2 |].
    split; [exact Hconv |]. split; [now rewrite E3 |].
    rewrite pred_length_snoc. intros Hex.
    destruct (update_if_row executes j st a' row (str "completed") 100 None (Some N)
                (Some (str "success")) (Some tid) Hj Hrow Hex) as (row' & _ & H2 & H3).
    + intros t [= <-]. rewrite Htr, lookup_insert_eq. eauto.
    + now exists row'.
Qed.

(** The last call of a job in which a stage fails. *)
Lemma stage_failure_last_call (executes : nat -> bool) (q : Queue) (env : Env)
    (fault : nat -> option gostring) (r : Runner) (j : Job) (st : State)
    (msg : gostring) :
  p q = Some r ->
  stage_failure r env fault j st msg ->
  exists current,
    last (st_writes (process_under executes q env fault j st))
    = Some (failed_write j current msg).
Proof.
  intros Hq Hf.
  destruct (process_stage_failure q env fault r j Hq st msg Hf)
    as (ws & current & Hp & _ & _).
  exists current. rewrite process_under_trace, Hp, replay_trace, app_assoc.
  apply last_snoc.
Qed.

(** The row and the tables after a job whose last call is a failure
    write. *)
Lemma failed_call_view (executes : nat -> bool) (q : Queue) (env : Env)
    (fault : nat -> option gostring) (j : Job) (st : State) (row : JobRow)
    (current : option Z) (msg : gostring) :
  processing_jobs (st_db st) !! JobID j = Some row ->
  let final := process_under executes q env fault j st in
  last (st_writes final) = Some (failed_write j current msg) ->
  tables_kept st final /\
  (executes (Nat.pred (length (st_writes final))) = true ->
   exists after,
     processing_jobs (st_db final) !! JobID j = Some after /\
     job_status after = str "failed" /\ job_result after = Some msg /\
     job_progress after = 100 /\
     job_transcript_id after = job_transcript_id row /\
     job_conversation_id after = job_conversation_id row).
Proof.
  intros Hrow final Hlast.
  destruct (process_under_last executes q env fault j st row Hrow)
    as [(current' & msg' & Hl & Ht & Hview)
       | (N & tid & trow & rows & Hl & _)]; fold final in Hl.
  - split; [exact Ht |]. intros Hex.
    destruct (Hview Hex) as (row' & H1 & H2 & H3).
    rewrite Hl in Hlast. injection Hlast as Hc Hm. subst current' msg'.
    eexists. split; [exact H3 |]. cbn. now repeat split.
  - rewrite Hl in Hlast.
    apply (f_equal (fun o => match o with
                             | Some w => w_transcriptID w
                             | None => None
                             end)) in Hlast.
    discriminate Hlast.
Qed.

(* ===================================================================== *)
(** ** A failing stage and the job's record                               *)
(* ===================================================================== *)

(** C3 (amended). Whenever a stage of a job fails (temporary directory,
    chunking, transcription of a chunk, persistence), the last progress
    write the worker issues asks for status failed with the error
    message of the stage and progress 100. The worker drops the error of
    every progress write; when this last one is executed -- its context
    has not expired, the stored transcript reference names a transcript
    -- the job's row has status failed, the message of the stage and
    progress 100, whichever of the earlier writes were executed, and the
    status endpoint reports the message as the job's error. *)
Theorem stage_failure_marks_failed (executes : nat -> bool) (q : Queue) (env : Env)
    (fault : nat -> option gostring) (r : Runner) (j : Job) (st : State)
    (row : JobRow) (msg : gostring) :
  p q = Some r ->
  stage_failure r env fault j st msg ->
  job_row st j = Some row ->
  reference_stored (st_db st) row ->
  let final := process_under executes q env fault j st in
  (exists current, last (st_writes final) = Some (failed_write j current msg)) /\
  (executes (Nat.pred (length (st_writes final))) = true ->
   exists after,
     job_row final j = Some after /\
     job_status after = str "failed" /\
     job_result after = Some msg /\
     job_progress after = 100 /\
     exists pj, GetJobByID (st_db final) (JobID j) = Ok pj /\
                pj_Status pj = str "failed" /\ pj_Error pj = Some msg /\
                pj_Progress pj = 100).
Proof.
  intros Hq Hf Hrow _ final.
  destruct (stage_failure_last_call executes q env fault r j st msg Hq Hf)
    as [current Hlast].
  split; [now exists current |]. intros Hex.
  destruct (failed_call_view executes q env fault j st row current msg Hrow Hlast)
    as (_ & Hview).
  destruct (Hview Hex) as (after & H1 & H2 & H3 & H4 & _).
  exists after. unfold job_row. fold final in H1.
  split; [exact H1 |]. split; [exact H2 |]. split; [exact H3 |]. split; [exact H4 |].
  unfold GetJobByID. rewrite H1. eexists. split; [reflexivity |].
  cbn [pj_Status pj_Error pj_Progress]. rewrite H2, H3. now repeat split.
Qed.

Lemma stage_failure_marks_failed_witness :
  exists after,
    job_row (process_under (fun _ => true) Scenario.queue Scenario.second_fails
                           Scenario.no_fault Scenario.job Scenario.uploaded)
            Scenario.job = Some after /\
    job_status after = str "failed" /\
    job_result after = Some (str "whisper failed: exit status 1") /\
    job_progress after = 100.
Proof.
  destruct (stage_failure_marks_failed (fun _ => true) Scenario.queue
              Scenario.second_fails Scenario.no_fault Scenario.runner Scenario.job
              Scenario.uploaded Scenario.pending_row
              (str "whisper failed: exit status 1"))
    as (_ & H).
  - reflexivity.
  - apply (transcription_fails _ _ _ _ _ (str "/tmp/listen-job-1")
             [Scenario.chunk_at 0; Scenario.chunk_at 1; Scenario.chunk_at 2]
             [Scenario.chunk_at 0] (Scenario.chunk_at 1) [Scenario.chunk_at 2]
             [Scenario.spoken]).
    + reflexivity.
    + reflexivity.
    + reflexivity.
    + repeat constructor.
    + reflexivity.
  - reflexivity.
  - intros t Ht. discriminate Ht.
  - destruct (H eq_refl) as (after & H1 & H2 & H3 & H4 & _).
    exists after. repeat split; assumption.
Defined.

(* ===================================================================== *)
(** ** Persistence is all or nothing                                      *)
(* ===================================================================== *)




(* ===================================================================== *)
(** ** Every job whose last write is executed ends in a terminal state    *)
(* ===================================================================== *)

(** X7. The last progress write a job issues always asks for a terminal
    state: progress 100 with status failed and an error, or status
    completed and a transcript reference. When that write is executed,
    on a row that exists and whose stored transcript reference names a
    transcript, the job is not left in processing, whichever of the
    earlier writes were executed: the status endpoint reports progress
    100 and either status failed with an error, the transcript reference
    and the transcript tables as they were, or status completed with no
    error and a reference to a stored transcript of the job's
    conversation. *)
Theorem process_ends_terminal (executes : nat -> bool) (q : Queue) (env : Env)
    (fault : nat -> option gostring) (j : Job) (st : State) (row : JobRow) :
  processing_jobs (st_db st) !! JobID j = Some row ->
  reference_stored (st_db st) row ->
  let final := process_under executes q env fault j st in
  (exists w,
      last (st_writes final) = Some w /\ w_jobID w = JobID j /\ w_progress w = 100 /\
      ((w_status w = str "failed" /\ is_Some (w_result w)) \/
       (w_status w = str "completed" /\ is_Some (w_transcriptID w)))) /\
  (executes (Nat.pred (length (st_writes final))) = true ->
   exists pj,
     GetJobByID (st_db final) (JobID j) = Ok pj /\
     pj_Progress pj = 100 /\
     pj_ConversationID pj = job_conversation_id row /\
     ((pj_Status pj = str "failed" /\ is_Some (pj_Error pj) /\
       pj_TranscriptID pj = job_transcript_id row /\
       transcripts (st_db final) = transcripts (st_db st) /\
       transcript_segments (st_db final) = transcript_segments (st_db st)) \/
      (pj_Status pj = str "completed" /\ pj_Error pj = None /\
       exists tid trow,
         pj_TranscriptID pj = Some tid /\
         transcripts (st_db final) !! tid = Some trow /\
         tr_conversation_id trow = ConversationID j))).
Proof.
  intros Hrow _ final.
  destruct (process_under_last executes q env fault j st row Hrow)
    as [(current & msg & Hl & (_ & Ht & Hs) & Hview)
       | (N & tid & trow & rows & Hl & _ & Htr & Hconv & _ & Hview)];
    fold final in Hl, Hview.
  - split.
    { eexists. split; [exact Hl |]. split; [reflexivity |]. split; [reflexivity |].
      left. split; [reflexivity | cbn; eauto]. }
    intros Hex. destruct (Hview Hex) as (row' & H1 & H2 & H3).
    unfold GetJobByID. rewrite H3. eexists. split; [reflexivity |].
    split; [reflexivity |]. split; [exact H2 |].
    left. split; [reflexivity |]. split; [cbn; eauto |].
    split; [exact H1 |]. now split.
  - split.
    { eexists. split; [exact Hl |]. split; [reflexivity |]. split; [reflexivity |].
      right. split; [reflexivity | cbn; eauto]. }
    intros Hex. destruct (Hview Hex) as (row' & H2 & H3).
    unfold GetJobByID. rewrite H3. eexists. split; [reflexivity |].
    split; [reflexivity |]. split; [exact H2 |].
    right. split; [reflexivity |]. split; [reflexivity |].
    exists tid, trow. split; [reflexivity |]. split; [| exact Hconv].
    fold final in Htr. rewrite Htr. apply lookup_insert_eq.
Qed.

Lemma process_ends_terminal_witness :
  exists pj,
    GetJobByID (st_db (process_under (context_expires_after 3) Scenario.queue
                                     Scenario.no_temp_dir Scenario.no_fault
                                     Scenario.job Scenario.uploaded)) 1 = Ok pj /\
    pj_Progress pj = 100.
Proof.
  destruct (process_ends_terminal (context_expires_after 3) Scenario.queue
              Scenario.no_temp_dir Scenario.no_fault Scenario.job Scenario.uploaded
              Scenario.pending_row) as (_ & H).
  - reflexivity.
  - intros t Ht. discriminate Ht.
  - destruct H as (pj & H1 & H2 & _); [vm_compute; reflexivity |].
    exists pj. split; assumption.
Defined.

(* ===================================================================== *)
(** ** A conversation takes one transcript                                *)
(* ===================================================================== *)

(** X15. A job for a conversation that is unknown or already has a
    transcript cannot succeed: whichever of its progress writes are
    executed, its last call is a failure write and the transcript tables
    stay as they were; when that call is executed, on a row whose stored
    transcript reference names a transcript, the status endpoint reports
    the job failed at progress 100 with the error of the call. The
    constraint is only met at the end: when every stage before the
    persist succeeds, all chunks have been transcribed and the job then
    fails with the error with which the INSERT of the transcript is
    refused. *)
Theorem process_needs_fresh_conversation (executes : nat -> bool) (q : Queue)
    (env : Env) (fault : nat -> option gostring) (j : Job) (st : State)
    (row : JobRow) :
  processing_jobs (st_db st) !! JobID j = Some row ->
  reference_stored (st_db st) row ->
  ConversationID j ∉ conversations (st_db st) \/
  conversation_has_transcript (st_db st) (ConversationID j) = true ->
  let final := process_under executes q env fault j st in
  (exists current msg,
      last (st_writes final) = Some (failed_write j current msg) /\
      (executes (Nat.pred (length (st_writes final))) = true ->
       exists pj,
         GetJobByID (st_db final) (JobID j) = Ok pj /\
         pj_Status pj = str "failed" /\ pj_Progress pj = 100 /\
         pj_Error pj = Some msg)) /\
  transcripts (st_db final) = transcripts (st_db st) /\
  transcript_segments (st_db final) = transcript_segments (st_db st) /\
  (forall r workDir chunks ws,
     p q = Some r -> mkdir_temp env = Ok workDir ->
     ChunkAudio r env = Ok chunks -> Forall2 (decodes env) chunks ws ->
     fault 0%nat = None -> fault 1%nat = None ->
     exists msg,
       (forall trow, tr_conversation_id trow = ConversationID j ->
                     insert_transcript trow (st_db st) = Err msg) /\
       st_writes final
       = st_writes st ++ writes_before_persist j (length chunks)
         ++ [failed_write j None msg]).
Proof.
  intros Hrow _ Hbad final.
  assert (Hlast : exists current msg,
             last (st_writes final) = Some (failed_write j current msg)).
  { destruct (process_outcome q env fault j st)
      as [(ws & current & msg & Hp & _)
         | (r & chunks & ws & db & tid & Hq & Hs)].
    - exists current, msg. subst final.
      rewrite process_under_trace, Hp, replay_trace, app_assoc. apply last_snoc.
    - apply job_succeeds_fresh in Hs as [Hin Hno].
      destruct Hbad as [Hbad | Hbad]; [now destruct Hbad | congruence]. }
  destruct Hlast as (current & msg & Hlast).
  destruct (failed_call_view executes q env fault j st row current msg Hrow Hlast)
    as ((_ & Ht & Hs) & Hview). fold final in Ht, Hs, Hview.
  split.
  { exists current, msg. split; [exact Hlast |]. intros Hex.
    destruct (Hview Hex) as (after & H1 & H2 & H3 & H4 & _).
    unfold GetJobByID. rewrite H1. eexists. split; [reflexivity |].
    split; [exact H2 |]. split; [exact H4 |]. cbn [pj_Error]. now rewrite H3, H2. }
  split; [exact Ht |]. split; [exact Hs |].
  intros r workDir chunks ws Hq Hm Hc Hd Hf0 Hf1.
  set (st1 := replay st (writes_before_persist j (length chunks))).
  destruct (replay_tables st (writes_before_persist j (length chunks)))
    as (Hcv & Htr & _). fold st1 in Hcv, Htr.
  set (msg' := if bool_decide (ConversationID j ∈ conversations (st_db st))
               then str "UNIQUE constraint failed: transcripts.conversation_id"
               else str "FOREIGN KEY constraint failed").
  assert (Hp : persist fault j (st_db st1) chunks ws = (st_db st1, Err msg')).
  { unfold persist, CreateTranscriptWithSegments. rewrite Hf0.
    unfold transcript_tx. unfold tx_bind at 1. unfold tx_stmt at 1.
    cbn [tx_db tx_count]. rewrite Hf1.
    unfold insert_transcript. cbn [tr_conversation_id]. rewrite Hcv.
    rewrite (conversation_has_transcript_ext _ _ _ Htr). unfold msg'.
    case_bool_decide as Hin; cbn [negb]; [| reflexivity].
    destruct Hbad as [Hbad | ->]; [now destruct Hbad | reflexivity]. }
  exists msg'. split.
  - intros trow Hconv. unfold insert_transcript, msg'. rewrite Hconv.
    case_bool_decide as Hin; cbn [negb]; [| reflexivity].
    destruct Hbad as [Hbad | ->]; [now destruct Hbad | reflexivity].
  - subst final. rewrite process_under_trace.
    rewrite (process_persist_fails q env fault r j st workDir chunks ws _ _ Hq Hm Hc Hd Hp).
    now rewrite replay_trace.
Qed.

Lemma process_needs_fresh_conversation_witness :
  let done := process Scenario.queue (Scenario.all_spoken 1) Scenario.no_fault
                      Scenario.job Scenario.uploaded in
  transcripts (st_db (process_under (context_expires_after 2) Scenario.queue
                                    (Scenario.all_spoken 1) Scenario.no_fault
                                    Scenario.job done))
  = transcripts (st_db done).
Proof.
  intros done.
  assert (Hrow : exists row,
             processing_jobs (st_db done) !! JobID Scenario.job = Some row /\
             job_transcript_id row = Some 1).
  { eexists. split; vm_compute; reflexivity. }
  destruct Hrow as (row & Hrow & Hid).
  apply (process_needs_fresh_conversation (context_expires_after 2) Scenario.queue
           (Scenario.all_spoken 1) Scenario.no_fault Scenario.job done row Hrow).
  - intros t Ht. rewrite Hid in Ht. injection Ht as <-. vm_compute. eauto.
  - right. vm_compute. reflexivity.
Defined.

(* ===================================================================== *)
(** ** The worker loop, whichever writes are executed                     *)
(* ===================================================================== *)

Lemma worker_under_snoc (executes : nat -> bool) (q : Queue) (env : Job -> Env)
    (fault : Job -> nat -> option gostring) (l : list Job) (j : Job) (st : State) :
  worker_under executes q env fault (l ++ [j]) st
  = process_under executes q (env j) (fault j) j (worker_under executes q env fault l st).
Proof. unfold worker_under. now rewrite fold_left_app. Qed.

Lemma worker_under_rows_exist (executes : nat -> bool) (q : Queue) (env : Job -> Env)
    (fault : Job -> nat -> option gostring) (l : list Job) (st : State) (k : Z) :
  is_Some (processing_jobs (st_db (worker_under executes q env fault l st)) !! k)
  <-> is_Some (processing_jobs (st_db st) !! k).
Proof.
  induction l as [|j l IH] using rev_ind; [reflexivity |].
  rewrite worker_under_snoc, process_under_rows_exist. exact IH.
Qed.

Lemma worker_under_other_rows (executes : nat -> bool) (q : Queue) (env : Job -> Env)
    (fault : Job -> nat -> option gostring) (l : list Job) (st : State) (k : Z) :
  ~ In k (List.map JobID l) ->
  processing_jobs (st_db (worker_under executes q env fault l st)) !! k
  = processing_jobs (st_db st) !! k.
Proof.
  induction l as [|j l IH] using rev_ind; intros Hk; [reflexivity |].
  rewrite worker_under_snoc, process_under_other_rows.
  - apply IH. intros Hin. apply Hk. rewrite List.map_app. apply in_or_app. now left.
  - intros ->. apply Hk. rewrite List.map_app. apply in_or_app. right. now left.
Qed.

Lemma worker_under_tables_not_configured (executes : nat -> bool) (q : Queue)
    (env : Job -> Env) (fault : Job -> nat -> option gostring) (l : list Job)
    (st : State) :
  p q = None ->
  transcripts (st_db (worker_under executes q env fault l st)) = transcripts (st_db st).
Proof.
  intros Hq. induction l as [|j l IH] using rev_ind; [reflexivity |].
  rewrite worker_under_snoc.
  destruct (process_under_tables executes q (env j) (fault j) j
              (worker_under executes q env fault l st)) as (_ & -> & _).
  rewrite (process_not_configured q (env j) (fault j) j _ Hq).
  destruct (replay_tables (worker_under executes q env fault l st)
              [claim_write j; failed_write j None (str "pipeline not configured")])
    as (_ & -> & _).
  exact IH.
Qed.

(** When every write is executed, the worker is [worker]. *)
Lemma worker_under_all (executes : nat -> bool) (q : Queue) (env : Job -> Env)
    (fault : Job -> nat -> option gostring) (l : list Job) (st : State) :
  (forall n, executes n = true) ->
  worker_under executes q env fault l st = worker q env fault l st.
Proof.
  intros Hall. induction l as [|j l IH] using rev_ind; [reflexivity |].
  rewrite worker_under_snoc, worker_snoc, IH. now apply process_under_all.
Qed.

(** A property of the row that every job establishes with its last write
    holds of each job the worker received. *)
Lemma worker_under_each (Q : JobRow -> Prop) (executes : nat -> bool) (q : Queue)
    (env : Job -> Env) (fault : Job -> nat -> option gostring) :
  (forall j st row,
     processing_jobs (st_db st) !! JobID j = Some row ->
     executes (Nat.pred (length (st_writes
                 (process_under executes q (env j) (fault j) j st)))) = true ->
     exists row',
       processing_jobs (st_db (process_under executes q (env j) (fault j) j st))
         !! JobID j = Some row' /\ Q row') ->
  forall received st j,
    final_writes_execute executes q env fault received st ->
    In j received ->
    is_Some (processing_jobs (st_db st) !! JobID j) ->
    exists row',
      processing_jobs (st_db (worker_under executes q env fault received st))
        !! JobID j = Some row' /\ Q row'.
Proof.
  intros Hstep received st. induction received as [|x l IH] using rev_ind;
    intros j Hex Hin Hrow; [destruct Hin |].
  rewrite worker_under_snoc.
  destruct (decide (JobID x = JobID j)) as [E | Hne].
  - assert (Hx : is_Some (processing_jobs
                            (st_db (worker_under executes q env fault l st))
                            !! JobID x)).
    { rewrite E. now apply worker_under_rows_exist. }
    destruct Hx as [row0 Hx]. rewrite <- E.
    apply (Hstep x _ row0 Hx).
    rewrite <- worker_under_snoc. apply (Hex l x []). reflexivity.
  - rewrite process_under_other_rows by congruence.
    apply IH; [| | exact Hrow].
    + intros done j0 rest ->. apply (Hex done j0 (rest ++ [x])).
      now rewrite <- app_assoc.
    + apply in_app_or in Hin as [Hin | [-> | []]]; [exact Hin | congruence].
Qed.

(** X17. A worker that handles the jobs it receives one after the other
    touches the row of no job it did not receive and, on a queue made
    without a pipeline, leaves the transcripts alone, whichever of its
    progress writes are executed. When the last progress write of every
    job is executed, on rows whose stored transcript reference names a
    transcript, every received job whose row exists is left in a
    terminal state: the status endpoint reports progress 100 and status
    failed or completed -- failed with "pipeline not configured" on a
    queue made without a pipeline. *)
Theorem worker_finishes_its_jobs (executes : nat -> bool) (q : Queue)
    (env : Job -> Env) (fault : Job -> nat -> option gostring)
    (received : list Job) (st : State) :
  let final := st_db (worker_under executes q env fault received st) in
  (forall k, ~ In k (List.map JobID received) ->
     processing_jobs final !! k = processing_jobs (st_db st) !! k) /\
  (p q = None -> transcripts final = transcripts (st_db st)) /\
  (final_writes_execute executes q env fault received st ->
   (forall j row, In j received ->
      processing_jobs (st_db st) !! JobID j = Some row ->
      reference_stored (st_db st) row) ->
   forall j, In j received ->
     is_Some (processing_jobs (st_db st) !! JobID j) ->
     exists pj,
       GetJobByID final (JobID j) = Ok pj /\ pj_Progress pj = 100 /\
       (pj_Status pj = str "failed" \/ pj_Status pj = str "completed") /\
       (p q = None ->
        pj_Status pj = str "failed" /\
        pj_Error pj = Some (str "pipeline not configured"))).
Proof.
  intros final. split; [| split].
  - intros k Hk. now apply worker_under_other_rows.
  - intros Hq. now apply worker_under_tables_not_configured.
  - intros Hex _ j Hin Hrow.
    destruct (worker_under_each
                (fun row' => job_progress row' = 100 /\
                             (job_status row' = str "failed" \/
                              job_status row' = str "completed") /\
                             (p q = None ->
                              job_status row' = str "failed" /\
                              job_result row' = Some (str "pipeline not configured")))
                executes q env fault) with (received := received) (st := st) (j := j)
      as (row' & Hl & Hp & Hs & Hn); auto.
    { intros j0 st0 row0 H0 Hex0.
      destruct (process_under_last executes q (env j0) (fault j0) j0 st0 row0 H0)
        as [(current & msg & Hlast & _ & Hview)
           | (N & tid & trow & rows & Hlast & _ & _ & _ & _ & Hview)].
      - destruct (Hview Hex0) as (r' & _ & _ & Hr). eexists. split; [exact Hr |].
        split; [reflexivity |]. split; [now left |]. intros Hq.
        split; [reflexivity |]. cbn [updated_row job_result].
        rewrite process_under_trace in Hlast.
        rewrite (process_not_configured q (env j0) (fault j0) j0 st0 Hq) in Hlast.
        rewrite replay_trace in Hlast.
        change (st_writes st0 ++ [claim_write j0;
                  failed_write j0 None (str "pipeline not configured")])
          with (st_writes st0 ++ [claim_write j0]
                ++ [failed_write j0 None (str "pipeline not configured")]) in Hlast.
        rewrite app_assoc, last_snoc in Hlast.
        apply (f_equal (fun o => match o with
                                 | Some w => w_result w
                                 | None => None
                                 end)) in Hlast.
        cbn in Hlast. now rewrite <- Hlast.
      - destruct (Hview Hex0) as (r' & _ & Hr). eexists. split; [exact Hr |].
        split; [reflexivity |]. split; [now right |]. intros Hq. exfalso.
        rewrite process_under_trace in Hlast.
        rewrite (process_not_configured q (env j0) (fault j0) j0 st0 Hq) in Hlast.
        rewrite replay_trace in Hlast.
        change (st_writes st0 ++ [claim_write j0;
                  failed_write j0 None (str "pipeline not configured")])
          with (st_writes st0 ++ [claim_write j0]
                ++ [failed_write j0 None (str "pipeline not configured")]) in Hlast.
        rewrite app_assoc, last_snoc in Hlast.
        apply (f_equal (fun o => match o with
                                 | Some w => w_transcriptID w
                                 | None => None
                                 end)) in Hlast.
        discriminate Hlast. }
    unfold final, GetJobByID. rewrite Hl. eexists. split; [reflexivity |].
    split; [exact Hp |]. split; [exact Hs |]. intros Hq.
    destruct (Hn Hq) as [H1 H2]. split; [exact H1 |].
    cbn [pj_Error]. now rewrite H2, H1.
Qed.

Lemma worker_finishes_its_jobs_witness :
  exists pj,
    GetJobByID (st_db (worker_under (fun n => negb (Nat.eqb n 2)) Scenario.queue
                                    (fun _ => Scenario.second_fails)
                                    (fun _ => Scenario.no_fault) [Scenario.job]
                                    Scenario.uploaded)) 1 = Ok pj /\
    pj_Progress pj = 100.
Proof.
  destruct (proj2 (proj2 (worker_finishes_its_jobs (fun n => negb (Nat.eqb n 2))
                            Scenario.queue (fun _ => Scenario.second_fails)
                            (fun _ => Scenario.no_fault) [Scenario.job]
                            Scenario.uploaded))) with (j := Scenario.job)
    as (pj & H1 & H2 & _).
  - intros done j rest E. destruct done as [|x done].
    + cbn in E. injection E as <- _. vm_compute. reflexivity.
    + destruct done; discriminate E.
  - intros j row [<- | []] Hrow t Ht.
    assert (E : Some row = Some Scenario.pending_row)
      by (rewrite <- Hrow; vm_compute; reflexivity).
    injection E as ->. discriminate Ht.
  - now left.
  - eexists. vm_compute. reflexivity.
  - exists pj. split; [exact H1 | exact H2].
Defined.

(* ===================================================================== *)
(** ** The fallback chain of the segment times                            *)
(* ===================================================================== *)

(** C1. For every raw segment record the adapter finds start and end by
    the four strategies in their fixed order, taking the first that
    succeeds: the millisecond pair (ms / 1000), [start]/[end] as they are,
    the frame pair (value x 0.01), the string timestamps. A record with
    the millisecond pair [{from: 1000, to: 2500}] gives start 1.0 and end
    2.5, whatever else it carries; a record [{t0: 150, t1: 300}] gives
    start 1.5 and end 3.0; a record with [start] and [end] and no
    millisecond pair gives them as they are; and a record that carries
    only string timestamps "HH:MM:SS" or "HH:MM:SS.f...", under
    [timestamps] or under [timestanps], gives HH x 3600 + MM x 60 + SS
    seconds plus the milliseconds of the fraction, so "00:00:01.000" and
    "00:00:02.5" give start 1.0 and end 2.5. *)
Theorem segTimesSeconds_fallback_chain (s : whisperSeg) (text : gostring)
    (start end_ : option float) (t0 t1 : option Z)
    (stamps stanps : option whisperTimestamps) :
  segTimesSeconds s =
    match timestamp_chain s with
    | Some (a, b) => (a, b, true)
    | None => (0%float, 0%float, false)
    end
  /\ timestamp_chain s =
       first_success [strategy_offsets_ms s; strategy_start_end s;
                      strategy_frames s; strategy_timestamps s]
  /\ segTimesSeconds
       {| ws_Text := text; ws_Start := start; ws_End := end_; ws_T0 := t0; ws_T1 := t1;
          ws_Offsets := Some {| off_From := Some 1000; off_To := Some 2500 |};
          ws_Timestamps := stamps; ws_TimeStanps := stanps |}
     = (1%float, 2.5%float, true)
  /\ segTimesSeconds
       {| ws_Text := text; ws_Start := None; ws_End := None;
          ws_T0 := Some 150; ws_T1 := Some 300; ws_Offsets := None;
          ws_Timestamps := stamps; ws_TimeStanps := stanps |}
     = (1.5%float, 3%float, true)
  /\ contribution (raw_offsets (str "hi") 1000 2500)
     = Some {| seg_Start := 1; seg_End := 2.5; seg_Text := str "hi" |}
  /\ contribution (raw_frames (str "hi") 150 300)
     = Some {| seg_Start := 1.5; seg_End := 3; seg_Text := str "hi" |}
  /\ (forall a b,
        segTimesSeconds
          {| ws_Text := text; ws_Start := Some a; ws_End := Some b;
             ws_T0 := t0; ws_T1 := t1; ws_Offsets := None;
             ws_Timestamps := stamps; ws_TimeStanps := stanps |}
        = (a, b, true))
  /\ (forall h m sec ds h' m' sec' ds',
        0 <= h < 100 -> 0 <= m < 100 -> 0 <= sec < 100 -> Forall is_digit ds ->
        0 <= h' < 100 -> 0 <= m' < 100 -> 0 <= sec' < 100 -> Forall is_digit ds' ->
        let times := Some {| ts_From := timestamp_text h m sec ds;
                             ts_To := timestamp_text h' m' sec' ds' |} in
        let seconds := (stamp_seconds h m sec (millis ds),
                        stamp_seconds h' m' sec' (millis ds'), true) in
        segTimesSeconds
          {| ws_Text := text; ws_Start := None; ws_End := None;
             ws_T0 := None; ws_T1 := None; ws_Offsets := None;
             ws_Timestamps := times; ws_TimeStanps := stanps |}
        = seconds /\
        segTimesSeconds
          {| ws_Text := text; ws_Start := None; ws_End := None;
             ws_T0 := None; ws_T1 := None; ws_Offsets := None;
             ws_Timestamps := None; ws_TimeStanps := times |}
        = seconds)
  /\ segTimesSeconds
       {| ws_Text := text; ws_Start := None; ws_End := None;
          ws_T0 := None; ws_T1 := None; ws_Offsets := None;
          ws_Timestamps := Some {| ts_From := str "00:00:01.000";
                                   ts_To := str "00:00:02.5" |};
          ws_TimeStanps := stanps |}
     = (1%float, 2.5%float, true).
Proof.
  split; [apply segTimesSeconds_chain |].
  split; [reflexivity |].
  split; [reflexivity |]. split; [reflexivity |].
  split; [reflexivity |]. split; [reflexivity |].
  split; [reflexivity |].
  split; [| vm_compute; reflexivity].
  intros h m sec ds h' m' sec' ds' Hh Hm Hs Hds Hh' Hm' Hs' Hds' times seconds.
  unfold segTimesSeconds, times, seconds.
  cbn [ws_Offsets ws_Start ws_End ws_T0 ws_T1 ws_Timestamps ws_TimeStanps
       ts_From ts_To].
  rewrite !timestamp_text_not_empty.
  rewrite (parseTimestamp_timestamp_text h m sec ds Hh Hm Hs Hds).
  rewrite (parseTimestamp_timestamp_text h' m' sec' ds' Hh' Hm' Hs' Hds').
  split; reflexivity.
Qed.

(* ===================================================================== *)
(** ** More than a thousand chunks                                        *)
(* ===================================================================== *)

(** C9. On an input of 15001 seconds with chunk duration 15 the tool
    writes ceil(15001 / 15) = 1001 files, chunk-000.wav to
    chunk-1000.wav, the last one second long. [chunkAudio] returns 1001
    chunks, but orders the files by name: chunk-1000.wav, which starts
    15000 seconds into the input, comes between chunk-100.wav and
    chunk-101.wav and is returned as chunk 102 with offset 1515. So a
    chunk that is not the last is shorter than 15 seconds, and the
    offsets are not those of section 4.1. *)
Lemma chunkAudio_misplaces_chunk_1000 :
  let L := 15001 * sample_rate in
  chunk_count L 15 = 1001%nat /\
  segmented_by_tool (Scenario.all_spoken 1001) L 15 /\
  chunk_samples L 15 1000 = 1 * sample_rate /\
  exists chunks ch,
    chunkAudio Scenario.runner (Scenario.all_spoken 1001) = Ok chunks /\
    length chunks = 1001%nat /\
    nth_error chunks 101 = Some ch /\
    chunk_Path ch = chunk_file 1000 /\
    chunk_Index ch = 102 /\
    chunk_Offset ch = 1515%float /\
    ~ stated_offsets 15 1001 chunks.
Proof.
  cbv zeta.
  split; [vm_compute; reflexivity |].
  split.
  { split; [reflexivity |]. exists (Scenario.chunk_files 1001).
    split; [reflexivity |].
    assert (E : List.map fst (segment_tool (15001 * sample_rate) 15)
                = Scenario.chunk_files 1001) by (vm_compute; reflexivity).
    rewrite E. apply Permutation_refl. }
  split; [vm_compute; reflexivity |].
  exists (chunks_from Scenario.runner 0 (sort_Strings (Scenario.chunk_files 1001))),
         {| chunk_Path := chunk_file 1000; chunk_Offset := 1515%float;
            chunk_Index := 102 |}.
  assert (Hnth : nth_error (chunks_from Scenario.runner 0
                              (sort_Strings (Scenario.chunk_files 1001))) 101
                 = Some {| chunk_Path := chunk_file 1000; chunk_Offset := 1515%float;
                           chunk_Index := 102 |}) by (vm_compute; reflexivity).
  split; [reflexivity |].
  split; [vm_compute; reflexivity |].
  split; [exact Hnth |].
  split; [reflexivity |]. split; [reflexivity |]. split; [reflexivity |].
  intros Hst.
  specialize (Hst 1000%nat _ ltac:(lia) (nth_error_In _ _ Hnth) eq_refl).
  cbn [chunk_Offset] in Hst.
  apply (f_equal (fun x => PrimFloat.ltb x 2000%float)) in Hst.
  vm_compute in Hst. discriminate Hst.
Qed.
